(** * potoo: a static site generator for Obsidian-flavoured Markdown notes

    A shallow embedding of [generator.py], [CustomMDExtension.py] and
    [CustomExceptions.py], and the properties of the directory walker, the
    link table, the navigation bar, the link resolver and the generation
    of the pages.

    Conventions.
    - A Python [str] is a [string]; its characters are the code points
      0..255 (the Latin-1 range), so that [ascii] is one character.
    - A [dict] is a [gmap]; a list is a [list]; [None] is [None].
    - A raised exception is the [Raise] outcome of a computation. *)

From Stdlib Require Import Strings.String Strings.Ascii NArith ZArith List DecimalString.
From stdpp Require Import base option list gmap strings sorting.

Local Open Scope string_scope.
Local Open Scope list_scope.
#[local] Set Warnings "-register-all,-clear-no-such-hyp".

(** ** Python strings *)

Section PyStr.

Definition code (c : ascii) : N := N_of_ascii c.

Definition in_range (lo hi : N) (c : ascii) : bool :=
  ((lo <=? code c) && (code c <=? hi))%N.

(** [str.lower] on the code points 0..255: the upper-case letters there are
    A-Z, U+00C0..U+00D6 and U+00D8..U+00DE, each 32 below its lower case. *)
Definition lower_char (c : ascii) : ascii :=
  if in_range 65 90 c || (in_range 192 222 c && negb (code c =? 215)%N)
  then ascii_of_N (code c + 32)
  else c.

Fixpoint string_map (f : ascii -> ascii) (s : string) : string :=
  match s with
  | EmptyString => EmptyString
  | String c s' => String (f c) (string_map f s')
  end.

Definition lower (s : string) : string := string_map lower_char s.

(** [str.isspace] on one character of the range. *)
Definition isspace (c : ascii) : bool :=
  in_range 9 13 c || in_range 28 32 c || (code c =? 133)%N || (code c =? 160)%N.

Fixpoint lstrip (s : string) : string :=
  match s with
  | EmptyString => EmptyString
  | String c s' => if isspace c then lstrip s' else s
  end.

Fixpoint rstrip (s : string) : string :=
  match s with
  | EmptyString => EmptyString
  | String c s' =>
      match rstrip s' with
      | EmptyString => if isspace c then EmptyString else String c EmptyString
      | r => String c r
      end
  end.

(** [s.strip()] *)
Definition strip (s : string) : string := rstrip (lstrip s).

(** [s.startswith(p)] *)
Definition startswith (p s : string) : bool := String.prefix p s.

(** [s.split(sep)] for a separator of one character: never empty. *)
Fixpoint split (sep : ascii) (s : string) : list string :=
  match s with
  | EmptyString => [EmptyString]
  | String c s' =>
      if Ascii.eqb c sep then EmptyString :: split sep s'
      else match split sep s' with
           | h :: t => String c h :: t
           | [] => [String c EmptyString]
           end
  end.

(** [s.rfind(c)]: the index of the last [c], or -1. *)
Fixpoint rfind_from (c : ascii) (s : string) (i acc : Z) : Z :=
  match s with
  | EmptyString => acc
  | String a s' => rfind_from c s' (i + 1)%Z (if Ascii.eqb a c then i else acc)
  end.

Definition rfind (c : ascii) (s : string) : Z := rfind_from c s 0 (-1).

(** A truthy [str]: not empty. *)
Definition truthy (s : string) : bool :=
  match s with EmptyString => false | _ => true end.

End PyStr.

(** ** generator.py: urlize *)

(** The character class [a-z0-9-_] of [CHAR_WHITELIST]. *)
Definition CHAR_WHITELIST (c : ascii) : bool :=
  in_range 97 122 c || in_range 48 57 c || Ascii.eqb c "-" || Ascii.eqb c "_".

(** [re.sub(cls, repl, s)] for a pattern that is one character class:
    every character the class matches is replaced by [repl]. *)
Fixpoint re_sub (cls : ascii -> bool) (repl : string) (s : string) : string :=
  match s with
  | EmptyString => EmptyString
  | String c s' =>
      (if cls c then repl else String c EmptyString) +:+ re_sub cls repl s'
  end.

(** [re.sub(f'[^{CHAR_WHITELIST}]', '_', text.lower())] *)
Definition urlize (text : string) : string :=
  re_sub (fun c => negb (CHAR_WHITELIST c)) "_" (lower text).

(** What one character becomes. *)
Definition urlize_char (c : ascii) : ascii :=
  if CHAR_WHITELIST (lower_char c) then lower_char c else "_"%char.

(** ** Exceptions (CustomExceptions.py and the built-in ones the code meets)

    [OSError] stands for what the file system raises: FileNotFoundError,
    FileExistsError, PermissionError and the like. *)

Inductive exn : Type :=
  | SameNameError (name : string)
  | UnknownLocalLinkWarning (url : string)
  | KeyError (key : string)
  | IndexError
  | TypeError
  | ValueError (msg : string)
  | OSError (what : string).

(** What a computation ends in. [OutOfFuel] is not an outcome of the
    program: it marks a loop of the model cut short by its iteration
    bound. *)
Inductive outcome (A : Type) : Type :=
  | Return (a : A)
  | Raise (e : exn)
  | OutOfFuel.
Arguments Return {A} a.
Arguments Raise {A} e.
Arguments OutOfFuel {A}.

Definition bind {A B} (m : outcome A) (k : A -> outcome B) : outcome B :=
  match m with
  | Return a => k a
  | Raise e => Raise e
  | OutOfFuel => OutOfFuel
  end.

(** ** config.py *)

Record Config : Type := {
  INPUT_DIRECTORY : string;
  MEDIA_DIRECTORY : string;
  STRICT : bool
}.

(** ** pathlib: a path is the list of its parts

    The paths are those of [PurePosixPath]: the first part is the anchor
    ([/] or [//]) when the path is absolute, and no other part holds a
    slash, is empty or is a single dot. *)

Definition path : Type := list string.

Inductive node : Type :=
  | File
  | Dir (entries : list (string * node)).

Definition is_anchor (part : string) : bool := startswith "/" part.

(** [pathlib.Path(s).parts]: the anchor of a string that starts with a
    slash (two slashes when it starts with exactly two), then the pieces
    between the slashes that are neither empty nor a single dot. *)
Definition parts_of (s : string) : path :=
  (if startswith "/" s
   then [if startswith "//" s && negb (startswith "///" s) then "//" else "/"]
   else []) ++
  List.filter (fun x => negb (String.eqb x "") && negb (String.eqb x "."))
    (split "/" s).

(** [a / b], and [pathlib.Path(a, b)]: an absolute [b] stands alone. *)
Definition joinpath (a b : path) : path :=
  match b with
  | x :: _ => if is_anchor x then b else a ++ b
  | [] => a
  end.

(** [PurePath.name]: the last part, and the empty string for a path
    without parts or with the anchor alone. *)
Definition name (p : path) : string :=
  match p with
  | [a] => if is_anchor a then "" else a
  | _ => List.last p ""
  end.

(** [PurePath.suffix] and [PurePath.stem]: the name is cut at its last dot
    when that dot is neither the first nor the last character. *)
Definition suffix_of (nm : string) : string :=
  let i := rfind "." nm in
  if ((0 <? i) && (i <? Z.of_nat (String.length nm) - 1))%Z
  then substring (Z.to_nat i) (String.length nm - Z.to_nat i) nm
  else "".

Definition stem_of (nm : string) : string :=
  let i := rfind "." nm in
  if ((0 <? i) && (i <? Z.of_nat (String.length nm) - 1))%Z
  then substring 0 (Z.to_nat i) nm
  else nm.

Definition suffix (p : path) : string := suffix_of (name p).
Definition stem (p : path) : string := stem_of (name p).

(** [PurePath.parent]: the path without its last part; the anchor alone
    is its own parent. *)
Definition parent (p : path) : path :=
  match p with
  | [a] => if is_anchor a then p else []
  | _ => removelast p
  end.

(** [str(p)] *)
Definition path_str (p : path) : string :=
  match p with
  | [] => "."
  | a :: rest =>
      if is_anchor a then a +:+ String.concat "/" rest else String.concat "/" p
  end.

(** [path.glob('**/*')]: every directory of the tree in pre-order, the
    entries of each listed in the order the directory gives them. *)
Fixpoint glob_rec (p : path) (n : node) : list (path * node) :=
  match n with
  | File => []
  | Dir es =>
      map (fun e => (p ++ [fst e], snd e)) es ++
      flat_map (fun e => glob_rec (p ++ [fst e]) (snd e)) es
  end.

(** [chain([path], path.glob('**/*'))] for the path [root] of the input
    and the tree [tree] found there. *)
Definition scan (root : path) (tree : node) : list (path * node) :=
  (root, tree) :: glob_rec root tree.

(** ** generator.py: parse_input_directory *)

Record walk_state : Type := {
  pages : gmap string (option path * path);
  navigation : gmap string (option string * list string);
  media : list (path * path)
}.

Definition hidden (p : path) : bool := existsb (startswith ".") p.

(** Lines 89-94: the item is appended to its parent's children, then
    checked against the keys, then given an entry of its own. *)
Definition register (item : path) (st : walk_state) : outcome walk_state :=
  match navigation st !! stem (parent item) with
  | None => Raise (KeyError (stem (parent item)))
  | Some (gp, cs) =>
      let nav := <[stem (parent item) := (gp, cs ++ [stem item])]> (navigation st) in
      match nav !! stem item with
      | Some _ => Raise (SameNameError (stem item))
      | None =>
          Return {| pages := pages st;
                    navigation := <[stem item := (Some (stem (parent item)), [])]> nav;
                    media := media st |}
      end
  end.

Definition set_page (k : string) (v : option path * path) (st : walk_state) : walk_state :=
  {| pages := <[k := v]> (pages st); navigation := navigation st; media := media st |}.

Definition add_media (m : path * path) (st : walk_state) : walk_state :=
  {| pages := pages st; navigation := navigation st; media := media st ++ [m] |}.

(** Lines 65-68: [pathlib.Path(config.MEDIA_DIRECTORY, urlize(item.stem) +
    item.suffix)]. *)
Definition media_dst (cfg : Config) (item : path) : path :=
  joinpath (parts_of (MEDIA_DIRECTORY cfg))
           (parts_of (urlize (stem item) +:+ suffix item)).

(** The body of the loop over the scanned items. *)
Definition walk_item (cfg : Config) (st : walk_state) (it : path * node)
  : outcome walk_state :=
  let item := fst it in
  if hidden item then Return st
  else match snd it with
       | File =>
           if String.eqb (suffix item) ".md" then
             if String.eqb (stem item) (stem (parent item)) then Return st
             else register item
                    (set_page (stem item) (Some item, [urlize (stem item) +:+ ".html"]) st)
           else Return (add_media (item, media_dst cfg item) st)
       | Dir es =>
           let is_root := Nat.eqb (length item) 1 in
           let description_file :=
             if existsb (fun e => String.eqb (fst e) (stem item +:+ ".md")) es
             then Some (item ++ [stem item +:+ ".md"]) else None in
           let output_path :=
             if is_root then ["index.html"] else [urlize (stem item) +:+ ".html"] in
           register item (set_page (stem item) (description_file, output_path) st)
       end.

Fixpoint walk (cfg : Config) (items : list (path * node)) (st : walk_state)
  : outcome walk_state :=
  match items with
  | [] => Return st
  | it :: rest => bind (walk_item cfg st it) (walk cfg rest)
  end.

Definition walk_init : walk_state :=
  {| pages := ∅; navigation := {[ "" := (None, []) ]}; media := [] |}.

Definition parse_input_directory (cfg : Config) (root : path) (tree : node)
  : outcome walk_state :=
  walk cfg (scan root tree) walk_init.

(** ** generator.py: make_links *)

Definition make_links (pgs : gmap string (option path * path))
    (med : list (path * path)) : gmap string path :=
  fold_left (fun links m => <[name (fst m) := snd m]> links) med (snd <$> pgs).


(** ** generator.py: reorder_children and make_navbar *)

Abbreviation nav_table := (gmap string (option string * list string)).

Section Navigation.

(** [list(s)] for a [set] of strings: the order in which Python iterates
    over a set. It depends on the hashes of the strings, so the model
    takes it as given. *)
Variable set_iter : gset string -> list string.

Definition reorder_children (children : list string)
    (meta : gmap string (list string)) : list string :=
  match meta !! "children" with
  | Some parsed_children =>
      let rest : gset string :=
        list_to_set children ∖ list_to_set parsed_children in
      let new_order :=
        filter (fun child => child ∈ children) parsed_children in
      new_order ++ set_iter rest
  | None => children
  end.

Definition truthy_opt (o : option string) : bool :=
  match o with Some s => truthy s | None => false end.

Definition getitem {V} (d : gmap string V) (k : string) : outcome V :=
  match d !! k with
  | Some v => Return v
  | None => Raise (KeyError k)
  end.

(** One row of the navigation bar: names with their [active] flag. *)
Definition row : Type := list (string * bool).

(** Lines 149-157, the [while] loop; [fuel] bounds its iterations. *)
Fixpoint ancestors_loop (fuel : nat) (cfg : Config) (navigation : nav_table)
    (curr_ancestor : option string) (ancestors : list row) : outcome (list row) :=
  match curr_ancestor with
  | Some a =>
      if truthy a && negb (String.eqb a (INPUT_DIRECTORY cfg)) then
        match fuel with
        | O => OutOfFuel
        | S fuel' =>
            bind (getitem navigation a) (fun entry =>
            let grandparent := fst entry in
            bind (match grandparent with
                  | Some g =>
                      if truthy g then
                        bind (getitem navigation g) (fun gentry =>
                        Return (map (fun parent_sibling =>
                                       (parent_sibling, String.eqb parent_sibling a))
                                    (snd gentry)))
                      else Return []
                  | None => Return []
                  end) (fun curr_ancestor_siblings =>
            ancestors_loop fuel' cfg navigation grandparent
              (curr_ancestor_siblings :: ancestors)))
        end
      else Return ancestors
  | None => Return ancestors
  end.

(** Lines 138-157: the rows of the ancestors, root-most first. *)
Definition navbar_ancestors (fuel : nat) (cfg : Config) (nm : string)
    (navigation : nav_table) : outcome (list row) :=
  bind (getitem navigation nm) (fun entry =>
  let parent := fst entry in
  if truthy_opt parent then
    bind (getitem navigation (default "" parent)) (fun _ =>
    ancestors_loop fuel cfg navigation parent [])
  else Return []).

Definition TAB : string := String "009"%char EmptyString.
Definition NL : string := String "010"%char EmptyString.
Definition DQ : string := String "034"%char EmptyString.

Definition nav_entry (links : gmap string path) (nm : string) (active : bool)
  : outcome string :=
  bind (getitem links nm) (fun dst =>
  Return (TAB +:+ "<li><a href=" +:+ path_str dst +:+
          (if active then " class=" +:+ DQ +:+ "active" +:+ DQ else "") +:+
          ">" +:+ nm +:+ "</a></li>" +:+ NL)).

Fixpoint nav_row (links : gmap string path) (r : row) : outcome string :=
  match r with
  | [] => Return ""
  | (nm, active) :: r' =>
      bind (nav_entry links nm active) (fun e =>
      bind (nav_row links r') (fun html => Return (e +:+ html)))
  end.

Definition nav_ul (links : gmap string path) (r : row) : outcome string :=
  bind (nav_row links r) (fun html =>
  Return ("<ul>" +:+ NL +:+ html +:+ "</ul>" +:+ NL)).

Fixpoint nav_uls (links : gmap string path) (rs : list row) : outcome string :=
  match rs with
  | [] => Return ""
  | r :: rs' =>
      bind (nav_ul links r) (fun h =>
      bind (nav_uls links rs') (fun html => Return (h +:+ html)))
  end.

(** [make_navbar]: the HTML of the bar and the navigation table, whose
    entry for [nm] holds the reordered children afterwards. *)
Definition make_navbar (fuel : nat) (cfg : Config) (nm : string)
    (meta : gmap string (list string)) (navigation : nav_table)
    (links : gmap string path) : outcome (string * nav_table) :=
  bind (getitem navigation nm) (fun entry =>
  let parent := fst entry in
  let children := snd entry in
  bind (if truthy_opt parent
        then bind (getitem navigation (default "" parent)) (fun pentry =>
             Return (snd pentry))
        else Return []) (fun siblings =>
  bind (navbar_ancestors fuel cfg nm navigation) (fun ancestors =>
  let children' :=
    match children with [] => children | _ => reorder_children children meta end in
  let navigation' :=
    match children with
    | [] => navigation
    | _ => <[nm := (parent, children')]> navigation
    end in
  bind (nav_uls links ancestors) (fun h_anc =>
  bind (match siblings with
        | [] => Return ""
        | _ => nav_ul links (map (fun s => (s, String.eqb s nm)) siblings)
        end) (fun h_sib =>
  bind (match children' with
        | [] => Return ""
        | _ => nav_ul links (map (fun c => (c, false)) children')
        end) (fun h_chi =>
  Return ("<div id=" +:+ DQ +:+ "navtree" +:+ DQ +:+ ">" +:+
          h_anc +:+ h_sib +:+ h_chi +:+ "</div>" +:+ NL, navigation'))))))).

End Navigation.

(** ** xml.etree.ElementTree: the elements the extension builds and walks *)

Inductive Element : Type := mkElement {
  tag : string;
  attrib : gmap string string;
  text : option string;
  tail : option string;
  elems : list Element
}.

Definition set_attrib (k v : string) (e : Element) : Element :=
  mkElement (tag e) (<[k := v]> (attrib e)) (text e) (tail e) (elems e).
Definition set_text (t : option string) (e : Element) : Element :=
  mkElement (tag e) (attrib e) t (tail e) (elems e).
Definition set_tail (t : option string) (e : Element) : Element :=
  mkElement (tag e) (attrib e) (text e) t (elems e).
Definition set_elems (es : list Element) (e : Element) : Element :=
  mkElement (tag e) (attrib e) (text e) (tail e) es.

Fixpoint depth (e : Element) : nat :=
  match e with
  | mkElement _ _ _ _ es => S (list_max (map depth es))
  end.

(** ** CustomMDExtension.py: the two inline patterns *)

Definition IMAGE_EXTENSIONS : list string := ["jpg"; "jpeg"; "png"; "gif"; "bmp"].
Definition VIDEO_EXTENSIONS : list string := ["mp4"].
Definition VIDEO_TYPES : gmap string string := {[ "mp4" := "video/mp4" ]}.

(** A match of [OBSIDIAN_LINK_RE] or [OBSIDIAN_EMBED_RE] is given by its
    two named groups: [url] (one or more characters other than a closing
    bracket or a bar) and [name] (absent, or one or more characters other
    than a closing bracket). *)
Module ObsidianLinkPattern.

Definition handleMatch (url_group : string) (name_group : option string) : Element :=
  let url := strip url_group in
  let el_text :=
    match name_group with
    | Some nm => if truthy nm then strip nm else url
    | None => url
    end in
  mkElement "a" {[ "href" := url ]} (Some el_text) None [].

End ObsidianLinkPattern.

Module ObsidianImagePattern.

Definition handleMatch (url_group : string) (name_group : option string)
  : outcome Element :=
  let url := strip url_group in
  let extension := List.last (split "." url) "" in
  if negb (truthy extension) then
    Raise (ValueError (url +:+ ": has no extension."))
  else if bool_decide (extension ∈ IMAGE_EXTENSIONS) then
    Return (mkElement "img" {[ "src" := url ]} None None [])
  else if bool_decide (extension ∈ VIDEO_EXTENSIONS) then
    bind (getitem VIDEO_TYPES extension) (fun ty =>
    let source :=
      mkElement "source" (<[ "type" := ty ]> {[ "src" := url ]}) None None [] in
    Return (mkElement "video" {[ "controls" := "" ]} None None [source]))
  else Raise (ValueError (extension +:+ ": unknown file type")).

End ObsidianImagePattern.

(** ** warnings.warn under the filter the entry point installs *)

(** What the run shows: a warning (the [message] attribute of the
    warning, which the line on the console shows through [repr], and the
    line of CustomMDExtension.py that issued it) or a printed line. *)
Inductive event : Type :=
  | Warning (message : string) (lineno : nat)
  | Print (line : string).

(** [UnknownLocalLinkWarning.__init__] *)
Definition warning_message (url : string) : string :=
  url +:+ " cannot be resolved as an output file".

(** [registry] is the module's [__warningregistry__]: the warnings
    already shown, each by its target and the line that issued it (the
    key of the module is the text handed to [warnings.warn], which is the
    target, with the category and that line; the category is one). *)
Record wstate : Type := {
  registry : list (string * nat);
  console : list event
}.

Definition M (A : Type) : Type := wstate -> outcome (A * wstate).

Definition ret {A} (a : A) : M A := fun w => Return (a, w).

Definition bindM {A B} (m : M A) (k : A -> M B) : M B :=
  fun w => bind (m w) (fun r => k (fst r) (snd r)).

Definition lift {A} (o : outcome A) : M A :=
  fun w => bind o (fun a => Return (a, w)).

Notation "'do' x <- m ; k" := (bindM m (fun x => k))
  (at level 10, x name, m at level 100, k at level 200).
Notation "m ;; k" := (bindM m (fun _ => k))
  (at level 100, k at level 200, right associativity).

(** [warnings.warn(url, UnknownLocalLinkWarning)]: a warning already in
    the registry is dropped; otherwise the filter decides: "error" (strict)
    raises it, "default" shows it and records it. *)
Definition warn (strict : bool) (url : string) (lineno : nat) : M unit :=
  fun w =>
    if bool_decide ((url, lineno) ∈ registry w) then Return (tt, w)
    else if strict then Raise (UnknownLocalLinkWarning url)
    else Return (tt, {| registry := (url, lineno) :: registry w;
                        console := console w ++ [Warning (warning_message url) lineno] |}).

Definition print (line : string) : M unit :=
  fun w => Return (tt, {| registry := registry w; console := console w ++ [Print line] |}).

(** ** CustomMDExtension.py: ObsidianLinkProcessor *)

Module ObsidianLinkProcessor.

Section Run.

Variable strict : bool.
Variable links : gmap string path.

(** Lines 120-136: the text of the anchor goes to what precedes it and
    the anchor leaves its parent. *)
Definition remove_link (parent : Element) (idx : nat) (element : Element)
  : outcome Element :=
  bind (match tail element with
        | Some t =>
            if truthy t then
              match text element with
              | Some x => Return (Some (x +:+ t))
              | None => Raise TypeError
              end
            else Return (text element)
        | None => Return (text element)
        end) (fun txt =>
  bind (if Nat.eqb idx 0 then
          let ptext := if truthy_opt (text parent) then default "" (text parent) else "" in
          match txt with
          | Some x => Return (set_text (Some (ptext +:+ x)) parent)
          | None => Raise TypeError
          end
        else
          match elems parent !! (idx - 1) with
          | None => Raise IndexError
          | Some previous =>
              let ptail :=
                if truthy_opt (tail previous) then default "" (tail previous) else "" in
              match txt with
              | Some x =>
                  Return (set_elems
                            (<[idx - 1 := set_tail (Some (ptail +:+ x)) previous]>
                               (elems parent)) parent)
              | None => Raise TypeError
              end
          end) (fun parent' =>
  Return (set_elems (delete idx (elems parent')) parent'))).

(** Lines 156-166: the loop over the sources of a video. [removed] says
    whether the video has left the parent; a second [parent.remove] of it
    finds it gone. *)
Fixpoint video_sources (parent : Element) (idx : nat) (removed : bool)
    (sources done : list Element) : M (list Element * Element * bool) :=
  match sources with
  | [] => ret (done, parent, removed)
  | source :: rest =>
      do src <- lift (getitem (attrib source) "src");
      if negb (startswith "http" src) then
        match links !! src with
        | Some dst =>
            video_sources parent idx removed rest
              (done ++ [set_attrib "src" (path_str dst) source])
        | None =>
            warn strict src 163 ;;
            print (TAB +:+ "removing video") ;;
            if removed then
              lift (Raise (ValueError "list.remove(x): x not in list"))
            else
              video_sources (set_elems (delete idx (elems parent)) parent) idx true
                rest (done ++ [source])
        end
      else video_sources parent idx removed rest (done ++ [source])
  end.

(** Lines 109-167: one round of the [while] loop; the parent and the
    index afterwards. After a removal the index stays ([idx -= 1] then
    [idx += 1]). *)
Definition body (parent : Element) (idx : nat) : M (Element * nat) :=
  match elems parent !! idx with
  | None => lift (Raise IndexError)
  | Some element =>
      if String.eqb (tag element) "a" then
        do href <- lift (getitem (attrib element) "href");
        if negb (startswith "http" href) then
          match links !! href with
          | Some dst =>
              ret (set_elems (<[idx := set_attrib "href" (path_str dst) element]>
                                (elems parent)) parent, idx + 1)
          | None =>
              warn strict href 118 ;;
              print (TAB +:+ "removing link") ;;
              do parent' <- lift (remove_link parent idx element);
              ret (parent', idx)
          end
        else
          ret (set_elems (<[idx := set_attrib "class" "outgoing" element]>
                            (elems parent)) parent, idx + 1)
      else if String.eqb (tag element) "img" then
        do src <- lift (getitem (attrib element) "src");
        if negb (startswith "http" src) then
          match links !! src with
          | Some dst =>
              ret (set_elems (<[idx := set_attrib "src" (path_str dst) element]>
                                (elems parent)) parent, idx + 1)
          | None =>
              warn strict src 149 ;;
              print (TAB +:+ "removing image") ;;
              ret (set_elems (delete idx (elems parent)) parent, idx)
          end
        else ret (parent, idx + 1)
      else if String.eqb (tag element) "video" then
        do r <- video_sources parent idx false (elems element) [];
        let '(sources, parent', removed) := r in
        if removed then ret (parent', idx)
        else ret (set_elems (<[idx := set_elems sources element]> (elems parent')) parent',
                  idx + 1)
      else ret (parent, idx + 1)
  end.

(** Lines 107-167: [while idx < len(parent)]. *)
Fixpoint while_loop (fuel : nat) (parent : Element) (idx : nat) : M Element :=
  if Nat.ltb idx (length (elems parent)) then
    match fuel with
    | O => lift OutOfFuel
    | S fuel' =>
        do r <- body parent idx;
        while_loop fuel' (fst r) (snd r)
    end
  else ret parent.

(** The whole loop on one parent: a round either moves the index on or
    shortens the list, so the number of children bounds the rounds. *)
Definition resolve_children (parent : Element) : M Element :=
  while_loop (length (elems parent)) parent 0.

Fixpoint mapM {A B} (f : A -> M B) (l : list A) : M (list B) :=
  match l with
  | [] => ret []
  | a :: l' => do b <- f a; do bs <- mapM f l'; ret (b :: bs)
  end.

(** [for parent in root.iter()]: the iterator yields an element, the loop
    body rewrites its children, and the iterator then goes down into the
    children that are left. *)
Fixpoint iter (fuel : nat) (parent : Element) : M Element :=
  match fuel with
  | O => lift OutOfFuel
  | S fuel' =>
      do parent' <- resolve_children parent;
      do es <- mapM (iter fuel') (elems parent');
      ret (set_elems es parent')
  end.

Definition run (root : Element) : M Element := iter (depth root) root.

End Run.

End ObsidianLinkProcessor.

Definition w0 : wstate := {| registry := []; console := [] |}.

(** ** Vocabulary of the statements *)

(** The items of a scan, as the walker tells them apart. *)
Definition visible (it : path * node) : bool := negb (hidden (fst it)).

Definition is_dir (it : path * node) : bool :=
  match snd it with Dir _ => true | File => false end.

Definition is_markdown (it : path * node) : bool :=
  match snd it with
  | File => String.eqb (suffix (fst it)) ".md"
  | Dir _ => false
  end.

(** A markdown file that is not the description of its directory. *)
Definition is_page_file (it : path * node) : bool :=
  is_markdown it && negb (String.eqb (stem (fst it)) (stem (parent (fst it)))).

Definition is_media (it : path * node) : bool :=
  match snd it with
  | File => negb (String.eqb (suffix (fst it)) ".md")
  | Dir _ => false
  end.

(** An entry: what the walker gives a page and a navigation node. *)
Definition is_entry (it : path * node) : bool :=
  visible it && (is_dir it || is_page_file it).

Definition entries (items : list (path * node)) : list (path * node) :=
  List.filter is_entry items.

Definition entry_names (items : list (path * node)) : list string :=
  map (fun it => stem (fst it)) (entries items).

Definition media_files (items : list (path * node)) : list (path * node) :=
  List.filter (fun it => visible it && is_media it) items.

(** The value [pages] gets for an entry. *)
Definition page_value (it : path * node) : option path * path :=
  match snd it with
  | File => (Some (fst it), [urlize (stem (fst it)) +:+ ".html"])
  | Dir es =>
      (if existsb (fun e => String.eqb (fst e) (stem (fst it) +:+ ".md")) es
       then Some (fst it ++ [stem (fst it) +:+ ".md"]) else None,
       if Nat.eqb (length (fst it)) 1 then ["index.html"]
       else [urlize (stem (fst it)) +:+ ".html"])
  end.

(** [climb nav n k]: the [n]-th ancestor of [k] along the parent names. *)
Fixpoint climb (nav : nav_table) (n : nat) (k : string) : option string :=
  match n with
  | O => Some k
  | S n' =>
      match nav !! k with
      | Some (Some p, _) => climb nav n' p
      | _ => None
      end
  end.

(** A navigation table that is a tree rooted at the empty name. *)
Record nav_tree (nav : nav_table) : Prop := {
  nt_root : exists cs, nav !! "" = Some (None, cs);
  nt_parent : forall k, k <> "" -> is_Some (nav !! k) ->
      exists p cs, nav !! k = Some (Some p, cs) /\ is_Some (nav !! p);
  nt_rooted : forall k, is_Some (nav !! k) -> exists n, climb nav n k = Some "";
  nt_listed : forall k p cs, nav !! k = Some (Some p, cs) ->
      exists gp pcs, nav !! p = Some (gp, pcs) /\ k ∈ pcs;
  nt_children : forall p gp cs, nav !! p = Some (gp, cs) ->
      NoDup cs /\ forall c, c ∈ cs -> exists ccs, nav !! c = Some (Some p, ccs)
}.

(** In a scan every item comes after the directory it lies in:
    [known] holds the directories met so far. *)
Fixpoint parents_first (known : list path) (items : list (path * node)) : Prop :=
  match items with
  | [] => True
  | it :: rest =>
      (exists q nm, fst it = q ++ [nm] /\ q ∈ known) /\
      parents_first (if is_dir it then fst it :: known else known) rest
  end.

Definition grow (known : list path) (items : list (path * node)) : list path :=
  rev (map fst (List.filter is_dir items)) ++ known.

Definition known_in (known : list path) (nav : nav_table) : Prop :=
  forall q, q ∈ known -> hidden q = false -> is_Some (nav !! stem q).

(** The navigation table after an item [k] is put under [pk]. *)
Definition nav_add (nav : nav_table) (k pk : string) (gp : option string)
    (cs : list string) : nav_table :=
  <[k := (Some pk, [])]> (<[pk := (gp, cs ++ [k])]> nav).

(** The claim in the spec's words: declared children that exist, in
    declared order, then the other children in scan order. *)
Definition reorder_as_specified (declared children : list string) : list string :=
  filter (fun c => c ∈ children) declared ++
  filter (fun c => c ∉ declared) children.

(** Another iteration order of the sets: the elements backwards. *)
Definition set_iter_backwards (s : gset string) : list string :=
  reverse (elements s).

(** What a row of the ancestors of [a] looks like: empty, or with one
    active entry that is an ancestor of [a] (or [a] itself); and not empty
    when the only child of the root key is the configured input directory. *)
Definition row_of (cfg : Config) (nav : nav_table) (a : string) (r : row) : Prop :=
  (r = [] \/
   exists a' m, climb nav m a = Some a' /\ List.filter snd r = [(a', true)]) /\
  ((forall k cs, nav !! k = Some (Some "", cs) -> k = INPUT_DIRECTORY cfg) -> r <> []).



(** The warning state after an unresolved target at [lineno] under the
    lenient filter: the warning is shown unless the registry has it, and
    the line "removing ..." is printed. *)
Definition warned (url : string) (lineno : nat) (what : string) (w : wstate) : wstate :=
  let w1 :=
    if bool_decide ((url, lineno) ∈ registry w) then w
    else {| registry := (url, lineno) :: registry w;
            console := console w ++ [Warning (warning_message url) lineno] |} in
  {| registry := registry w1;
     console := console w1 ++ [Print (TAB +:+ "removing " +:+ what)] |}.

(** The text the link pattern shows: the name when the match has one,
    the target otherwise, without the blanks around it. *)
Definition shown_text (url_group : string) (name_group : option string) : string :=
  match name_group with
  | Some nm => strip nm
  | None => strip url_group
  end.

(** A computation that never ends in [UnknownLocalLinkWarning]. *)
Definition quiet {A} (m : M A) : Prop :=
  forall w u, m w <> Raise (UnknownLocalLinkWarning u).

(** A computation that ends, in a value with property [P] or in an
    exception, and not for want of fuel. *)
Definition total_with {A} (o : outcome A) (P : A -> Prop) : Prop :=
  match o with
  | Return a => P a
  | Raise _ => True
  | OutOfFuel => False
  end.

Definition total_M {A} (m : M A) (P : A -> Prop) : Prop :=
  forall w, total_with (m w) (fun r => P (fst r)).

(** Every element of [es] has depth at most [d]. *)
Definition child_bound (d : nat) (es : list Element) : Prop :=
  Forall (fun c => depth c <= d) es.

(** What one round of the loop over the children does to the parent and
    the index: the index moves on, or a child leaves. *)
Definition round_effect (d : nat) (parent : Element) (idx : nat)
    (r : Element * nat) : Prop :=
  child_bound d (elems (fst r)) /\
  ((snd r = idx + 1 /\ length (elems (fst r)) = length (elems parent)) \/
   (snd r = idx /\ S (length (elems (fst r))) = length (elems parent))).

(** [urlize] over any alphabet, with any lower-casing of strings. *)
Definition urlize_any {A} (whitelisted : A -> bool) (underscore : A)
    (lower_any : list A -> list A) (text : list A) : list A :=
  map (fun c => if whitelisted c then c else underscore) (lower_any text).

(** The warnings on the console, in the order they were shown: the
    [message] attribute and the line of code of each. *)
Definition shown (c : list event) : list (string * nat) :=
  flat_map (fun e => match e with
                     | Warning m l => [(m, l)]
                     | Print _ => []
                     end) c.

(** The warning a registry key stands for. *)
Definition warning_of (k : string * nat) : string * nat :=
  (warning_message (fst k), snd k).

(** The console and the registry in step: the registry holds no key
    twice, and the warnings on the console are those of the registry,
    oldest first. *)
Definition in_step (w : wstate) : Prop :=
  NoDup (registry w) /\
  shown (console w) = map warning_of (rev (registry w)).

(** A computation that keeps the console and the registry in step and
    only adds to the console. *)
Definition orderly {A} (m : M A) : Prop :=
  forall w, in_step w ->
    match m w with
    | Return (_, w') => in_step w' /\ exists more, console w' = console w ++ more
    | _ => True
    end.

(** ** Sample inputs *)

Definition cfg0 : Config :=
  {| INPUT_DIRECTORY := "vault"; MEDIA_DIRECTORY := "media"; STRICT := false |}.

(** vault/notes/a.md and vault/topics/deep/notes/: two directories named
    notes, at depths one and three. *)
Definition tree_two_notes : node :=
  Dir [("notes", Dir [("a.md", File)]);
       ("topics", Dir [("deep", Dir [("notes", Dir [])])])].

(** vault/.obsidian/ and vault/a.md: a hidden directory beside a page. *)
Definition tree_hidden : node :=
  Dir [(".obsidian", Dir []); ("a.md", File)].

(** vault/notes/ and vault/.obsidian/notes/: the second directory named
    notes lies under a hidden one. *)
Definition tree_hidden_twin : node :=
  Dir [("notes", Dir []); (".obsidian", Dir [("notes", Dir [])])].

(** vault/x.png and vault/.trash/x.png: the later of two media files of
    one name lies under a hidden directory. *)
Definition tree_hidden_media : node :=
  Dir [("x.png", File); (".trash", Dir [("x.png", File)])].

(** vault/ with a page, a directory with its description file, a hidden
    directory, and two media files named x.png in different directories. *)
Definition tree_site : node :=
  Dir [("a.md", File);
       ("notes", Dir [("x.png", File); ("b.md", File); ("notes.md", File)]);
       (".obsidian", Dir [("c.md", File)]);
       ("pics", Dir [("x.png", File)])].

(** An input directory whose name has a suffix: the root page is named
    my, the configured name is my.notes. *)
Definition cfg_dotted : Config :=
  {| INPUT_DIRECTORY := "my.notes"; MEDIA_DIRECTORY := "media"; STRICT := false |}.

(** my.notes/A/x.md *)
Definition tree_dotted : node := Dir [("A", Dir [("x.md", File)])].

Definition links_alpha : gmap string path := {[ "Alpha" := ["alpha.html"] ]}.

(** A paragraph: "see ", an emphasis, a link to a page that does not
    exist, and an image that does not exist. *)
Definition el_first : Element :=
  mkElement "em" ∅ (Some "first") (Some ", then ") [].
Definition a_missing : Element :=
  mkElement "a" {[ "href" := "Missing" ]} (Some "Missing") (Some " and ") [].
Definition img_x : Element :=
  mkElement "img" {[ "src" := "x.png" ]} None (Some " after") [].
Definition p_sample : Element :=
  mkElement "p" ∅ (Some "see ") None [el_first; a_missing; img_x].


(** A link to a missing page whose display text is all bold: the anchor
    has no text of its own ([None]) and one child. *)
Definition a_bold : Element :=
  mkElement "a" {[ "href" := "Missing" ]} None None
    [mkElement "strong" ∅ (Some "bold") None []].
Definition p_bold : Element := mkElement "p" ∅ None None [a_bold].

(** A paragraph with the same missing link twice. *)
Definition p_twice : Element :=
  mkElement "p" ∅ (Some "see ") None [a_missing; a_missing].

(** The walker's result on [tree_site]. *)
Definition st_site : walk_state :=
  match parse_input_directory cfg0 ["vault"] tree_site with
  | Return st => st
  | _ => walk_init
  end.

(** vault/A/x.md and vault/b.md *)
Definition tree_two_levels : node :=
  Dir [("A", Dir [("x.md", File)]); ("b.md", File)].

Definition st_two_levels : walk_state :=
  match parse_input_directory cfg0 ["vault"] tree_two_levels with
  | Return st => st
  | _ => walk_init
  end.

(** ** More vocabulary: the tables of the walker *)

(** The names the walker appends to the children of [k]: the entries whose
    parent directory has the stem [k], in scan order. *)
Definition children_of (k : string) (items : list (path * node)) : list string :=
  entry_names (List.filter (fun it => String.eqb (stem (parent (fst it))) k) items).

(** The last media entry of the list that has the file name [k]. *)
Definition last_media (k : string) (med : list (path * path)) : option (path * path) :=
  List.find (fun m => String.eqb (name (fst m)) k) (rev med).

(** Every name of the row is listed among the children of some key. *)
Definition listed_row (nav : nav_table) (r : row) : Prop :=
  forall x, x ∈ map fst r -> exists g gp cs, nav !! g = Some (gp, cs) /\ x ∈ cs.

(** ** generator.py: make_children_listing *)

(** What [generate_page] returns for a page: its name, title,
    description and header image ([''] when there is none). *)
Record page_meta : Type := {
  pm_name : string;
  pm_title : string;
  pm_description : string;
  pm_header : string
}.

(** Lines 206-216: the entry of one child. *)
Definition listing_entry (links : gmap string path) (cm : page_meta)
  : outcome string :=
  bind (getitem links (pm_name cm)) (fun dst =>
  bind (if truthy (pm_header cm)
        then bind (getitem links (pm_header cm)) (fun hdst =>
             Return ("<img src=" +:+ path_str hdst +:+ ">" +:+ NL))
        else Return "") (fun img =>
  Return ("<div class=" +:+ DQ +:+ "entry" +:+ DQ +:+ ">" +:+ NL +:+
          "<a href=" +:+ DQ +:+ path_str dst +:+ DQ +:+ ">" +:+ NL +:+
          img +:+
          "<div class=" +:+ DQ +:+ "entry-text" +:+ DQ +:+ ">" +:+ NL +:+
          "<p class=" +:+ DQ +:+ "entry-title" +:+ DQ +:+ ">" +:+
          pm_title cm +:+ "</p>" +:+ NL +:+
          (if truthy (pm_description cm)
           then "<p class=" +:+ DQ +:+ "entry-description" +:+ DQ +:+ ">" +:+
                pm_description cm +:+ "</p>" +:+ NL
           else "") +:+
          "</div>" +:+ NL +:+ "</a>" +:+ NL +:+ "</div>" +:+ NL))).

Fixpoint listing_entries (links : gmap string path) (children_meta : list page_meta)
  : outcome string :=
  match children_meta with
  | [] => Return ""
  | cm :: rest =>
      bind (listing_entry links cm) (fun entry =>
      bind (listing_entries links rest) (fun html => Return (entry +:+ html)))
  end.

Definition make_children_listing (links : gmap string path)
    (children_meta : list page_meta) : outcome string :=
  bind (listing_entries links children_meta) (fun html =>
  Return ("<section id=" +:+ DQ +:+ "category-listing" +:+ DQ +:+ ">" +:+ NL +:+
          html +:+ "</section>" +:+ NL)).

(** The keys an entry of the listing looks up. *)
Definition listing_keys (cm : page_meta) : list string :=
  pm_name cm :: (if truthy (pm_header cm) then [pm_header cm] else []).

(** ** generator.py: generate_page and write_html *)

(** The other settings of config.py. *)
Record Site : Type := {
  SITE_NAME : string;
  SITE_URL : string;
  STATIC_DIRECTORY : string;
  OUTPUT_DIRECTORY : string
}.

(** The [fields] of a page, which the template is filled with. *)
Record Fields : Type := {
  F_SITE_NAME : string;
  F_SITE_URL : string;
  PAGE_TITLE : string;
  PAGE_DESCRIPTION : string;
  NAV_HTML : string;
  HEADER_IMG_HTML : string;
  CONTENT_HTML : string;
  CHILDREN_HTML : string
}.

(** What the generator asks of the file system:
    - [WriteFile p s]: [p.open('w')] and [f.write(s)] (lines 306-307);
    - [MakeDir p]: [p.mkdir()] (line 349);
    - [CopyFile src dst]: [shutil.copy(src, dst)] (line 351);
    - [CopyTree src dst]: [shutil.copytree(src, dst, dirs_exist_ok=True)]
      (line 355). *)
Inductive fs_event : Type :=
  | WriteFile (p : path) (content : string)
  | MakeDir (p : path)
  | CopyFile (src dst : path)
  | CopyTree (src dst : string).

(** The file system the generator runs on: after the operations done so
    far, it takes the next one ([None]) or refuses it with an exception
    (no output directory to write in, a media directory that exists
    already, a file that cannot be read, ...). *)
Definition file_system : Type := list fs_event -> fs_event -> option exn.

(** What the generation changes: the navigation table, the file system
    (the operations done, in their order) and the lines the generator
    prints itself; what the Markdown conversion prints is not part of
    it. *)
Record gen_state : Type := {
  g_navigation : nav_table;
  g_events : list fs_event;
  g_stdout : list string
}.

Definition g_print (line : string) (g : gen_state) : gen_state :=
  {| g_navigation := g_navigation g;
     g_events := g_events g;
     g_stdout := g_stdout g ++ [line] |}.

Definition g_set_navigation (nav : nav_table) (g : gen_state) : gen_state :=
  {| g_navigation := nav; g_events := g_events g; g_stdout := g_stdout g |}.

(** One operation on the file system: done, or the exception raised. *)
Definition fs_do (fs : file_system) (ev : fs_event) (g : gen_state)
  : outcome gen_state :=
  match fs (g_events g) ev with
  | Some e => Raise e
  | None =>
      Return {| g_navigation := g_navigation g;
                g_events := g_events g ++ [ev];
                g_stdout := g_stdout g |}
  end.

(** [write_html]: the text goes to the file of that path under the
    output directory. *)
Definition write_html (fs : file_system) (site : Site) (html : string)
    (dst_path : path) (g : gen_state) : outcome gen_state :=
  let output_path := joinpath (parts_of (OUTPUT_DIRECTORY site)) dst_path in
  fs_do fs (WriteFile output_path html) g.

(** [l[0]] *)
Definition item0 (l : list string) : outcome string :=
  match l with
  | x :: _ => Return x
  | [] => Raise IndexError
  end.

(** A loop that collects results and threads the state. *)
Fixpoint for_each {A B S} (f : A -> S -> outcome (B * S)) (l : list A) (s : S)
  : outcome (list B * S) :=
  match l with
  | [] => Return ([], s)
  | a :: l' =>
      bind (f a s) (fun r =>
      bind (for_each f l' (snd r)) (fun rs =>
      Return (fst r :: fst rs, snd rs)))
  end.

Section Generate.

(** [list(rest)] in [reorder_children children meta], for the set
    [rest]: the order in which Python iterates over the set that the call
    builds from [children] and [meta['children']]. It depends on the
    hashes of the strings and on the order in which the two lists fill
    their sets, so the model takes it as given, call by call. *)
Variable order : list string -> list string -> gset string -> list string.

Variable fs : file_system.
Variable cfg : Config.
Variable site : Site.

(** The Markdown library with its extensions, on the file of a path:
    the HTML of the body and the metadata of the head ([md_parser.Meta]),
    or the exception that reading the file or the conversion ends in. *)
Variable convert : path -> outcome (string * gmap string (list string)).

(** [template.format] on the fields, for the template of the site. *)
Variable format : Fields -> outcome string.

Variable pgs : gmap string (option path * path).
Variable links : gmap string path.

(** Lines 250-261. *)
Definition header_img (meta : gmap string (list string)) : outcome string :=
  match meta !! "header" with
  | Some hs =>
      bind (item0 hs) (fun h =>
      bind (getitem links h) (fun hdst =>
      bind (match meta !! "header-caption" with
            | Some cs =>
                bind (item0 cs) (fun c =>
                Return ("<figcaption>" +:+ c +:+ "</figcaption>"))
            | None => Return ""
            end) (fun caption =>
      Return ("<img id=" +:+ DQ +:+ "header-img" +:+ DQ +:+ " src=" +:+ DQ +:+
              path_str hdst +:+ DQ +:+ ">" +:+ NL +:+ caption))))
  | None => Return ""
  end.

(** [meta[key][0]] when the metadata have the key, else [dflt]. *)
Definition meta_first (meta : gmap string (list string)) (key dflt : string)
  : outcome string :=
  match meta !! key with
  | Some vs => item0 vs
  | None => Return dflt
  end.

(** The children [make_navbar] finds for [nm] (line 139). *)
Definition children_at (nav : nav_table) (nm : string) : list string :=
  match nav !! nm with
  | Some entry => snd entry
  | None => []
  end.

(** [meta['children']] where [reorder_children] reads it. *)
Definition declared_children (meta : gmap string (list string)) : list string :=
  default [] (meta !! "children").

(** [fuel] bounds the depth of the recursion and the rounds of the loop
    over the ancestors in [make_navbar]. The two calls of
    [reorder_children], the one in [make_navbar] (line 161) and the one
    of line 272, each iterate over a set of their own. *)
Fixpoint generate_page (fuel : nat) (nm : string) (g : gen_state)
  : outcome (page_meta * gen_state) :=
  match fuel with
  | O => OutOfFuel
  | S fuel' =>
      let g := g_print ("Generating " +:+ nm) g in
      bind (getitem pgs nm) (fun page =>
      let markdown_path := fst page in
      bind (getitem links nm) (fun dst =>
      let title0 := if String.eqb (name dst) "index.html" then "home" else nm in
      bind (match markdown_path with
            | Some p => convert p
            | None => Return ("", ∅)
            end) (fun parsed =>
      let content_html := fst parsed in
      let meta := snd parsed in
      bind (header_img meta) (fun header_img_html =>
      bind (meta_first meta "title" title0) (fun title =>
      bind (make_navbar
              (order (children_at (g_navigation g) nm) (declared_children meta))
              fuel cfg nm meta (g_navigation g) links) (fun nb =>
      let nav_html := fst nb in
      let g := g_set_navigation (snd nb) g in
      bind (getitem (g_navigation g) nm) (fun entry =>
      let children :=
        reorder_children (order (snd entry) (declared_children meta))
          (snd entry) meta in
      bind (match children with
            | [] => Return ("", g)
            | _ =>
                bind (for_each (generate_page fuel') children g) (fun r =>
                bind (make_children_listing links (fst r)) (fun html =>
                Return (html, snd r)))
            end) (fun listed =>
      let children_html := fst listed in
      let g := snd listed in
      bind (meta_first meta "description" "") (fun description =>
      bind (format {| F_SITE_NAME := SITE_NAME site;
                      F_SITE_URL := SITE_URL site;
                      PAGE_TITLE := title;
                      PAGE_DESCRIPTION := description;
                      NAV_HTML := nav_html;
                      HEADER_IMG_HTML := header_img_html;
                      CONTENT_HTML := content_html;
                      CHILDREN_HTML := children_html |}) (fun res =>
      bind (write_html fs site res (snd page) g) (fun g =>
      bind (meta_first meta "header" "") (fun header =>
      Return ({| pm_name := nm; pm_title := title;
                 pm_description := description; pm_header := header |}, g)))))))))))))
  end.

End Generate.

(** ** Vocabulary of the statements about the generation *)

(** [k] is [a] or lies below it in the navigation table. *)
Definition below (nav : nav_table) (a k : string) : Prop :=
  exists m, climb nav m k = Some a.

(** Two navigation tables with the same keys under the same parents. *)
Definition same_parents (nav nav' : nav_table) : Prop :=
  forall k, fst <$> nav' !! k = fst <$> nav !! k.

(** Metadata the generation can use: no key with an empty list of
    values (the Markdown library gives none), a header image that the
    link table knows, no child declared twice. *)
Definition meta_ok (links : gmap string path) (meta : gmap string (list string))
  : Prop :=
  (forall key vs, meta !! key = Some vs -> vs <> []) /\
  (forall h rest, meta !! "header" = Some (h :: rest) -> is_Some (links !! h)) /\
  (forall declared, meta !! "children" = Some declared -> NoDup declared).

(** The file the page of a name is written to. *)
Definition output_file (site : Site) (pgs : gmap string (option path * path))
    (k : string) : path :=
  joinpath (parts_of (OUTPUT_DIRECTORY site))
    match (pgs !! k : option (option path * path)) with
    | Some page => snd page
    | None => []
    end.

(** The pages and the links know every name of the navigation table. *)
Definition covered (pgs : gmap string (option path * path))
    (links : gmap string path) (nav : nav_table) : Prop :=
  forall k, k <> "" -> is_Some (nav !! k) ->
            is_Some (pgs !! k) /\ is_Some (links !! k).

(** The operation is a write to the file of the page [k]. *)
Definition writes_page (site : Site) (pgs : gmap string (option path * path))
    (k : string) (ev : fs_event) : Prop :=
  exists html, ev = WriteFile (output_file site pgs k) html.

(** Between [g] and [g'] the file system saw one write for each page of
    [order], in that order, each to the file of its page, and nothing
    else; the pages were announced in the order [printed]. *)
Definition wrote (site : Site) (pgs : gmap string (option path * path))
    (g g' : gen_state) (order printed : list string) : Prop :=
  (exists news, g_events g' = g_events g ++ news /\
                Forall2 (writes_page site pgs) order news) /\
  g_stdout g' = g_stdout g ++ map (fun k => "Generating " +:+ k) printed.

(** What a call of [generate_page] for [nm] from the state [g] ends in:
    the metadata of [nm], with keys the listing of its parent can look
    up; a navigation table that is still a tree, with the same keys and
    parents; and one write for each page below [nm]. *)
Definition generated (site : Site) (pgs : gmap string (option path * path))
    (links : gmap string path) (nm : string) (g : gen_state)
    (res : page_meta * gen_state) : Prop :=
  pm_name (fst res) = nm /\
  (forall k, k ∈ listing_keys (fst res) -> is_Some (links !! k)) /\
  nav_tree (g_navigation (snd res)) /\
  same_parents (g_navigation g) (g_navigation (snd res)) /\
  exists order printed,
    wrote site pgs g (snd res) order printed /\
    printed ≡ₚ order /\
    NoDup order /\
    forall k, k ∈ order <-> below (g_navigation g) nm k.

(** ** generator.py: main *)

(** [str(n)] *)
Definition str_nat (n : nat) : string := NilEmpty.string_of_uint (Nat.to_uint n).

(** A dict keeps its keys in the order of their first insertion. *)
Definition dict_key (k : string) (keys : list string) : list string :=
  if bool_decide (k ∈ keys) then keys else keys ++ [k].

(** The keys of [pages] in the order of the dict: the walker's loop
    (lines 46-87) with the insertions of lines 61 and 87 only. *)
Fixpoint page_keys (items : list (path * node)) (keys : list string) : list string :=
  match items with
  | [] => keys
  | it :: rest =>
      let item := fst it in
      page_keys rest
        (if hidden item then keys
         else match snd it with
              | File =>
                  if String.eqb (suffix item) ".md" then
                    if String.eqb (stem item) (stem (parent item)) then keys
                    else dict_key (stem item) keys
                  else keys
              | Dir _ => dict_key (stem item) keys
              end)
  end.

(** Line 339: the names whose output file has the stem [index]. *)
Definition root_pages (pgs : gmap string (option path * path))
    (keys : list string) : list string :=
  List.filter (fun nm =>
                 match (pgs !! nm : option (option path * path)) with
                 | Some page => String.eqb (stem (snd page)) "index"
                 | None => false
                 end) keys.

Section Main.

Variable order : list string -> list string -> gset string -> list string.
Variable fs : file_system.
Variable cfg : Config.
Variable site : Site.

(** The Markdown parser that line 329 builds for a link table, on the
    file of a path. *)
Variable markdown : gmap string path ->
                    path -> outcome (string * gmap string (list string)).

(** Lines 336-337: the text of the template file, or the exception that
    opening or reading it raises. *)
Variable read_template : outcome string.

(** [template.format] on the fields. *)
Variable format : string -> Fields -> outcome string.

(** Lines 350-351: the media files are copied in the order of the list. *)
Fixpoint copy_media (med : list (path * path)) (g : gen_state) : outcome gen_state :=
  match med with
  | [] => Return g
  | m :: rest =>
      bind (fs_do fs (CopyFile (fst m)
                        (joinpath (parts_of (OUTPUT_DIRECTORY site)) (snd m))) g)
           (copy_media rest)
  end.

(** The lines printed before the first page is generated. *)
Definition preamble (st : walk_state) : list string :=
  ["Parsing input directory...";
   "Found " +:+ str_nat (size (pages st)) +:+ " pages to generate," +:+
   " and " +:+ str_nat (length (media st)) +:+ " non-markdown files to copy";
   "";
   "Generating pages..."].

(** [main] for the input directory of the path [input_path], which holds
    [tree]: the state the run ends in, or the exception that ends it. *)
Definition main (fuel : nat) (input_path : path) (tree : node) : outcome gen_state :=
  bind (parse_input_directory cfg input_path tree) (fun st =>
  let links := make_links (pages st) (media st) in
  bind read_template (fun template =>
  bind (match root_pages (pages st) (page_keys (scan input_path tree) []) with
        | root_page :: _ => Return root_page
        | [] => Raise IndexError
        end) (fun root_page =>
  let g := {| g_navigation := navigation st;
              g_events := [];
              g_stdout := preamble st |} in
  bind (generate_page order fs cfg site (markdown links) (format template)
          (pages st) links fuel root_page g) (fun r =>
  let g := g_print "Copying media files" (g_print "" (snd r)) in
  let output_media_dir :=
    joinpath (parts_of (OUTPUT_DIRECTORY site)) (parts_of (MEDIA_DIRECTORY cfg)) in
  bind (fs_do fs (MakeDir output_media_dir) g) (fun g =>
  bind (copy_media (media st) g) (fun g =>
  let g := g_print "Copying static files" (g_print "" g) in
  bind (fs_do fs (CopyTree (STATIC_DIRECTORY site) (OUTPUT_DIRECTORY site)) g) (fun g =>
  Return (g_print "Done." g)))))))).

End Main.

(** A site to run the generation on: every page converts to an empty
    body without metadata, the template is the content alone, and the
    file system takes every operation. *)
Definition site0 : Site :=
  {| SITE_NAME := "potoo"; SITE_URL := "https://example.org";
     STATIC_DIRECTORY := "static"; OUTPUT_DIRECTORY := "output" |}.

Definition convert0 (p : path) : outcome (string * gmap string (list string)) :=
  Return ("", ∅).

Definition format0 (f : Fields) : outcome string := Return (CONTENT_HTML f).

(** An order of iteration that differs from call to call: the elements
    forwards or backwards, by the number of children the set was built
    from. *)
Definition set_iter_split (children declared : list string) (s : gset string)
  : list string :=
  if Nat.even (length children) then elements s else reverse (elements s).

Definition fs_ok : file_system := fun _ _ => None.

(** A file system on which a directory cannot be made twice: the second
    run of the generator on one output directory finds the media
    directory of the first. *)
Definition fs_second_run : file_system :=
  fun _ ev =>
    match ev with
    | MakeDir _ => Some (OSError "FileExistsError")
    | _ => None
    end.

Definition g_start (st : walk_state) : gen_state :=
  {| g_navigation := navigation st; g_events := []; g_stdout := [] |}.

(** ** Vocabulary: a document whose targets all resolve *)

(** The element has the attribute, and its value is an outer address or
    a key of the link table. *)
Definition target_known (links : gmap string path) (attr : string) (e : Element)
  : bool :=
  match attrib e !! attr with
  | Some url =>
      startswith "http" url ||
      match links !! url with Some _ => true | None => false end
  | None => false
  end.

(** An element the processor looks at when it meets it among the
    children of a parent. *)
Definition is_linking (e : Element) : bool :=
  String.eqb (tag e) "a" || String.eqb (tag e) "img" || String.eqb (tag e) "video".

(** A child the processor can resolve: an anchor or an image with a
    known target, a video whose children all have a known source and are
    no anchors, images or videos themselves. *)
Definition resolves (links : gmap string path) (c : Element) : bool :=
  if String.eqb (tag c) "a" then target_known links "href" c
  else if String.eqb (tag c) "img" then target_known links "src" c
  else if String.eqb (tag c) "video" then
    forallb (fun s => target_known links "src" s && negb (is_linking s)) (elems c)
  else true.

Fixpoint all_resolve (links : gmap string path) (e : Element) : bool :=
  match e with
  | mkElement _ _ _ _ es =>
      forallb (fun c => resolves links c && all_resolve links c) es
  end.

(** The attribute with the final path in place of a local target. *)
Definition translate (links : gmap string path) (attr : string) (e : Element)
  : Element :=
  match attrib e !! attr with
  | Some url =>
      if startswith "http" url then e
      else match links !! url with
           | Some dst => set_attrib attr (path_str dst) e
           | None => e
           end
  | None => e
  end.

(** A child with its targets resolved: an outgoing anchor gets its
    class, a local anchor or image its final path, a video the final
    paths of its sources. *)
Definition resolve_child (links : gmap string path) (c : Element) : Element :=
  if String.eqb (tag c) "a" then
    match attrib c !! "href" with
    | Some href =>
        if startswith "http" href then set_attrib "class" "outgoing" c
        else translate links "href" c
    | None => c
    end
  else if String.eqb (tag c) "img" then translate links "src" c
  else if String.eqb (tag c) "video" then
    set_elems (map (translate links "src") (elems c)) c
  else c.

(** The document with every target resolved, and nothing else changed. *)
Fixpoint resolved (links : gmap string path) (e : Element) : Element :=
  match e with
  | mkElement t a x tl es =>
      mkElement t a x tl (map (fun c => resolve_child links (resolved links c)) es)
  end.

(** A paragraph with a link to a page, a link to another site, an image
    and a video, all known to [links_media]. *)
Definition links_media : gmap string path :=
  <[ "clip.mp4" := ["media"; "clip.mp4"] ]>
  (<[ "x.png" := ["media"; "x.png"] ]> links_alpha).

Definition p_resolvable : Element :=
  mkElement "p" ∅ (Some "see ") None
    [mkElement "a" {[ "href" := "Alpha" ]} (Some "Alpha") (Some " and ") [];
     mkElement "a" {[ "href" := "https://example.org" ]} (Some "there") None
       [mkElement "img" {[ "src" := "x.png" ]} None None []];
     mkElement "video" {[ "controls" := "" ]} None None
       [mkElement "source" (<[ "type" := "video/mp4" ]> {[ "src" := "clip.mp4" ]})
          None None []]].

(** ** Vocabulary: a document the lenient run can work through *)

Definition has_attr (attr : string) (e : Element) : bool :=
  match attrib e !! attr with Some _ => true | None => false end.

Definition has_text (e : Element) : bool :=
  match text e with Some _ => true | None => false end.

(** The attribute holds a local target that the link table lacks. *)
Definition unresolved (links : gmap string path) (attr : string) (e : Element)
  : bool :=
  match attrib e !! attr with
  | Some url =>
      negb (startswith "http" url) &&
      match links !! url with Some _ => false | None => true end
  | None => false
  end.

(** A child the loop can handle: an anchor has its href, and a text of
    its own when the link is to be removed; an image has its src; the
    children of a video have their src, and at most one of them is
    unresolved. *)
Definition sound_child (links : gmap string path) (c : Element) : bool :=
  if String.eqb (tag c) "a" then
    has_attr "href" c && (negb (unresolved links "href" c) || has_text c)
  else if String.eqb (tag c) "img" then has_attr "src" c
  else if String.eqb (tag c) "video" then
    forallb (has_attr "src") (elems c) &&
    Nat.leb (length (List.filter (unresolved links "src") (elems c))) 1
  else true.

Fixpoint sound (links : gmap string path) (e : Element) : bool :=
  match e with
  | mkElement _ _ _ _ es =>
      forallb (fun c => sound_child links c && sound links c) es
  end.

(** A computation that raises nothing: it ends in a value with property
    [P], unless the bound of the model cuts it short. *)
Definition safe_with {A} (o : outcome A) (P : A -> Prop) : Prop :=
  match o with
  | Return a => P a
  | Raise _ => False
  | OutOfFuel => True
  end.

Definition safe_M {A} (m : M A) (P : A -> Prop) : Prop :=
  forall w, safe_with (m w) (fun r => P (fst r)).

(** The children before [idx] are done with, those from [idx] on are
    still to be looked at. *)
Definition loop_inv (links : gmap string path) (es : list Element) (idx : nat)
  : Prop :=
  Forall (fun c => sound links c = true) (take idx es) /\
  Forall (fun c => sound_child links c = true /\ sound links c = true) (drop idx es).
Lemma urlize_string_map text : urlize text = string_map urlize_char text.
Proof.
  unfold urlize, lower.
  induction text as [|c s IH]; simpl; [reflexivity|].
  rewrite IH. unfold urlize_char.
  destruct (CHAR_WHITELIST (lower_char c)); reflexivity.
Qed.

Lemma urlize_char_idem c : urlize_char (urlize_char c) = urlize_char c.
Proof. destruct c as [[] [] [] [] [] [] [] []]; reflexivity. Qed.

Lemma urlize_char_whitelisted c : CHAR_WHITELIST (urlize_char c) = true.
Proof. destruct c as [[] [] [] [] [] [] [] []]; reflexivity. Qed.

Lemma string_map_length f s : String.length (string_map f s) = String.length s.
Proof. induction s; simpl; congruence. Qed.

Lemma string_map_get f s i :
  String.get i (string_map f s) = f <$> String.get i s.
Proof.
  revert i; induction s as [|c s IH]; intros [|i]; simpl; auto.
Qed.

(** C8. [urlize] is a function of its argument alone, defined on every
    string: it is idempotent, keeps the length, puts at every position the
    lower-cased character when the whitelist has it and an underscore
    otherwise, leaves only whitelisted characters, and maps
    "My Note!" to "my_note_". *)
Theorem urlize_idempotent_total :
  (forall x, urlize (urlize x) = urlize x) /\
  (forall x, String.length (urlize x) = String.length x) /\
  (forall x i,
      String.get i (urlize x) =
      (fun c => if CHAR_WHITELIST c then c else "_"%char) <$> String.get i (lower x)) /\
  (forall x i c, String.get i (urlize x) = Some c -> CHAR_WHITELIST c = true) /\
  urlize "My Note!" = "my_note_".
Proof.
  repeat split.
  - intros x. rewrite !urlize_string_map.
    induction x as [|c s IH]; simpl; [reflexivity|].
    rewrite urlize_char_idem, IH. reflexivity.
  - intros x. rewrite urlize_string_map. apply string_map_length.
  - intros x i. rewrite urlize_string_map. unfold lower.
    rewrite !string_map_get.
    destruct (String.get i x); reflexivity.
  - intros x i c. rewrite urlize_string_map, string_map_get.
    destruct (String.get i x) as [a|]; simpl; [|discriminate].
    intros [= <-]. apply urlize_char_whitelisted.
Qed.


(** Whatever the alphabet and however strings are lower-cased there, as
    long as the underscore is whitelisted and lower-casing leaves a string
    of whitelisted characters alone: sanitizing twice is sanitizing once.
    So the idempotence does not hang on how [str.lower] treats the
    characters outside the whitelist. *)
Theorem urlize_any_idempotent {A} (whitelisted : A -> bool) (underscore : A)
    (lower_any : list A -> list A) (text : list A) :
  whitelisted underscore = true ->
  (forall s, forallb whitelisted s = true -> lower_any s = s) ->
  urlize_any whitelisted underscore lower_any
    (urlize_any whitelisted underscore lower_any text)
  = urlize_any whitelisted underscore lower_any text.
Proof.
  intros Hu Hlow.
  assert (Hall : forall s,
            forallb whitelisted
              (map (fun c => if whitelisted c then c else underscore) s) = true).
  { induction s as [|c s IH]; simpl; [reflexivity|].
    rewrite IH, andb_true_r. destruct (whitelisted c) eqn:E; [exact E|exact Hu]. }
  assert (Hid : forall s, forallb whitelisted s = true ->
            map (fun c => if whitelisted c then c else underscore) s = s).
  { induction s as [|c s IH]; simpl; [reflexivity|].
    intros H. apply andb_prop in H. destruct H as [-> H]. rewrite IH by exact H.
    reflexivity. }
  unfold urlize_any. rewrite (Hlow _ (Hall _)). apply Hid, Hall.
Qed.

Lemma lower_char_whitelisted c : CHAR_WHITELIST c = true -> lower_char c = c.
Proof. destruct c as [[] [] [] [] [] [] [] []]; intros H; try discriminate; reflexivity. Qed.

Lemma urlize_as_urlize_any text :
  list_ascii_of_string (urlize text) =
  urlize_any CHAR_WHITELIST "_"%char (map lower_char) (list_ascii_of_string text).
Proof.
  rewrite urlize_string_map. unfold urlize_any, urlize_char.
  induction text as [|c s IH]; simpl; [reflexivity|]. rewrite IH. reflexivity.
Qed.

Lemma urlize_any_idempotent_witness :
  urlize_any CHAR_WHITELIST "_"%char (map lower_char)
    (urlize_any CHAR_WHITELIST "_"%char (map lower_char)
       (list_ascii_of_string "My Note!"))
  = urlize_any CHAR_WHITELIST "_"%char (map lower_char)
      (list_ascii_of_string "My Note!").
Proof.
  apply (urlize_any_idempotent CHAR_WHITELIST "_"%char (map lower_char)).
  - reflexivity.
  - induction s as [|c s IH]; simpl; [reflexivity|].
    intros H. apply andb_prop in H. destruct H as [Hc Hs].
    rewrite (lower_char_whitelisted c Hc), (IH Hs). reflexivity.
Defined.

(** ** reorder_children *)

Section ReorderChildren.

Variable set_iter : gset string -> list string.
Hypothesis set_iter_elements : forall s, set_iter s ≡ₚ elements s.

Lemma set_iter_NoDup s : NoDup (set_iter s).
Proof. rewrite set_iter_elements. apply NoDup_elements. Qed.

Lemma elem_of_set_iter s x : x ∈ set_iter s <-> x ∈ s.
Proof. rewrite set_iter_elements. apply elem_of_elements. Qed.

Lemma reorder_children_unfold children meta declared :
  meta !! "children" = Some declared ->
  reorder_children set_iter children meta =
  filter (fun c => c ∈ children) declared ++
  set_iter (list_to_set children ∖ list_to_set declared).
Proof. intros H. unfold reorder_children. rewrite H. reflexivity. Qed.

Lemma reorder_children_elem children meta declared c :
  meta !! "children" = Some declared ->
  c ∈ reorder_children set_iter children meta <-> c ∈ children.
Proof.
  intros H. rewrite (reorder_children_unfold _ _ _ H).
  rewrite elem_of_app, list_elem_of_filter, elem_of_set_iter.
  rewrite elem_of_difference, !elem_of_list_to_set.
  destruct (decide (c ∈ declared)); tauto.
Qed.

Lemma reorder_children_NoDup children meta declared :
  meta !! "children" = Some declared ->
  NoDup declared ->
  NoDup (reorder_children set_iter children meta).
Proof.
  intros H Hnd. rewrite (reorder_children_unfold _ _ _ H).
  apply NoDup_app. split; [|split].
  - by apply NoDup_filter.
  - intros c Hc. rewrite elem_of_set_iter, elem_of_difference, elem_of_list_to_set.
    apply list_elem_of_filter in Hc. intros [_ Hn]. apply Hn. apply elem_of_list_to_set, Hc.
  - apply set_iter_NoDup.
Qed.

End ReorderChildren.

(** C1, as stated, fails twice. A child declared twice is listed twice,
    whatever the iteration order of the set of the others; and the
    children the metadata does not declare come in that iteration order,
    which need not be the scan order: of the two orders [elements] and
    [set_iter_backwards], one does not give the specified list. *)
Lemma reorder_children_duplicates_and_order :
  (forall set_iter : gset string -> list string,
      (forall s, set_iter s ≡ₚ elements s) ->
      reorder_children set_iter ["a"; "b"] {[ "children" := ["a"; "a"] ]}
      = ["a"; "a"; "b"]) /\
  ~ NoDup ["a"; "a"; "b"] /\
  (exists set_iter : gset string -> list string,
      (forall s, set_iter s ≡ₚ elements s) /\
      reorder_children set_iter ["a"; "b"; "c"] {[ "children" := ["c"] ]}
      <> reorder_as_specified ["c"] ["a"; "b"; "c"]).
Proof.
  split; [|split].
  - intros set_iter Hperm.
    rewrite (reorder_children_unfold set_iter _ _ ["a"; "a"]) by reflexivity.
    assert (Hrest : set_iter (list_to_set ["a"; "b"] ∖ list_to_set ["a"; "a"]) = ["b"]).
    { apply Permutation_singleton_r. rewrite Hperm.
      assert (E : elements (list_to_set ["a"; "b"] ∖ list_to_set ["a"; "a"] : gset string)
                  = ["b"]) by (vm_compute; reflexivity).
      rewrite E. reflexivity. }
    rewrite Hrest. reflexivity.
  - rewrite NoDup_cons. intros [Hin _]. apply Hin. left.
  - destruct (decide (elements (list_to_set ["a"; "b"; "c"] ∖ list_to_set ["c"] : gset string)
                      = ["a"; "b"])) as [Heq|Hne].
    + exists set_iter_backwards. split.
      * intros s. unfold set_iter_backwards. apply reverse_Permutation.
      * rewrite (reorder_children_unfold _ _ _ ["c"]) by reflexivity.
        unfold set_iter_backwards. rewrite Heq. vm_compute. discriminate.
    + exists elements. split; [reflexivity|].
      rewrite (reorder_children_unfold _ _ _ ["c"]) by reflexivity.
      intros H. apply Hne.
      change (reorder_as_specified ["c"] ["a"; "b"; "c"]) with (["c"] ++ ["a"; "b"]) in H.
      change (filter (fun c => c ∈ ["a"; "b"; "c"]) ["c"]) with ["c"] in H.
      by apply app_inv_head in H.
Qed.

(** C1, amended. With an explicit children list in the metadata the
    result is the declared children that are actual children, in declared
    order and as often as declared, followed by the other actual children,
    each once, in the iteration order of their set. No child is dropped,
    none is invented, a declared list without duplicates gives a result
    without duplicates, and declared [c, a] with actual [a, b, c] gives
    [c, a, b]. *)
Theorem reorder_children_declared_then_rest
    (set_iter : gset string -> list string)
    (children declared : list string) (meta : gmap string (list string)) :
  (forall s, set_iter s ≡ₚ elements s) ->
  meta !! "children" = Some declared ->
  exists rest,
    reorder_children set_iter children meta =
      filter (fun c => c ∈ children) declared ++ rest /\
    rest ≡ₚ remove_dups (filter (fun c => c ∉ declared) children) /\
    NoDup rest /\
    (forall c, c ∈ children <-> c ∈ reorder_children set_iter children meta) /\
    (NoDup declared -> NoDup (reorder_children set_iter children meta)) /\
    (declared = ["c"; "a"] -> children = ["a"; "b"; "c"] ->
     reorder_children set_iter children meta = ["c"; "a"; "b"]).
Proof.
  intros Hperm Hmeta.
  exists (set_iter (list_to_set children ∖ list_to_set declared)).
  assert (Hrest : set_iter (list_to_set children ∖ list_to_set declared)
                  ≡ₚ remove_dups (filter (fun c => c ∉ declared) children)).
  { apply NoDup_Permutation.
    - by apply set_iter_NoDup.
    - apply NoDup_remove_dups.
    - intros c. rewrite (elem_of_set_iter _ Hperm), elem_of_remove_dups.
      rewrite list_elem_of_filter, elem_of_difference, !elem_of_list_to_set. tauto. }
  split; [by apply reorder_children_unfold|].
  split; [exact Hrest|].
  split; [by apply set_iter_NoDup|].
  split; [intros c; symmetry; by eapply reorder_children_elem|].
  split; [by eapply reorder_children_NoDup|].
  intros -> ->.
  rewrite (reorder_children_unfold _ _ _ _ Hmeta).
  assert (E : set_iter (list_to_set ["a"; "b"; "c"] ∖ list_to_set ["c"; "a"]) = ["b"]).
  { apply Permutation_singleton_r. rewrite Hrest. vm_compute. reflexivity. }
  rewrite E. reflexivity.
Qed.

Lemma reorder_children_declared_then_rest_witness :
  exists rest,
    reorder_children elements ["a"; "b"; "c"] {[ "children" := ["c"; "a"] ]} =
      filter (fun c => c ∈ ["a"; "b"; "c"]) ["c"; "a"] ++ rest /\
    rest ≡ₚ remove_dups (filter (fun c => c ∉ ["c"; "a"]) ["a"; "b"; "c"]) /\
    NoDup rest /\
    (forall c, c ∈ ["a"; "b"; "c"] <->
               c ∈ reorder_children elements ["a"; "b"; "c"] {[ "children" := ["c"; "a"] ]}) /\
    (NoDup ["c"; "a"] ->
     NoDup (reorder_children elements ["a"; "b"; "c"] {[ "children" := ["c"; "a"] ]})) /\
    (["c"; "a"] = ["c"; "a"] -> ["a"; "b"; "c"] = ["a"; "b"; "c"] ->
     reorder_children elements ["a"; "b"; "c"] {[ "children" := ["c"; "a"] ]}
     = ["c"; "a"; "b"]).
Proof.
  apply (reorder_children_declared_then_rest elements ["a"; "b"; "c"] ["c"; "a"]
           {[ "children" := ["c"; "a"] ]}).
  - intros s. reflexivity.
  - reflexivity.
Defined.

(** ** The directory walker *)

Lemma node_ind' (P : node -> Prop) :
  P File ->
  (forall es, Forall (fun e => P (snd e)) es -> P (Dir es)) ->
  forall n, P n.
Proof.
  intros HF HD. fix IH 1. intros [|es].
  - exact HF.
  - apply HD. induction es as [|e es IHes]; constructor.
    + apply IH.
    + exact IHes.
Qed.

Lemma parents_first_mono items : forall K K',
  (forall q, q ∈ K -> q ∈ K') -> parents_first K items -> parents_first K' items.
Proof.
  induction items as [|it rest IH]; intros K K' Hsub; simpl; [trivial|].
  intros [(q & nm & Hq & Hin) Hrest]. split.
  - exists q, nm. auto.
  - eapply IH; [|exact Hrest].
    destruct (is_dir it); [|exact Hsub].
    intros q'. rewrite !elem_of_cons. intros [->|H]; auto.
Qed.

Lemma grow_cons K it a :
  grow K (it :: a) = grow (if is_dir it then fst it :: K else K) a.
Proof.
  unfold grow. simpl. destruct (is_dir it); [|reflexivity].
  simpl. rewrite <- app_assoc. reflexivity.
Qed.

Lemma parents_first_app a : forall K b,
  parents_first K (a ++ b) <-> parents_first K a /\ parents_first (grow K a) b.
Proof.
  induction a as [|it a IH]; intros K b; simpl.
  - unfold grow. simpl. tauto.
  - rewrite IH, grow_cons. tauto.
Qed.

Lemma elem_of_grow K a q :
  q ∈ grow K a <-> q ∈ K \/ exists it, it ∈ a /\ is_dir it = true /\ fst it = q.
Proof.
  unfold grow. rewrite elem_of_app.
  rewrite (list_elem_of_In (rev _)), <- in_rev, <- list_elem_of_In, list_elem_of_fmap.
  split.
  - intros [(it & -> & Hit)|H]; [|tauto].
    apply list_elem_of_In, filter_In in Hit. destruct Hit as [Hit Hd].
    right. exists it. rewrite list_elem_of_In. auto.
  - intros [H|(it & Hit & Hd & <-)]; [tauto|].
    left. exists it. split; [reflexivity|].
    apply list_elem_of_In, filter_In. rewrite <- list_elem_of_In. auto.
Qed.

Lemma parents_first_children q es : forall K,
  q ∈ K -> parents_first K (map (fun e => (q ++ [fst e], snd e)) es).
Proof.
  induction es as [|e es IH]; intros K Hq; simpl; [trivial|].
  split.
  - exists q, (fst e). auto.
  - apply IH. destruct (is_dir _); [right|]; exact Hq.
Qed.

Lemma parents_first_glob t : forall q K,
  (forall es, t = Dir es -> q ∈ K) -> parents_first K (glob_rec q t).
Proof.
  induction t as [|es IHes] using node_ind'; intros q K Hq; simpl; [trivial|].
  apply parents_first_app. split.
  - apply parents_first_children. eapply Hq. reflexivity.
  - assert (Hk : forall e, e ∈ es -> is_dir (q ++ [fst e], snd e) = true ->
                 q ++ [fst e] ∈ grow K (map (fun e => (q ++ [fst e], snd e)) es)).
    { intros e He Hd. apply elem_of_grow. right.
      exists (q ++ [fst e], snd e). split; [|auto].
      apply list_elem_of_fmap. exists e. auto. }
    revert Hk. generalize (grow K (map (fun e => (q ++ [fst e], snd e)) es)).
    clear Hq. induction IHes as [|e es He _ IH]; intros K' Hk; simpl; [trivial|].
    apply parents_first_app. split.
    + apply He. intros es' Hes'. apply Hk; [left|].
      unfold is_dir. simpl. rewrite Hes'. reflexivity.
    + apply IH. intros e' He' Hd. apply elem_of_grow. left.
      apply Hk; [right; exact He'|exact Hd].
Qed.

Lemma parents_first_scan root tree : parents_first [[]] (scan [root] tree).
Proof.
  unfold scan. simpl. split.
  - exists [], root. split; [reflexivity|left].
  - apply parents_first_glob. intros es ->. left.
Qed.

Lemma walk_item_cases cfg st it :
  walk_item cfg st it =
  if is_entry it
  then register (fst it) (set_page (stem (fst it)) (page_value it) st)
  else if visible it && is_media it
       then Return (add_media (fst it, media_dst cfg (fst it)) st)
       else Return st.
Proof.
  destruct it as [p n].
  unfold walk_item, is_entry, visible, is_dir, is_page_file, is_markdown,
    is_media, page_value. simpl.
  destruct (hidden p); simpl; [reflexivity|].
  destruct n; simpl; [|reflexivity].
  destruct (String.eqb (suffix p) ".md"); simpl; [|reflexivity].
  destruct (String.eqb (stem p) (stem (parent p))); reflexivity.
Qed.

Lemma nav_add_lookup nav k pk gp cs j :
  nav_add nav k pk gp cs !! j =
  if decide (j = k) then Some (Some pk, [])
  else if decide (j = pk) then Some (gp, cs ++ [k])
  else nav !! j.
Proof.
  unfold nav_add. destruct (decide (j = k)) as [->|Hk].
  - apply lookup_insert_eq.
  - rewrite lookup_insert_ne by congruence.
    destruct (decide (j = pk)) as [->|Hp].
    + apply lookup_insert_eq.
    + apply lookup_insert_ne. congruence.
Qed.

Lemma register_Return item st st' :
  register item st = Return st' ->
  exists gp cs,
    navigation st !! stem (parent item) = Some (gp, cs) /\
    navigation st !! stem item = None /\
    navigation st' = nav_add (navigation st) (stem item) (stem (parent item)) gp cs /\
    pages st' = pages st /\ media st' = media st.
Proof.
  unfold register.
  destruct (navigation st !! stem (parent item)) as [[gp cs]|] eqn:Hp; [|discriminate].
  destruct (<[_ := _]> (navigation st) !! stem item) eqn:Hk; [discriminate|].
  intros [= <-]. exists gp, cs. simpl.
  apply lookup_insert_None in Hk. destruct Hk as [Hk _]. auto.
Qed.

Lemma register_fresh item st gp cs :
  navigation st !! stem (parent item) = Some (gp, cs) ->
  navigation st !! stem item = None ->
  register item st =
  Return {| pages := pages st;
            navigation := nav_add (navigation st) (stem item) (stem (parent item)) gp cs;
            media := media st |}.
Proof.
  intros Hp Hk. unfold register. rewrite Hp.
  rewrite lookup_insert_ne by congruence. rewrite Hk. reflexivity.
Qed.

Lemma register_taken item st :
  is_Some (navigation st !! stem (parent item)) ->
  is_Some (navigation st !! stem item) ->
  register item st = Raise (SameNameError (stem item)).
Proof.
  intros [[gp cs] Hp] Hk. unfold register. rewrite Hp.
  assert (H : is_Some (<[stem (parent item) := (gp, cs ++ [stem item])]>
                         (navigation st) !! stem item)).
  { apply lookup_insert_is_Some'. auto. }
  destruct H as [v ->]. reflexivity.
Qed.

Lemma walk_item_Return cfg st it st' :
  walk_item cfg st it = Return st' ->
  (is_entry it = true /\
   exists gp cs,
     navigation st !! stem (parent (fst it)) = Some (gp, cs) /\
     navigation st !! stem (fst it) = None /\
     navigation st' =
       nav_add (navigation st) (stem (fst it)) (stem (parent (fst it))) gp cs /\
     pages st' = <[stem (fst it) := page_value it]> (pages st) /\
     media st' = media st) \/
  (is_entry it = false /\
   navigation st' = navigation st /\ pages st' = pages st /\
   media st' = media st ++
     (if visible it && is_media it then [(fst it, media_dst cfg (fst it))] else [])).
Proof.
  rewrite walk_item_cases. destruct (is_entry it).
  - intros H. left. split; [reflexivity|].
    apply register_Return in H. destruct H as (gp & cs & Hp & Hk & Hn & Hpg & Hm).
    exists gp, cs. simpl in *. auto.
  - right. split; [reflexivity|].
    destruct (visible it && is_media it); injection H as <-; simpl;
      rewrite ?app_nil_r; auto.
Qed.

Lemma walk_app cfg a : forall b st,
  walk cfg (a ++ b) st = bind (walk cfg a st) (walk cfg b).
Proof.
  induction a as [|it a IH]; intros b st; simpl; [reflexivity|].
  destruct (walk_item cfg st it); simpl; auto.
Qed.

Lemma hidden_app p q : hidden (p ++ q) = hidden p || hidden q.
Proof. unfold hidden. apply existsb_app. Qed.

Lemma parent_snoc q nm : stem (parent (q ++ [nm])) = stem q.
Proof.
  destruct q as [|a q].
  - unfold parent, stem, name. simpl. destruct (is_anchor nm) eqn:E; [|reflexivity].
    rewrite E. reflexivity.
  - replace (parent ((a :: q) ++ [nm])) with (a :: q); [reflexivity|].
    unfold parent. rewrite removelast_last.
    destruct q; reflexivity.
Qed.

Lemma walk_item_known cfg K st it st' :
  known_in K (navigation st) ->
  walk_item cfg st it = Return st' ->
  known_in (if is_dir it then fst it :: K else K) (navigation st').
Proof.
  intros HK H. apply walk_item_Return in H.
  destruct H as [(He & gp & cs & Hp & Hk & Hn & _)|(He & Hn & _)].
  - assert (Hold : forall q, q ∈ K -> hidden q = false ->
                   is_Some (navigation st' !! stem q)).
    { intros q Hq Hh. destruct (HK q Hq Hh) as [v Hv].
      rewrite Hn, nav_add_lookup. repeat case_decide; eauto. }
    destruct (is_dir it); [|exact Hold].
    intros q. rewrite elem_of_cons. intros [->|Hq] Hh; [|auto].
    rewrite Hn, nav_add_lookup. rewrite decide_True by reflexivity. eauto.
  - rewrite Hn. destruct (is_dir it) eqn:Hd; [|exact HK].
    intros q. rewrite elem_of_cons. intros [->|Hq] Hh; [|auto].
    unfold is_entry, visible in He. rewrite Hh, Hd in He. discriminate.
Qed.

Lemma walk_known cfg items : forall K st st',
  known_in K (navigation st) ->
  walk cfg items st = Return st' ->
  known_in (grow K items) (navigation st').
Proof.
  induction items as [|it items IH]; intros K st st' HK; simpl.
  - intros [= <-]. exact HK.
  - destruct (walk_item cfg st it) as [st1| |] eqn:H1; simpl; try discriminate.
    intros H. rewrite grow_cons. eapply IH; [|exact H].
    eapply walk_item_known; eauto.
Qed.

Lemma known_in_init : known_in [[]] (navigation walk_init).
Proof.
  intros q. rewrite list_elem_of_singleton. intros -> _.
  exists (None, []). reflexivity.
Qed.

(** The parent of a visible item of a scan has its node when the walk
    reaches the item. *)
Lemma walk_parent_known cfg root tree pre it post st :
  scan [root] tree = pre ++ it :: post ->
  walk cfg pre walk_init = Return st ->
  visible it = true ->
  is_Some (navigation st !! stem (parent (fst it))).
Proof.
  intros Hscan Hpre Hvis.
  pose proof (parents_first_scan root tree) as HPF.
  rewrite Hscan in HPF. apply parents_first_app in HPF.
  destruct HPF as [_ [(q & nm & Hq & Hin) _]].
  rewrite Hq, parent_snoc.
  eapply walk_known; [apply known_in_init|exact Hpre|exact Hin|].
  unfold visible in Hvis. rewrite Hq, hidden_app in Hvis.
  destruct (hidden q); [discriminate|reflexivity].
Qed.

(** C2, amended. For an input directory whose path has one part,
    whatever the tree and wherever the entry lies in it: when the walk
    has come through the items before an entry (a directory or a markdown
    page that is no description file, on a path without a hidden part)
    and the navigation table already holds the entry's name, the walker
    raises [SameNameError] with that name. *)
Theorem walker_raises_SameNameError cfg root tree pre it post st :
  parts_of root = [root] ->
  scan [root] tree = pre ++ it :: post ->
  walk cfg pre walk_init = Return st ->
  is_entry it = true ->
  is_Some (navigation st !! stem (fst it)) ->
  parse_input_directory cfg [root] tree = Raise (SameNameError (stem (fst it))).
Proof.
  intros _ Hscan Hpre He Hk.
  unfold parse_input_directory. rewrite Hscan, walk_app, Hpre. simpl.
  rewrite walk_item_cases, He.
  rewrite register_taken; [reflexivity| |exact Hk].
  simpl. eapply walk_parent_known; eauto.
  unfold is_entry in He. destruct (visible it); [reflexivity|discriminate].
Qed.

Lemma walker_raises_SameNameError_witness :
  parse_input_directory cfg0 ["vault"] tree_two_notes = Raise (SameNameError "notes").
Proof.
  eapply (walker_raises_SameNameError cfg0 "vault" tree_two_notes
            [(["vault"], tree_two_notes);
             (["vault"; "notes"], Dir [("a.md", File)]);
             (["vault"; "topics"], Dir [("deep", Dir [("notes", Dir [])])]);
             (["vault"; "notes"; "a.md"], File);
             (["vault"; "topics"; "deep"], Dir [("notes", Dir [])])]
            (["vault"; "topics"; "deep"; "notes"], Dir []) []).
  - reflexivity.
  - reflexivity.
  - vm_compute. reflexivity.
  - reflexivity.
  - vm_compute. eexists. reflexivity.
Defined.

(** C2, as stated, fails on hidden paths and on longer input paths. A
    second directory named notes under the hidden .obsidian is skipped,
    and the walker returns, the name notes being given once. And for the
    input path a/vault the first item, the directory itself, looks up its
    parent a in the navigation table, which has the root key only: the
    walker ends in [KeyError] before any name is compared. *)
Lemma walker_ignores_hidden_duplicate :
  List.filter (fun it => is_dir it && String.eqb (name (fst it)) "notes")
    (scan ["vault"] tree_hidden_twin)
  = [(["vault"; "notes"], Dir []); (["vault"; ".obsidian"; "notes"], Dir [])] /\
  (exists st,
     parse_input_directory cfg0 ["vault"] tree_hidden_twin = Return st /\
     navigation st !! "notes" = Some (Some "vault", [])) /\
  parts_of "a/vault" = ["a"; "vault"] /\
  parse_input_directory cfg0 (parts_of "a/vault") tree_two_notes = Raise (KeyError "a").
Proof.
  split; [reflexivity|]. split; [|split; reflexivity].
  eexists. split; vm_compute; reflexivity.
Qed.

(** *** The navigation table stays a tree *)

Lemma climb_preserved (nav nav' : nav_table) :
  (forall j v, nav !! j = Some v -> exists v', nav' !! j = Some v' /\ fst v' = fst v) ->
  forall n j r, climb nav n j = Some r -> climb nav' n j = Some r.
Proof.
  intros Hpres. induction n as [|n IH]; intros j r; simpl; [auto|].
  destruct (nav !! j) as [[[p|] cs]|] eqn:Hj; try discriminate.
  destruct (Hpres _ _ Hj) as ([p' cs'] & -> & Hfst). simpl in Hfst. subst p'.
  apply IH.
Qed.

Lemma climb_add nav n m j :
  climb nav (n + m) j = climb nav n j ≫= climb nav m.
Proof.
  revert j. induction n as [|n IH]; intros j; simpl; [reflexivity|].
  destruct (nav !! j) as [[[p|] cs]|]; simpl; auto.
Qed.

Lemma nav_tree_init : nav_tree (navigation walk_init).
Proof.
  assert (Hl : forall k v, navigation walk_init !! k = Some v -> k = "" /\ v = (None, [])).
  { intros k v. simpl. rewrite lookup_singleton_Some. intuition congruence. }
  split.
  - exists []. reflexivity.
  - intros k Hk [v Hv]. apply Hl in Hv. tauto.
  - intros k [v Hv]. apply Hl in Hv. destruct Hv as [-> _]. exists 0. reflexivity.
  - intros k p cs Hv. apply Hl in Hv. destruct Hv as [_ [=]].
  - intros p gp cs Hv. apply Hl in Hv. destruct Hv as [_ [= -> ->]].
    split; [constructor|]. intros c Hc. inversion Hc.
Qed.

Lemma nav_tree_add nav k pk gp cs :
  nav_tree nav ->
  nav !! pk = Some (gp, cs) ->
  nav !! k = None ->
  nav_tree (nav_add nav k pk gp cs).
Proof.
  intros [Hroot Hparent Hrooted Hlisted Hchildren] Hpk Hk.
  assert (Hne : pk <> k) by congruence.
  assert (Hpres : forall j v, nav !! j = Some v ->
            exists v', nav_add nav k pk gp cs !! j = Some v' /\ fst v' = fst v /\
                       forall c, c ∈ snd v -> c ∈ snd v').
  { intros j v Hj. rewrite nav_add_lookup.
    destruct (decide (j = k)) as [->|]; [congruence|].
    destruct (decide (j = pk)) as [->|].
    - rewrite Hpk in Hj. injection Hj as <-. eexists. split; [reflexivity|].
      split; [reflexivity|]. simpl. intros c Hc. apply elem_of_app. auto.
    - eauto. }
  assert (Hold : forall j v', j <> k -> nav_add nav k pk gp cs !! j = Some v' ->
            exists v, nav !! j = Some v /\ fst v = fst v' /\
                      (snd v' = snd v \/ j = pk /\ snd v' = cs ++ [k] /\ snd v = cs)).
  { intros j v' Hjk. rewrite nav_add_lookup. rewrite decide_False by exact Hjk.
    destruct (decide (j = pk)) as [->|].
    - intros [= <-]. exists (gp, cs). simpl. split; [exact Hpk|]. split; [reflexivity|]. right. auto.
    - intros Hj. exists v'. auto. }
  assert (Hpres' : forall j v, nav !! j = Some v ->
            exists v', nav_add nav k pk gp cs !! j = Some v' /\ fst v' = fst v).
  { intros j v Hj. destruct (Hpres j v Hj) as (v' & ? & ? & _). eauto. }
  split.
  - destruct Hroot as [cs0 H0]. destruct (Hpres _ _ H0) as ([p' cs'] & Hl & Hf & _).
    simpl in Hf. subst p'. eauto.
  - intros j Hj0 [v' Hj]. destruct (decide (j = k)) as [->|Hjk].
    + rewrite nav_add_lookup, decide_True in Hj by reflexivity.
      exists pk, []. split; [rewrite nav_add_lookup, decide_True by reflexivity; reflexivity|].
      destruct (Hpres _ _ Hpk) as (? & -> & _). eauto.
    + destruct (Hold _ _ Hjk Hj) as (v & Hv & Hf & _).
      destruct (Hparent j Hj0 (ex_intro _ v Hv)) as (p & cs' & Hv' & [vp Hp]).
      rewrite Hv in Hv'. injection Hv' as ->. simpl in Hf.
      destruct v' as [p' cs'']. simpl in Hf. subst p'.
      exists p, cs''. split; [exact Hj|].
      destruct (Hpres _ _ Hp) as (? & -> & _). eauto.
  - intros j [v' Hj]. destruct (decide (j = k)) as [->|Hjk].
    + destruct (Hrooted pk (ex_intro _ _ Hpk)) as [n Hn].
      exists (S n). simpl. rewrite nav_add_lookup, decide_True by reflexivity.
      eapply climb_preserved; eauto.
    + destruct (Hold _ _ Hjk Hj) as (v & Hv & _).
      destruct (Hrooted j (ex_intro _ v Hv)) as [n Hn].
      exists n. eapply climb_preserved; eauto.
  - intros j p cs' Hj. destruct (decide (j = k)) as [->|Hjk].
    + rewrite nav_add_lookup, decide_True in Hj by reflexivity.
      injection Hj as <- <-. exists gp, (cs ++ [k]).
      rewrite nav_add_lookup, decide_False, decide_True by congruence.
      split; [reflexivity|]. apply elem_of_app. right. left.
    + destruct (Hold _ _ Hjk Hj) as ([p0 cs0] & Hv & Hf & _). simpl in Hf. subst p0.
      destruct (Hlisted _ _ _ Hv) as (gp' & pcs & Hp & Hin).
      destruct (Hpres _ _ Hp) as ([gp'' pcs'] & Hl & _ & Hsub). simpl in Hsub.
      exists gp'', pcs'. auto.
  - intros p gp' cs' Hp.
    assert (Hsome : forall c ccs, nav !! c = Some (Some p, ccs) ->
              exists ccs', nav_add nav k pk gp cs !! c = Some (Some p, ccs')).
    { intros c ccs Hc. destruct (Hpres _ _ Hc) as ([p' ccs'] & Hl & Hf & _).
      simpl in Hf. subst p'. eauto. }
    destruct (decide (p = k)) as [->|Hpk'].
    + rewrite nav_add_lookup, decide_True in Hp by reflexivity.
      injection Hp as <- <-. split; [constructor|]. intros c Hc. inversion Hc.
    + destruct (Hold _ _ Hpk' Hp) as ([gp0 cs0] & Hv & _ & Hcs). simpl in Hcs.
      destruct (Hchildren _ _ _ Hv) as [Hnd Hall].
      destruct Hcs as [->|(-> & -> & ->)].
      * split; [exact Hnd|]. intros c Hc. destruct (Hall c Hc) as [ccs Hc']. eauto.
      * split.
        -- apply NoDup_app. split; [exact Hnd|]. split; [|apply NoDup_singleton].
           intros c Hc. rewrite list_elem_of_singleton. intros ->.
           destruct (Hall k Hc) as [ccs Hc']. congruence.
        -- intros c. rewrite elem_of_app, list_elem_of_singleton. intros [Hc| ->].
           ++ destruct (Hall c Hc) as [ccs Hc']. eauto.
           ++ exists []. rewrite nav_add_lookup, decide_True by reflexivity. reflexivity.
Qed.

(** A tree has no cycle: no name is its own ancestor. *)
Lemma nav_tree_acyclic nav k n :
  nav_tree nav -> 0 < n -> climb nav n k <> Some k.
Proof.
  intros Ht Hn Hcyc.
  assert (Hk : is_Some (nav !! k)).
  { destruct n as [|n]; [lia|]. simpl in Hcyc.
    destruct (nav !! k); [eauto|discriminate]. }
  destruct (nt_rooted _ Ht k Hk) as [m Hm].
  assert (Hloop : forall i, climb nav (i * n) k = Some k).
  { induction i as [|i IH]; [reflexivity|].
    simpl. rewrite climb_add, Hcyc. exact IH. }
  assert (Hstuck : forall j, climb nav (S j) "" = None).
  { intros j. simpl. destruct (nt_root _ Ht) as [cs ->]. reflexivity. }
  specialize (Hloop (S m)).
  replace (S m * n) with (m + S (m * n + n - S m)) in Hloop by nia.
  rewrite climb_add, Hm in Hloop. simpl in Hloop.
  destruct (nt_root _ Ht) as [cs H0]. rewrite H0 in Hloop. discriminate.
Qed.

(** *** A tree with unique names *)

Lemma entry_names_cons it items :
  entry_names (it :: items) =
  if is_entry it then stem (fst it) :: entry_names items else entry_names items.
Proof. unfold entry_names, entries. simpl. destruct (is_entry it); reflexivity. Qed.

Lemma media_files_cons it items :
  media_files (it :: items) =
  if visible it && is_media it then it :: media_files items else media_files items.
Proof. reflexivity. Qed.

Lemma dom_nav_add nav k pk gp cs :
  is_Some (nav !! pk) ->
  dom (nav_add nav k pk gp cs) = dom nav ∪ {[ k ]}.
Proof.
  intros Hpk. apply elem_of_dom in Hpk. unfold nav_add.
  rewrite !dom_insert_L. set_solver.
Qed.

Lemma walk_unique cfg items : forall K st,
  parents_first K items ->
  known_in K (navigation st) ->
  nav_tree (navigation st) ->
  NoDup (entry_names items) ->
  (forall n, n ∈ entry_names items -> navigation st !! n = None) ->
  exists st',
    walk cfg items st = Return st' /\
    nav_tree (navigation st') /\
    dom (navigation st') = dom (navigation st) ∪ list_to_set (entry_names items) /\
    dom (pages st') = dom (pages st) ∪ list_to_set (entry_names items) /\
    media st' = media st ++
      map (fun it => (fst it, media_dst cfg (fst it))) (media_files items).
Proof.
  induction items as [|it items IH]; intros K st HPF HK Ht Hnd Hfresh.
  - exists st. simpl. rewrite app_nil_r.
    split; [reflexivity|]. split; [exact Ht|].
    unfold entry_names. simpl. rewrite !(right_id_L ∅ (∪)). auto.
  - destruct HPF as [(q & nm & Hq & Hin) HPF].
    rewrite entry_names_cons in Hnd, Hfresh.
    assert (H1 : exists st1, walk_item cfg st it = Return st1).
    { rewrite walk_item_cases. destruct (is_entry it) eqn:He; [|destruct (_ && _); eauto].
      assert (Hvis : hidden q = false).
      { unfold is_entry, visible in He. rewrite Hq, hidden_app in He.
        destruct (hidden q); [discriminate|reflexivity]. }
      destruct (HK q Hin Hvis) as [[gp cs] Hp].
      erewrite register_fresh; [eauto| |].
      - simpl. rewrite Hq, parent_snoc. exact Hp.
      - simpl. apply Hfresh. left. }
    destruct H1 as [st1 H1]. cbn [walk]. rewrite H1. cbn [bind].
    pose proof (walk_item_known _ _ _ _ _ HK H1) as HK1.
    apply walk_item_Return in H1.
    destruct H1 as [(He & gp & cs & Hp & Hk & Hn & Hpg & Hm)|(He & Hn & Hpg & Hm)];
      rewrite He in Hnd, Hfresh.
    + apply NoDup_cons in Hnd. destruct Hnd as [Hnotin Hnd].
      destruct (IH _ st1 HPF HK1) as (st' & Hw & Ht' & Hdn & Hdp & Hmed).
      * rewrite Hn. apply nav_tree_add; assumption.
      * exact Hnd.
      * intros n Hin'. rewrite Hn, nav_add_lookup.
        rewrite decide_False by (intros ->; contradiction).
        rewrite decide_False.
        -- apply Hfresh. right. exact Hin'.
        -- intros ->. assert (Hnone : navigation st !! stem (parent (fst it)) = None)
             by (apply Hfresh; right; exact Hin'). congruence.
      * exists st'. split; [exact Hw|]. split; [exact Ht'|].
        rewrite entry_names_cons, media_files_cons, He.
        assert (Hm' : visible it && is_media it = false).
        { unfold is_entry, is_dir, is_page_file, is_markdown, is_media in *.
          destruct (visible it); [|reflexivity]. simpl in *.
          destruct (snd it); [|reflexivity].
          destruct (String.eqb _ ".md"); [reflexivity|discriminate]. }
        rewrite Hm'. rewrite Hdn, Hdp, Hmed, Hn, Hpg, Hm.
        rewrite dom_nav_add by eauto. rewrite dom_insert_L.
        split; [set_solver|]. split; [set_solver|reflexivity].
    + destruct (IH _ st1 HPF HK1) as (st' & Hw & Ht' & Hdn & Hdp & Hmed).
      * rewrite Hn. exact Ht.
      * exact Hnd.
      * rewrite Hn. exact Hfresh.
      * exists st'. split; [exact Hw|]. split; [exact Ht'|].
        rewrite entry_names_cons, media_files_cons, He.
        rewrite Hdn, Hdp, Hmed, Hn, Hpg, Hm.
        split; [reflexivity|]. split; [reflexivity|].
        destruct (visible it && is_media it); simpl.
        -- rewrite <- app_assoc. reflexivity.
        -- rewrite app_nil_r. reflexivity.
Qed.

Lemma filter_split_length {A} (f g h : A -> bool) (l : list A) :
  (forall x, f x = g x || h x) ->
  (forall x, g x && h x = false) ->
  length (List.filter f l) = length (List.filter g l) + length (List.filter h l).
Proof.
  intros Hf Hgh. induction l as [|x l IH]; simpl; [reflexivity|].
  rewrite Hf. specialize (Hgh x).
  destruct (g x), (h x); simpl in *; try discriminate; lia.
Qed.

Lemma entries_count items :
  length (entries items) =
  length (List.filter (fun it => visible it && is_dir it) items) +
  length (List.filter (fun it => visible it && is_page_file it) items).
Proof.
  apply filter_split_length; intros it.
  - unfold is_entry. destruct (visible it); reflexivity.
  - unfold is_page_file, is_markdown, is_dir.
    destruct (visible it), (snd it); reflexivity.
Qed.

(** C7, as stated, fails on a tree with a hidden directory: all names
    differ, the tree has two directories and one markdown page, and the
    pages table has two entries. It fails as well for an input path of
    more than one part: for a/vault, holding nothing, the walker ends in
    [KeyError]. *)
Lemma walker_skips_hidden_entries :
  NoDup (map (fun it => stem (fst it))
           (List.filter (fun it => is_dir it || is_page_file it)
              (scan ["vault"] tree_hidden))) /\
  (exists st,
     parse_input_directory cfg0 ["vault"] tree_hidden = Return st /\
     size (pages st) = 2 /\
     length (List.filter is_dir (scan ["vault"] tree_hidden)) +
     length (List.filter is_page_file (scan ["vault"] tree_hidden)) = 3) /\
  NoDup (map (fun it => stem (fst it))
           (List.filter (fun it => is_dir it || is_page_file it)
              (scan (parts_of "a/vault") (Dir [])))) /\
  parse_input_directory cfg0 (parts_of "a/vault") (Dir []) = Raise (KeyError "a").
Proof.
  split; [|split; [|split]].
  - vm_compute. repeat (constructor; [set_solver|]). constructor.
  - eexists. split; [vm_compute; reflexivity|]. split; vm_compute; reflexivity.
  - vm_compute. repeat (constructor; [set_solver|]). constructor.
  - reflexivity.
Qed.

(** C7, amended. For an input directory whose path has one part, on a
    tree whose entries (the directories and the markdown pages that are
    no description files, on paths without a hidden part) have names
    different from each other and from the empty name, the walker
    returns; the pages table has one entry for each visible directory
    and each visible page file; the keys of the navigation table are the
    empty name and the names of the entries; the table is a tree rooted
    at the empty name: the root has no parent, every other key has a
    parent that is a key and lists it once among its children, every key
    climbs to the root, and no key is its own ancestor. *)
Theorem walker_unique_names cfg root tree :
  parts_of root = [root] ->
  NoDup ("" :: entry_names (scan [root] tree)) ->
  exists st,
    parse_input_directory cfg [root] tree = Return st /\
    size (pages st) =
      length (List.filter (fun it => visible it && is_dir it) (scan [root] tree)) +
      length (List.filter (fun it => visible it && is_page_file it) (scan [root] tree)) /\
    dom (navigation st) = {[ "" ]} ∪ list_to_set (entry_names (scan [root] tree)) /\
    nav_tree (navigation st) /\
    (forall k n, 0 < n -> climb (navigation st) n k <> Some k).
Proof.
  intros _ Hnd. apply NoDup_cons in Hnd. destruct Hnd as [Hroot Hnd].
  destruct (walk_unique cfg (scan [root] tree) [[]] walk_init)
    as (st & Hw & Ht & Hdn & Hdp & _).
  - apply parents_first_scan.
  - apply known_in_init.
  - apply nav_tree_init.
  - exact Hnd.
  - intros n Hn. simpl. apply lookup_singleton_None. intros <-. contradiction.
  - exists st. split; [exact Hw|]. split; [|split; [|split]].
    + rewrite <- entries_count. rewrite <- size_dom, Hdp.
      simpl. rewrite dom_empty_L, (left_id_L ∅ (∪)).
      rewrite size_list_to_set by exact Hnd.
      unfold entry_names. apply length_map.
    + rewrite Hdn. simpl. rewrite dom_singleton_L. reflexivity.
    + exact Ht.
    + intros k n Hn. apply nav_tree_acyclic; assumption.
Qed.

Lemma walker_unique_names_witness :
  exists st,
    parse_input_directory cfg0 ["vault"] tree_site = Return st /\
    size (pages st) =
      length (List.filter (fun it => visible it && is_dir it) (scan ["vault"] tree_site)) +
      length (List.filter (fun it => visible it && is_page_file it) (scan ["vault"] tree_site)) /\
    dom (navigation st) = {[ "" ]} ∪ list_to_set (entry_names (scan ["vault"] tree_site)) /\
    nav_tree (navigation st) /\
    (forall k n, 0 < n -> climb (navigation st) n k <> Some k).
Proof.
  apply (walker_unique_names cfg0 "vault" tree_site).
  - reflexivity.
  - vm_compute. repeat (constructor; [set_solver|]). constructor.
Defined.

(** ** The link table *)

Lemma make_links_step_other (links : gmap string path) med k :
  (forall m, m ∈ med -> name (fst m) <> k) ->
  fold_left (fun links m => <[name (fst m) := snd m]> links) med links !! k
  = links !! k.
Proof.
  revert links. induction med as [|m med IH]; intros links Hne; simpl; [reflexivity|].
  rewrite IH.
  - apply lookup_insert_ne. apply Hne. left.
  - intros m' Hm'. apply Hne. right. exact Hm'.
Qed.

Lemma make_links_last pgs m1 src dst m2 :
  (forall m, m ∈ m2 -> name (fst m) <> name src) ->
  make_links pgs (m1 ++ (src, dst) :: m2) !! name src = Some dst.
Proof.
  intros Hne. unfold make_links. rewrite fold_left_app. simpl.
  rewrite make_links_step_other by exact Hne.
  apply lookup_insert_eq.
Qed.

Lemma media_dst_name cfg p q : name p = name q -> media_dst cfg p = media_dst cfg q.
Proof. intros H. unfold media_dst, stem, suffix. rewrite H. reflexivity. Qed.

Lemma media_files_app a b : media_files (a ++ b) = media_files a ++ media_files b.
Proof. unfold media_files. apply List.filter_app. Qed.

(** C10, as stated, fails on hidden paths. The later of two files named
    x.png lies under the hidden .trash: the walker skips it, the media
    list holds the earlier file alone, and the name x.png leads to the
    destination of that one; the run copies the earlier file there, and
    no other. *)
Lemma hidden_media_is_not_listed :
  List.filter (fun it => is_media it && String.eqb (name (fst it)) "x.png")
    (scan ["vault"] tree_hidden_media)
  = [(["vault"; "x.png"], File); (["vault"; ".trash"; "x.png"], File)] /\
  (exists st,
     parse_input_directory cfg0 ["vault"] tree_hidden_media = Return st /\
     media st = [(["vault"; "x.png"], ["media"; "x.png"])] /\
     make_links (pages st) (media st) !! "x.png" = Some ["media"; "x.png"]) /\
  exists g,
    main set_iter_split fs_ok cfg0 site0 (fun _ => convert0) (Return "{CONTENT_HTML}")
      (fun _ => format0) 4 ["vault"] tree_hidden_media = Return g /\
    g_events g =
      [WriteFile ["output"; "index.html"] "";
       MakeDir ["output"; "media"];
       CopyFile ["vault"; "x.png"] ["output"; "media"; "x.png"];
       CopyTree "static" "output"].
Proof.
  split; [reflexivity|]. split.
  - eexists. split; [vm_compute; reflexivity|]. split; vm_compute; reflexivity.
  - eexists. split; vm_compute; reflexivity.
Qed.

(** C10, amended. In any media list the last entry of a file name
    decides what [make_links] gives the name, whatever the entries before
    it and the pages. And for an input directory whose path has one part
    and a tree whose entries have names of their own: two media files on
    paths without a hidden part that share a file name raise no error;
    the media list holds both, in scan order; the link table maps the
    shared name to the destination of the later one, and that is the
    destination of the earlier one too, a destination being made from
    the file name alone. *)
Theorem media_same_name_last_wins cfg root tree pre it1 mid it2 post :
  parts_of root = [root] ->
  scan [root] tree = pre ++ it1 :: mid ++ it2 :: post ->
  visible it1 && is_media it1 = true ->
  visible it2 && is_media it2 = true ->
  name (fst it1) = name (fst it2) ->
  (forall it, it ∈ post -> visible it && is_media it = true ->
              name (fst it) <> name (fst it2)) ->
  NoDup ("" :: entry_names (scan [root] tree)) ->
  (forall pgs m1 src dst m2,
      (forall m, m ∈ m2 -> name (fst m) <> name src) ->
      make_links pgs (m1 ++ (src, dst) :: m2) !! name src = Some dst) /\
  exists st,
    parse_input_directory cfg [root] tree = Return st /\
    (exists m1 m2 m3,
        media st = m1 ++ (fst it1, media_dst cfg (fst it1)) ::
                   m2 ++ (fst it2, media_dst cfg (fst it2)) :: m3 /\
        forall m, m ∈ m3 -> name (fst m) <> name (fst it2)) /\
    make_links (pages st) (media st) !! name (fst it1)
      = Some (media_dst cfg (fst it2)) /\
    media_dst cfg (fst it1) = media_dst cfg (fst it2).
Proof.
  intros _ Hscan H1 H2 Hname Hlast Hnd.
  split; [intros pgs m1 src dst m2; apply make_links_last|].
  apply NoDup_cons in Hnd. destruct Hnd as [Hroot Hnd].
  destruct (walk_unique cfg (scan [root] tree) [[]] walk_init)
    as (st & Hw & _ & _ & _ & Hmed).
  - apply parents_first_scan.
  - apply known_in_init.
  - apply nav_tree_init.
  - exact Hnd.
  - intros n Hn. simpl. apply lookup_singleton_None. intros <-. contradiction.
  - exists st. split; [exact Hw|].
    change (media st = map (fun it => (fst it, media_dst cfg (fst it)))
                         (media_files (scan [root] tree))) in Hmed.
    rewrite Hscan in Hmed.
    rewrite media_files_app, media_files_cons, H1 in Hmed.
    rewrite media_files_app, media_files_cons, H2 in Hmed.
    rewrite !map_app in Hmed. simpl in Hmed. rewrite map_app in Hmed. simpl in Hmed.
    assert (Hm3 : forall m,
              m ∈ map (fun it => (fst it, media_dst cfg (fst it))) (media_files post) ->
              name (fst m) <> name (fst it2)).
    { intros m Hm. apply list_elem_of_fmap in Hm. destruct Hm as (it & -> & Hit).
      simpl. apply list_elem_of_In, filter_In in Hit. destruct Hit as [Hit Hv].
      apply Hlast; [apply list_elem_of_In; exact Hit|exact Hv]. }
    split; [|split].
    + eexists _, _, _. split; [exact Hmed|exact Hm3].
    + rewrite Hmed, Hname.
      rewrite app_comm_cons, app_assoc.
      apply (make_links_last _ _ (fst it2)). exact Hm3.
    + apply media_dst_name, Hname.
Qed.

Lemma media_same_name_last_wins_witness :
  (forall pgs m1 src dst m2,
      (forall m, m ∈ m2 -> name (fst m) <> name src) ->
      make_links pgs (m1 ++ (src, dst) :: m2) !! name src = Some dst) /\
  exists st,
    parse_input_directory cfg0 ["vault"] tree_site = Return st /\
    (exists m1 m2 m3,
        media st = m1 ++ (["vault"; "notes"; "x.png"], ["media"; "x.png"]) ::
                   m2 ++ (["vault"; "pics"; "x.png"], ["media"; "x.png"]) :: m3 /\
        forall m, m ∈ m3 -> name (fst m) <> "x.png") /\
    make_links (pages st) (media st) !! "x.png" = Some ["media"; "x.png"] /\
    ["media"; "x.png"] = ["media"; "x.png"].
Proof.
  apply (media_same_name_last_wins cfg0 "vault" tree_site
           [(["vault"], tree_site); (["vault"; "a.md"], File);
            (["vault"; "notes"], Dir [("x.png", File); ("b.md", File); ("notes.md", File)]);
            (["vault"; ".obsidian"], Dir [("c.md", File)]);
            (["vault"; "pics"], Dir [("x.png", File)])]
           (["vault"; "notes"; "x.png"], File)
           [(["vault"; "notes"; "b.md"], File); (["vault"; "notes"; "notes.md"], File);
            (["vault"; ".obsidian"; "c.md"], File)]
           (["vault"; "pics"; "x.png"], File) []).
  - reflexivity.
  - reflexivity.
  - reflexivity.
  - reflexivity.
  - reflexivity.
  - intros it Hit. inversion Hit.
  - vm_compute. repeat (constructor; [set_solver|]). constructor.
Defined.

(** ** The navigation bar *)

Lemma none_active cs a :
  a ∉ cs -> List.filter snd (map (fun s => (s, String.eqb s a)) cs) = [].
Proof.
  induction cs as [|s cs IH]; simpl; [reflexivity|].
  rewrite not_elem_of_cons. intros [Hne Hnin].
  destruct (String.eqb_spec s a) as [->|_]; [contradiction|]. simpl. auto.
Qed.

Lemma one_active cs a :
  NoDup cs -> a ∈ cs ->
  List.filter snd (map (fun s => (s, String.eqb s a)) cs) = [(a, true)].
Proof.
  induction 1 as [|s cs Hnin Hnd IH]; [inversion 1|].
  rewrite elem_of_cons. simpl.
  destruct (String.eqb_spec s a) as [->|Hne]; simpl.
  - intros _. rewrite none_active by exact Hnin. reflexivity.
  - intros [->|Hin]; [contradiction|]. auto.
Qed.

Lemma truthy_spec s : truthy s = true <-> s <> "".
Proof. destruct s; simpl; split; congruence. Qed.

Lemma truthy_false s : truthy s = false <-> s = "".
Proof. destruct s; simpl; split; congruence. Qed.

Section AncestorRows.

Variable cfg : Config.
Variable nav : nav_table.
Hypothesis Htree : nav_tree nav.

Lemma row_of_step a p cs r :
  nav !! a = Some (Some p, cs) -> row_of cfg nav p r -> row_of cfg nav a r.
Proof.
  intros Ha [[->|(a' & m & Hm & Hr)] Hne]; (split; [|exact Hne]).
  - left. reflexivity.
  - right. exists a', (S m). simpl. rewrite Ha. auto.
Qed.

Lemma ancestors_loop_rows : forall n a acc,
  climb nav n a = Some "" ->
  exists rows,
    (forall fuel, n <= fuel ->
       ancestors_loop fuel cfg nav (Some a) acc = Return (rows ++ acc)) /\
    Forall (row_of cfg nav a) rows.
Proof.
  induction n as [|n IH]; intros a acc Hc.
  - injection Hc as ->. exists []. split; [|constructor].
    intros [|fuel] _; reflexivity.
  - simpl in Hc.
    destruct (nav !! a) as [[[p|] cs]|] eqn:Ha; try discriminate.
    destruct (truthy a && negb (String.eqb a (INPUT_DIRECTORY cfg))) eqn:Hcond.
    2:{ exists []. split; [|constructor].
        intros [|fuel] _; simpl; rewrite Hcond; reflexivity. }
    apply andb_prop in Hcond. destruct Hcond as [Hta Hin].
    apply truthy_spec in Hta.
    destruct (nt_listed _ Htree _ _ _ Ha) as (gp & pcs & Hp & Hin').
    destruct (nt_children _ Htree _ _ _ Hp) as [Hnd _].
    set (r := if truthy p
              then map (fun s => (s, String.eqb s a)) pcs else []).
    destruct (IH p (r :: acc) Hc) as (rows & Hrun & Hrows).
    exists (rows ++ [r]). split.
    + intros [|fuel] Hle; [lia|]. simpl.
      rewrite (proj2 (truthy_spec a) Hta), Hin. simpl.
      unfold getitem at 1. rewrite Ha. simpl.
      assert (Hrow : (if truthy p
                      then bind (getitem nav p) (fun gentry =>
                             Return (map (fun parent_sibling =>
                                            (parent_sibling, String.eqb parent_sibling a))
                                       (snd gentry)))
                      else Return []) = Return r).
      { unfold r. destruct (truthy p); [|reflexivity].
        unfold getitem. rewrite Hp. reflexivity. }
      rewrite Hrow. simpl. rewrite Hrun by lia.
      rewrite <- app_assoc. reflexivity.
    + apply Forall_app. split.
      * eapply Forall_impl; [exact Hrows|]. intros r'. apply row_of_step with cs. exact Ha.
      * constructor; [|constructor]. unfold r. split.
        -- destruct (truthy p); [|left; reflexivity].
           right. exists a, 0. split; [reflexivity|]. apply one_active; assumption.
        -- intros Hroot. destruct (truthy p) eqn:Htp.
           ++ destruct pcs; [inversion Hin'|discriminate].
           ++ apply truthy_false in Htp. subst p.
              apply Hroot in Ha. subst a. rewrite String.eqb_refl in Hin. discriminate.
Qed.

(** When neither the ancestor [a] nor any named ancestor of it is named
    as the configured input directory, the loop runs up to the root page:
    the row of the root page comes first and is empty, and no other is. *)
Lemma ancestors_loop_to_root : forall n a acc,
  climb nav n a = Some "" ->
  a <> "" ->
  (forall m b, climb nav m a = Some b -> b <> "" -> b <> INPUT_DIRECTORY cfg) ->
  exists rest,
    (forall fuel, n <= fuel ->
       ancestors_loop fuel cfg nav (Some a) acc = Return (([] :: rest) ++ acc)) /\
    Forall (fun r => r <> []) rest.
Proof.
  induction n as [|n IH]; intros a acc Hc Ha0 Hin.
  { injection Hc as ->. congruence. }
  simpl in Hc.
  destruct (nav !! a) as [[[p|] cs]|] eqn:Ha; try discriminate.
  assert (Hcond : truthy a && negb (String.eqb a (INPUT_DIRECTORY cfg)) = true).
  { rewrite (proj2 (truthy_spec a) Ha0). simpl.
    destruct (String.eqb_spec a (INPUT_DIRECTORY cfg)) as [E|_]; [|reflexivity].
    exfalso. apply (Hin 0 a); [reflexivity|exact Ha0|exact E]. }
  destruct (nt_listed _ Htree _ _ _ Ha) as (gp & pcs & Hp & Hin').
  set (r := if truthy p
            then map (fun s => (s, String.eqb s a)) pcs else []).
  assert (Hstep : forall fuel acc',
            ancestors_loop (S fuel) cfg nav (Some a) acc'
            = ancestors_loop fuel cfg nav (Some p) (r :: acc')).
  { intros fuel acc'. simpl. rewrite Hcond.
    unfold getitem at 1. rewrite Ha. simpl.
    assert (Hrow : (if truthy p
                    then bind (getitem nav p) (fun gentry =>
                           Return (map (fun parent_sibling =>
                                          (parent_sibling, String.eqb parent_sibling a))
                                     (snd gentry)))
                    else Return []) = Return r).
    { unfold r. destruct (truthy p); [|reflexivity].
      unfold getitem. rewrite Hp. reflexivity. }
    rewrite Hrow. reflexivity. }
  destruct (truthy p) eqn:Htp.
  - apply truthy_spec in Htp.
    destruct (IH p (r :: acc) Hc Htp) as (rest & Hrun & Hrest).
    { intros m b Hm. apply (Hin (S m) b). simpl. rewrite Ha. exact Hm. }
    exists (rest ++ [r]). split.
    + intros [|fuel] Hle; [lia|]. rewrite Hstep, Hrun by lia.
      simpl. rewrite <- app_assoc. reflexivity.
    + apply Forall_app. split; [exact Hrest|].
      constructor; [|constructor]. unfold r.
      destruct pcs; [inversion Hin'|discriminate].
  - apply truthy_false in Htp. subst p.
    exists []. split; [|constructor].
    intros [|fuel] Hle; [lia|]. rewrite Hstep.
    destruct fuel; reflexivity.
Qed.

(** C9, amended. In a navigation table that is a tree (every name listed
    once among the children of its parent, as the walker builds it), the
    rows of the ancestors of a page are computed within a bounded number
    of rounds, and each row is either empty or marks exactly one entry
    active, an ancestor of the page. No row is empty when the only name
    under the root key is the configured input directory. And when the
    page has a parent and no page above it is named as the configured
    input directory, the loop runs up to the root page: its row comes
    first and is empty, and no other row is. *)
Theorem navbar_ancestor_rows nm :
  is_Some (nav !! nm) ->
  exists n rows,
    (forall fuel, n <= fuel -> navbar_ancestors fuel cfg nm nav = Return rows) /\
    Forall (fun r =>
              (r = [] \/
               exists a m, 0 < m /\ climb nav m nm = Some a /\
                           List.filter snd r = [(a, true)]) /\
              ((forall k cs, nav !! k = Some (Some "", cs) -> k = INPUT_DIRECTORY cfg) ->
               r <> [])) rows /\
    (forall p cs,
        nav !! nm = Some (Some p, cs) -> p <> "" ->
        (forall m a, 0 < m -> climb nav m nm = Some a -> a <> "" ->
                     a <> INPUT_DIRECTORY cfg) ->
        exists rest, rows = [] :: rest /\ Forall (fun r => r <> []) rest).
Proof.
  intros [[parent cs] Hnm].
  destruct (truthy_opt parent) eqn:Htp.
  2:{ exists 0, []. split; [|split; [constructor|]].
      - intros fuel _. unfold navbar_ancestors, getitem. rewrite Hnm. simpl.
        rewrite Htp. reflexivity.
      - intros p cs' E Hp. rewrite Hnm in E. injection E as -> _. simpl in Htp.
        apply truthy_false in Htp. contradiction. }
  destruct parent as [p|]; [|discriminate]. simpl in Htp.
  destruct (nt_rooted _ Htree nm (ex_intro _ _ Hnm)) as [[|n] Hn].
  { injection Hn as ->. destruct (nt_root _ Htree) as [cs0 H0]. congruence. }
  simpl in Hn. rewrite Hnm in Hn.
  destruct (ancestors_loop_rows n p [] Hn) as (rows & Hrun & Hrows).
  destruct (nt_listed _ Htree _ _ _ Hnm) as (gp & pcs & Hp & _).
  exists n, rows. split; [|split].
  - intros fuel Hle. unfold navbar_ancestors, getitem at 1. rewrite Hnm. simpl.
    rewrite Htp. unfold getitem. rewrite Hp. simpl.
    rewrite Hrun by exact Hle. rewrite app_nil_r. reflexivity.
  - eapply Forall_impl; [exact Hrows|]. intros r [[->|(a & m & Hm & Hr)] Hne].
    + split; [left; reflexivity|exact Hne].
    + split; [|exact Hne]. right. exists a, (S m).
      split; [lia|]. simpl. rewrite Hnm. auto.
  - intros p' cs' E Hp0 Hin. rewrite Hnm in E. injection E as <- _.
    destruct (ancestors_loop_to_root n p [] Hn Hp0) as (rest & Hrun' & Hrest).
    { intros m b Hm. apply (Hin (S m) b); [lia|]. simpl. rewrite Hnm. exact Hm. }
    exists rest. split; [|exact Hrest].
    specialize (Hrun n (le_n _)). specialize (Hrun' n (le_n _)).
    rewrite Hrun in Hrun'. rewrite !app_nil_r in Hrun'. congruence.
Qed.

End AncestorRows.

Lemma parse_nav_tree cfg root tree :
  NoDup ("" :: entry_names (scan [root] tree)) ->
  exists st,
    parse_input_directory cfg [root] tree = Return st /\
    nav_tree (navigation st) /\
    dom (navigation st) = {[ "" ]} ∪ list_to_set (entry_names (scan [root] tree)).
Proof.
  intros Hnd. apply NoDup_cons in Hnd. destruct Hnd as [Hroot Hnd].
  destruct (walk_unique cfg (scan [root] tree) [[]] walk_init)
    as (st & Hw & Ht & Hdn & _).
  - apply parents_first_scan.
  - apply known_in_init.
  - apply nav_tree_init.
  - exact Hnd.
  - intros n Hn. simpl. apply lookup_singleton_None. intros <-. contradiction.
  - exists st. split; [exact Hw|]. split; [exact Ht|].
    rewrite Hdn. simpl. rewrite dom_singleton_L. reflexivity.
Qed.

Lemma navbar_ancestor_rows_witness :
  exists st,
    parse_input_directory cfg0 ["vault"] tree_site = Return st /\
    exists n rows,
      (forall fuel, n <= fuel ->
         navbar_ancestors fuel cfg0 "b" (navigation st) = Return rows) /\
      Forall (fun r =>
                (r = [] \/
                 exists a m, 0 < m /\ climb (navigation st) m "b" = Some a /\
                             List.filter snd r = [(a, true)]) /\
                ((forall k cs, navigation st !! k = Some (Some "", cs) ->
                               k = INPUT_DIRECTORY cfg0) ->
                 r <> [])) rows /\
      (forall p cs,
          navigation st !! "b" = Some (Some p, cs) -> p <> "" ->
          (forall m a, 0 < m -> climb (navigation st) m "b" = Some a -> a <> "" ->
                       a <> INPUT_DIRECTORY cfg0) ->
          exists rest, rows = [] :: rest /\ Forall (fun r => r <> []) rest).
Proof.
  destruct (parse_nav_tree cfg0 "vault" tree_site) as (st & Hst & Ht & Hdom).
  - vm_compute. repeat (constructor; [set_solver|]). constructor.
  - exists st. split; [exact Hst|].
    apply (navbar_ancestor_rows cfg0 (navigation st) Ht "b").
    apply elem_of_dom. rewrite Hdom.
    apply elem_of_union. right. apply elem_of_list_to_set.
    vm_compute. set_solver.
Defined.

(** C9, as stated, fails twice. When the name of the input directory has
    a suffix, the root page is named by the stem, the loop over the
    ancestors does not stop at it, and its row is empty: for the page x of
    my.notes/A/x.md the rows are an empty one and the one of A. And when
    the metadata of a page declares a child twice, the bar of that page
    writes the child twice into the navigation table, and the row of that
    child, for a page below it, marks both entries active. *)
Lemma ancestor_row_without_active :
  (exists st,
     parse_input_directory cfg_dotted ["my.notes"] tree_dotted = Return st /\
     navbar_ancestors 2 cfg_dotted "x" (navigation st)
     = Return [[]; [("A", true)]]) /\
  (exists html navigation',
     make_navbar elements 2 cfg0 "vault" {[ "children" := ["A"; "A"] ]}
       (navigation st_two_levels)
       (make_links (pages st_two_levels) (media st_two_levels))
     = Return (html, navigation') /\
     navbar_ancestors 2 cfg0 "x" navigation'
     = Return [[("A", true); ("A", true); ("b", false)]]).
Proof.
  split.
  - eexists. split; vm_compute; reflexivity.
  - eexists _, _. split; vm_compute; reflexivity.
Qed.

(** ** The link pattern and the resolver *)

Import ObsidianLinkProcessor.




Lemma warn_strict {A} url lineno (k : M A) w :
  (url, lineno) ∉ registry w ->
  (warn true url lineno ;; k) w = Raise (UnknownLocalLinkWarning url).
Proof.
  intros Hreg. unfold bindM, warn.
  rewrite bool_decide_eq_false_2 by exact Hreg. reflexivity.
Qed.

Lemma body_at (parent : Element) pre el post :
  elems parent = pre ++ el :: post ->
  elems parent !! length pre = Some el.
Proof. intros ->. apply list_lookup_middle. reflexivity. Qed.

Lemma insert_at {A} (pre : list A) el el' post :
  <[length pre := el']> (pre ++ el :: post) = pre ++ el' :: post.
Proof.
  replace (length pre) with (length pre + 0) by lia.
  rewrite insert_app_r. reflexivity.
Qed.


(** A local target the table has: the reference is rewritten. *)
Lemma body_link_found strict links parent pre el post href dst w :
  elems parent = pre ++ el :: post ->
  tag el = "a" ->
  attrib el !! "href" = Some href ->
  startswith "http" href = false ->
  links !! href = Some dst ->
  body strict links parent (length pre) w =
  Return ((set_elems (pre ++ set_attrib "href" (path_str dst) el :: post) parent,
           length pre + 1), w).
Proof.
  intros Hel Htag Hhref Hhttp Hdst. unfold body.
  rewrite (body_at _ _ _ _ Hel), Htag. simpl.
  unfold bindM, lift, getitem. rewrite Hhref. simpl.
  rewrite Hhttp. simpl. rewrite Hdst. unfold ret.
  rewrite Hel, insert_at. reflexivity.
Qed.

Lemma handleMatch_shown url_group name_group :
  name_group <> Some "" ->
  ObsidianLinkPattern.handleMatch url_group name_group =
  mkElement "a" {[ "href" := strip url_group ]}
    (Some (shown_text url_group name_group)) None [].
Proof.
  intros Hne. unfold ObsidianLinkPattern.handleMatch, shown_text.
  destruct name_group as [[|c nm]|]; [congruence|reflexivity|reflexivity].
Qed.

(** C6, amended. The link pattern strips the blanks around the target
    and around the display text, and builds an anchor with the stripped
    target as [href] and the stripped display text (the stripped target
    when the link has no display part) as text. Between the pattern and
    the resolver the Markdown engine may rewrite the text and the
    children of that anchor; so the resolver is taken on any anchor with
    that [href]. When the stripped target is a key of the link table and
    no absolute URL, the resolver leaves the anchor where it is, among
    whatever siblings, with the table's path as its [href], and with its
    text, tail and children as they came; alone in a paragraph and
    without children, that is the whole result of the run. *)
Theorem link_resolved strict links url_group name_group dst parent pre el post t w :
  name_group <> Some "" ->
  links !! strip url_group = Some dst ->
  startswith "http" (strip url_group) = false ->
  tag el = "a" ->
  attrib el !! "href" = Some (strip url_group) ->
  elems parent = pre ++ el :: post ->
  ObsidianLinkPattern.handleMatch url_group name_group
  = mkElement "a" {[ "href" := strip url_group ]}
      (Some (shown_text url_group name_group)) None [] /\
  body strict links parent (length pre) w =
    Return ((set_elems (pre ++ set_attrib "href" (path_str dst) el :: post) parent,
             length pre + 1), w) /\
  attrib (set_attrib "href" (path_str dst) el) !! "href" = Some (path_str dst) /\
  text (set_attrib "href" (path_str dst) el) = text el /\
  tail (set_attrib "href" (path_str dst) el) = tail el /\
  elems (set_attrib "href" (path_str dst) el) = elems el /\
  (elems el = [] ->
   run strict links (mkElement "p" ∅ t None [el]) w
   = Return (mkElement "p" ∅ t None [set_attrib "href" (path_str dst) el], w)).
Proof.
  intros Hne Hdst Hhttp Htag Hhref Hel.
  split; [exact (handleMatch_shown _ _ Hne)|].
  split; [exact (body_link_found strict links parent pre el post _ dst w
                   Hel Htag Hhref Hhttp Hdst)|].
  split; [apply lookup_insert_eq|].
  split; [reflexivity|]. split; [reflexivity|]. split; [reflexivity|].
  intros Hleaf. destruct el as [tg a x tl es]. cbn [tag attrib elems] in *. subst tg es.
  unfold run. simpl depth.
  cbn [iter resolve_children while_loop elems length Nat.ltb Nat.leb].
  unfold bindM at 1. unfold bindM at 1.
  erewrite (body_link_found strict links _ [] _ [] (strip url_group) dst w);
    [|reflexivity|reflexivity|exact Hhref|exact Hhttp|exact Hdst].
  reflexivity.
Qed.

Lemma link_resolved_witness :
  ObsidianLinkPattern.handleMatch "Alpha" (Some "Shown Text")
  = mkElement "a" {[ "href" := "Alpha" ]} (Some "Shown Text") None [] /\
  run false links_alpha
      (mkElement "p" ∅ (Some "see ") None
         [ObsidianLinkPattern.handleMatch "Alpha" (Some "Shown Text")]) w0
  = Return (mkElement "p" ∅ (Some "see ") None
              [mkElement "a" {[ "href" := "alpha.html" ]} (Some "Shown Text") None []],
            w0).
Proof.
  pose proof (link_resolved false links_alpha "Alpha" (Some "Shown Text")
                ["alpha.html"]
                (mkElement "p" ∅ None None
                   [ObsidianLinkPattern.handleMatch "Alpha" (Some "Shown Text")])
                [] (ObsidianLinkPattern.handleMatch "Alpha" (Some "Shown Text")) []
                (Some "see ") w0) as H.
  destruct H as (H1 & _ & _ & _ & _ & _ & H2).
  - discriminate.
  - reflexivity.
  - reflexivity.
  - reflexivity.
  - reflexivity.
  - reflexivity.
  - split; [exact H1|]. exact (H2 eq_refl).
Defined.

(** C6, as stated, fails on blanks. The display part "Shown " gives the
    text "Shown"; and the target " Alpha", though a key of the link table,
    is looked up as "Alpha", not found, and the anchor is removed. *)
Lemma link_target_and_text_are_stripped :
  text (ObsidianLinkPattern.handleMatch "Alpha" (Some "Shown ")) = Some "Shown" /\
  run false {[ " Alpha" := ["alpha.html"] ]}
      (mkElement "p" ∅ None None
         [ObsidianLinkPattern.handleMatch " Alpha" (Some "Shown")]) w0
  = Return (mkElement "p" ∅ (Some "Shown") None [], warned "Alpha" 118 "link" w0).
Proof. split; vm_compute; reflexivity. Qed.

(** *** Unresolved targets under the lenient filter *)

















(** C4: the failing input. Under the lenient filter the run on a
    paragraph with an unresolved link whose anchor has no text of its own
    ends in a [TypeError]; under the strict filter it ends in the
    warning. *)
Lemma lenient_run_aborts_on_textless_anchor :
  run false links_alpha p_bold w0 = Raise TypeError /\
  run true links_alpha p_bold w0 = Raise (UnknownLocalLinkWarning "Missing").
Proof. split; vm_compute; reflexivity. Qed.

(** C5: the failing input. The target png has no dot, hence no extension,
    and the embed pattern returns an image element for it. *)
Lemma embed_accepts_dotless_target :
  rfind "." "png" = (-1)%Z /\
  ObsidianImagePattern.handleMatch "png" None =
    Return (mkElement "img" {[ "src" := "png" ]} None None []).
Proof. split; vm_compute; reflexivity. Qed.

(** ** Strict and lenient resolution *)

Lemma quiet_ret {A} (a : A) : quiet (ret a).
Proof. intros w u. discriminate. Qed.

Lemma quiet_bind {A B} (m : M A) (k : A -> M B) :
  quiet m -> (forall a, quiet (k a)) -> quiet (bindM m k).
Proof.
  intros Hm Hk w u. unfold bindM.
  destruct (m w) as [[a w']|e|] eqn:E; simpl.
  - apply Hk.
  - intros [= ->]. exact (Hm w u E).
  - discriminate.
Qed.

Lemma quiet_lift {A} (o : outcome A) :
  (forall u, o <> Raise (UnknownLocalLinkWarning u)) -> quiet (lift o).
Proof.
  intros Ho w u. unfold lift. destruct o as [a|e|]; simpl; try discriminate.
  intros [= ->]. exact (Ho u eq_refl).
Qed.

Lemma quiet_getitem {V} (d : gmap string V) k : quiet (lift (getitem d k)).
Proof. apply quiet_lift. intros u. unfold getitem. destruct (d !! k); discriminate. Qed.

Lemma quiet_warn url lineno : quiet (warn false url lineno).
Proof. intros w u. unfold warn. destruct (bool_decide _); discriminate. Qed.

Lemma quiet_print line : quiet (print line).
Proof. intros w u. discriminate. Qed.

Lemma quiet_remove_link parent idx el : quiet (lift (remove_link parent idx el)).
Proof.
  apply quiet_lift. intros u. unfold remove_link.
  destruct (tail el) as [t|]; [destruct (truthy t)|]; destruct (text el); simpl;
    try discriminate;
    destruct (Nat.eqb idx 0); try discriminate;
    destruct (elems parent !! (idx - 1)); discriminate.
Qed.

Ltac quiet_step :=
  first
    [ apply quiet_ret
    | apply quiet_getitem
    | apply quiet_warn
    | apply quiet_print
    | apply quiet_remove_link
    | apply quiet_lift; intros ?; discriminate
    | apply quiet_bind; [|intros ?]
    | match goal with
      | |- quiet (match ?x with _ => _ end) => destruct x
      end ].

Lemma quiet_video_sources links sources : forall parent idx removed done,
  quiet (video_sources false links parent idx removed sources done).
Proof.
  induction sources as [|source rest IH]; intros parent idx removed done; simpl.
  - apply quiet_ret.
  - apply quiet_bind; [apply quiet_getitem|]. intros src.
    destruct (negb (startswith "http" src)); [|apply IH].
    destruct (links !! src); [apply IH|].
    apply quiet_bind; [apply quiet_warn|]. intros _.
    apply quiet_bind; [apply quiet_print|]. intros _.
    destruct removed; [|apply IH].
    apply quiet_lift. intros u. discriminate.
Qed.

Lemma quiet_body links parent idx : quiet (body false links parent idx).
Proof.
  unfold body.
  destruct (elems parent !! idx) as [element|]; [|quiet_step].
  destruct (String.eqb (tag element) "a").
  { repeat quiet_step. }
  destruct (String.eqb (tag element) "img").
  { repeat quiet_step. }
  destruct (String.eqb (tag element) "video"); [|quiet_step].
  apply quiet_bind; [apply quiet_video_sources|].
  intros [[sources parent'] removed]. destruct removed; quiet_step.
Qed.

Lemma quiet_while_loop links fuel : forall parent idx,
  quiet (while_loop false links fuel parent idx).
Proof.
  induction fuel as [|fuel IH]; intros parent idx; simpl;
    destruct (Nat.ltb idx (length (elems parent))); try quiet_step.
  - apply quiet_body.
  - apply IH.
Qed.

Lemma quiet_mapM {A B} (f : A -> M B) l :
  (forall a, quiet (f a)) -> quiet (mapM f l).
Proof.
  intros Hf. induction l as [|a l IH]; simpl; [apply quiet_ret|].
  apply quiet_bind; [apply Hf|]. intros b.
  apply quiet_bind; [exact IH|]. intros bs. apply quiet_ret.
Qed.

Lemma quiet_iter links fuel : forall parent, quiet (iter false links fuel parent).
Proof.
  induction fuel as [|fuel IH]; intros parent; simpl.
  - quiet_step.
  - apply quiet_bind; [apply quiet_while_loop|]. intros parent'.
    apply quiet_bind; [apply quiet_mapM; exact IH|]. intros es. apply quiet_ret.
Qed.

(** Under the lenient filter no run of the resolver, on any tree and from
    any warning state, ends in [UnknownLocalLinkWarning]. *)
Theorem lenient_run_never_raises_warning links root w :
  match run false links root w with
  | Raise (UnknownLocalLinkWarning _) => False
  | _ => True
  end.
Proof.
  pose proof (quiet_iter links (depth root) root w) as H. unfold run.
  destruct (iter false links (depth root) root w) as [r|[]|]; try exact I.
  exact (H url eq_refl).
Qed.

(** Under the strict filter an unresolved local target ends the loop over
    the children with [UnknownLocalLinkWarning], for an anchor, an image
    and a video alike; nothing of the registry stands in the way, since
    the strict filter never fills it. *)
Theorem strict_unresolved_raises links parent pre el post w :
  elems parent = pre ++ el :: post ->
  registry w = [] ->
  (forall href,
      tag el = "a" -> attrib el !! "href" = Some href ->
      startswith "http" href = false -> links !! href = None ->
      body true links parent (length pre) w = Raise (UnknownLocalLinkWarning href)) /\
  (forall src,
      tag el = "img" -> attrib el !! "src" = Some src ->
      startswith "http" src = false -> links !! src = None ->
      body true links parent (length pre) w = Raise (UnknownLocalLinkWarning src)) /\
  (forall source rest src,
      tag el = "video" -> elems el = source :: rest ->
      attrib source !! "src" = Some src ->
      startswith "http" src = false -> links !! src = None ->
      body true links parent (length pre) w = Raise (UnknownLocalLinkWarning src)).
Proof.
  intros Hel Hreg.
  assert (Hnot : forall url lineno, (url, lineno) ∉ registry w).
  { intros url lineno. rewrite Hreg. apply not_elem_of_nil. }
  split; [|split].
  - intros href Htag Hhref Hhttp Hdst. unfold body.
    rewrite (body_at _ _ _ _ Hel), Htag. simpl.
    unfold bindM at 1, lift at 1, getitem. rewrite Hhref. simpl.
    rewrite Hhttp. simpl. rewrite Hdst.
    apply warn_strict, Hnot.
  - intros src Htag Hsrc Hhttp Hdst. unfold body.
    rewrite (body_at _ _ _ _ Hel), Htag. simpl.
    unfold bindM at 1, lift at 1, getitem. rewrite Hsrc. simpl.
    rewrite Hhttp. simpl. rewrite Hdst.
    apply warn_strict, Hnot.
  - intros source rest src Htag Hsources Hsrc Hhttp Hdst. unfold body.
    rewrite (body_at _ _ _ _ Hel), Htag, Hsources. simpl.
    unfold bindM at 1. unfold bindM at 1, lift at 1, getitem. rewrite Hsrc. simpl.
    rewrite Hhttp. simpl. rewrite Hdst.
    rewrite warn_strict by apply Hnot. reflexivity.
Qed.

Lemma strict_unresolved_raises_witness :
  body true links_alpha p_sample 1 w0 = Raise (UnknownLocalLinkWarning "Missing").
Proof.
  apply (proj1 (strict_unresolved_raises links_alpha p_sample
                  [el_first] a_missing [img_x] w0 eq_refl eq_refl));
    reflexivity.
Defined.

(** ** The embed pattern *)

Lemma split_no_separator sep s :
  (forall i, String.get i s <> Some sep) -> split sep s = [s].
Proof.
  induction s as [|c s IH]; intros Hno; [reflexivity|]. simpl.
  destruct (Ascii.eqb_spec c sep) as [->|_].
  - exfalso. apply (Hno 0). reflexivity.
  - rewrite IH; [reflexivity|]. intros i. apply (Hno (S i)).
Qed.

(** The embed pattern decides by what follows the last dot of the
    stripped target: an image extension gives [img], mp4 gives [video]
    with one source of type video/mp4, nothing after the dot and anything
    else raise [ValueError]. The strictness setting plays no part. A
    target without a dot counts as an extension all of its own. *)
Theorem embed_by_extension url_group name_group :
  let url := strip url_group in
  let extension := List.last (split "." url) "" in
  (extension ∈ IMAGE_EXTENSIONS ->
   ObsidianImagePattern.handleMatch url_group name_group =
   Return (mkElement "img" {[ "src" := url ]} None None [])) /\
  (extension = "mp4" ->
   ObsidianImagePattern.handleMatch url_group name_group =
   Return (mkElement "video" {[ "controls" := "" ]} None None
             [mkElement "source" (<[ "type" := "video/mp4" ]> {[ "src" := url ]})
                None None []])) /\
  (extension = "" ->
   ObsidianImagePattern.handleMatch url_group name_group =
   Raise (ValueError (url +:+ ": has no extension."))) /\
  (extension <> "" -> extension ∉ IMAGE_EXTENSIONS -> extension ∉ VIDEO_EXTENSIONS ->
   ObsidianImagePattern.handleMatch url_group name_group =
   Raise (ValueError (extension +:+ ": unknown file type"))) /\
  ((forall i, String.get i url <> Some "."%char) -> extension = url).
Proof.
  intros url extension. unfold ObsidianImagePattern.handleMatch.
  fold url. fold extension.
  split; [|split; [|split; [|split]]].
  - intros Hin.
    assert (Ht : truthy extension = true).
    { unfold IMAGE_EXTENSIONS in Hin. destruct extension; [|reflexivity].
      set_solver. }
    rewrite Ht. simpl. rewrite bool_decide_eq_true_2 by exact Hin. reflexivity.
  - intros ->. reflexivity.
  - intros ->. reflexivity.
  - intros Hne Himg Hvid.
    rewrite (proj2 (truthy_spec extension) Hne). simpl.
    rewrite bool_decide_eq_false_2 by exact Himg.
    rewrite bool_decide_eq_false_2 by exact Hvid. reflexivity.
  - intros Hno. unfold extension. rewrite split_no_separator by exact Hno. reflexivity.
Qed.

(** ** Duplicate names anywhere in the tree *)

Lemma entry_names_app a b : entry_names (a ++ b) = entry_names a ++ entry_names b.
Proof. unfold entry_names, entries. rewrite List.filter_app, map_app. reflexivity. Qed.

Lemma first_collision items :
  ~ NoDup ("" :: entry_names items) ->
  exists pre it post,
    items = pre ++ it :: post /\ is_entry it = true /\
    NoDup ("" :: entry_names pre) /\ stem (fst it) ∈ "" :: entry_names pre.
Proof.
  induction items as [|x items IH] using rev_ind; intros Hdup.
  - exfalso. apply Hdup. apply NoDup_singleton.
  - destruct (decide (NoDup ("" :: entry_names items))) as [Hnd|Hnd].
    + exists items, x, []. split; [reflexivity|].
      rewrite entry_names_app, entry_names_cons in Hdup.
      destruct (is_entry x) eqn:He.
      * split; [reflexivity|]. split; [exact Hnd|].
        destruct (decide (stem (fst x) ∈ "" :: entry_names items)) as [Hin|Hnin];
          [exact Hin|].
        exfalso. apply Hdup.
        change ("" :: entry_names items ++ stem (fst x) :: entry_names [])
          with (("" :: entry_names items) ++ [stem (fst x)]).
        apply NoDup_app. split; [exact Hnd|]. split; [|apply NoDup_singleton].
        intros n Hn. rewrite list_elem_of_singleton. intros ->. contradiction.
      * exfalso. apply Hdup. unfold entry_names at 2. simpl.
        rewrite app_nil_r. exact Hnd.
    + destruct (IH Hnd) as (pre & it & post & -> & He & Hpre & Hin).
      exists pre, it, (post ++ [x]). rewrite <- app_assoc. auto.
Qed.

(** Two entries with one name, wherever they lie in the tree: the walker
    raises [SameNameError]. *)
Theorem duplicate_names_raise cfg root tree :
  parts_of root = [root] ->
  ~ NoDup ("" :: entry_names (scan [root] tree)) ->
  exists n, parse_input_directory cfg [root] tree = Raise (SameNameError n).
Proof.
  intros Hroot1 Hdup.
  destruct (first_collision _ Hdup) as (pre & it & post & Hscan & He & Hnd & Hin).
  apply NoDup_cons in Hnd. destruct Hnd as [Hroot Hnd].
  pose proof (parents_first_scan root tree) as HPF.
  rewrite Hscan in HPF. apply parents_first_app in HPF. destruct HPF as [HPF _].
  destruct (walk_unique cfg pre [[]] walk_init HPF known_in_init nav_tree_init Hnd)
    as (st & Hw & _ & Hdom & _).
  { intros n Hn. simpl. apply lookup_singleton_None. intros <-. contradiction. }
  exists (stem (fst it)).
  unfold parse_input_directory. rewrite Hscan, walk_app, Hw. simpl.
  rewrite walk_item_cases, He.
  rewrite register_taken; [reflexivity| |].
  - simpl. eapply walk_parent_known; eauto.
    unfold is_entry in He. destruct (visible it); [reflexivity|discriminate].
  - simpl. apply elem_of_dom. rewrite Hdom. simpl. rewrite dom_singleton_L.
    apply elem_of_cons in Hin. destruct Hin as [->|Hin].
    + apply elem_of_union. left. apply elem_of_singleton. reflexivity.
    + apply elem_of_union. right. apply elem_of_list_to_set. exact Hin.
Qed.

Lemma duplicate_names_raise_witness :
  exists n, parse_input_directory cfg0 ["vault"] tree_two_notes = Raise (SameNameError n).
Proof.
  apply (duplicate_names_raise cfg0 "vault" tree_two_notes).
  - reflexivity.
  - apply (proj1 (bool_decide_eq_false _)). vm_compute. reflexivity.
Defined.

Lemma string_length_append a b :
  String.length (a +:+ b) = String.length a + String.length b.
Proof. induction a as [|c a IH]; simpl; [reflexivity|rewrite IH; reflexivity]. Qed.

Lemma string_append_cancel s : forall a b, a +:+ s = b +:+ s -> a = b.
Proof.
  induction a as [|c a IH]; intros [|d b] H; simpl in H.
  - reflexivity.
  - apply (f_equal String.length) in H. simpl in H.
    rewrite !string_length_append in H. simpl in H. lia.
  - apply (f_equal String.length) in H. simpl in H.
    rewrite !string_length_append in H. simpl in H. lia.
  - injection H as -> H. rewrite (IH b H). reflexivity.
Qed.

Lemma warning_of_inj k1 k2 : warning_of k1 = warning_of k2 -> k1 = k2.
Proof.
  destruct k1 as [u1 l1], k2 as [u2 l2]. unfold warning_of, warning_message. simpl.
  intros [= H ->]. apply string_append_cancel in H. subst. reflexivity.
Qed.

Lemma shown_app a b : shown (a ++ b) = shown a ++ shown b.
Proof. unfold shown. apply flat_map_app. Qed.

Lemma in_step_once w : in_step w -> NoDup (shown (console w)).
Proof.
  intros [Hnd ->]. apply NoDup_fmap_2.
  - intros k1 k2. apply warning_of_inj.
  - apply NoDup_ListNoDup, List.NoDup_rev, NoDup_ListNoDup. exact Hnd.
Qed.

Lemma orderly_ret {A} (a : A) : orderly (ret a).
Proof. intros w Hw. simpl. split; [exact Hw|]. exists []. rewrite app_nil_r. reflexivity. Qed.

Lemma orderly_bind {A B} (m : M A) (k : A -> M B) :
  orderly m -> (forall a, orderly (k a)) -> orderly (bindM m k).
Proof.
  intros Hm Hk w Hw. unfold bindM. specialize (Hm w Hw).
  destruct (m w) as [[a w1]|e|]; simpl; try exact I.
  destruct Hm as [H1 [more1 E1]]. specialize (Hk a w1 H1).
  destruct (k a w1) as [[b w2]|e|]; try exact I.
  destruct Hk as [H2 [more2 E2]]. split; [exact H2|].
  exists (more1 ++ more2). rewrite E2, E1, app_assoc. reflexivity.
Qed.

Lemma orderly_lift {A} (o : outcome A) : orderly (lift o).
Proof.
  intros w Hw. unfold lift. destruct o as [a|e|]; simpl; try exact I.
  split; [exact Hw|]. exists []. rewrite app_nil_r. reflexivity.
Qed.

Lemma orderly_warn strict url lineno : orderly (warn strict url lineno).
Proof.
  intros w [Hnd Hsh]. unfold warn.
  destruct (bool_decide ((url, lineno) ∈ registry w)) eqn:Hreg.
  - split; [split; assumption|]. exists []. rewrite app_nil_r. reflexivity.
  - destruct strict; [exact I|].
    apply bool_decide_eq_false in Hreg.
    split; [split|]; simpl.
    + apply NoDup_cons. split; assumption.
    + rewrite shown_app, Hsh. simpl. rewrite map_app. reflexivity.
    + eexists. reflexivity.
Qed.

Lemma orderly_print line : orderly (print line).
Proof.
  intros w [Hnd Hsh]. unfold print. split; [split|]; simpl.
  - exact Hnd.
  - rewrite shown_app, Hsh. simpl. rewrite app_nil_r. reflexivity.
  - eexists. reflexivity.
Qed.

Ltac orderly_step :=
  first
    [ apply orderly_ret
    | apply orderly_warn
    | apply orderly_print
    | apply orderly_lift
    | apply orderly_bind; [|intros ?]
    | match goal with
      | |- orderly (match ?x with _ => _ end) => destruct x
      end ].

Lemma orderly_video_sources strict links sources : forall parent idx removed done,
  orderly (video_sources strict links parent idx removed sources done).
Proof.
  induction sources as [|source rest IH]; intros parent idx removed done; simpl.
  - apply orderly_ret.
  - apply orderly_bind; [apply orderly_lift|]. intros src.
    destruct (negb (startswith "http" src)); [|apply IH].
    destruct (links !! src); [apply IH|].
    apply orderly_bind; [apply orderly_warn|]. intros _.
    apply orderly_bind; [apply orderly_print|]. intros _.
    destruct removed; [|apply IH].
    apply orderly_lift.
Qed.

Lemma orderly_body strict links parent idx : orderly (body strict links parent idx).
Proof.
  unfold body.
  destruct (elems parent !! idx) as [element|]; [|orderly_step].
  destruct (String.eqb (tag element) "a").
  { repeat orderly_step. }
  destruct (String.eqb (tag element) "img").
  { repeat orderly_step. }
  destruct (String.eqb (tag element) "video"); [|orderly_step].
  apply orderly_bind; [apply orderly_video_sources|].
  intros [[sources parent'] removed]. destruct removed; orderly_step.
Qed.

Lemma orderly_while_loop strict links fuel : forall parent idx,
  orderly (while_loop strict links fuel parent idx).
Proof.
  induction fuel as [|fuel IH]; intros parent idx; simpl;
    destruct (Nat.ltb idx (length (elems parent))); try orderly_step.
  - apply orderly_body.
  - apply IH.
Qed.

Lemma orderly_mapM {A B} (f : A -> M B) l :
  (forall a, orderly (f a)) -> orderly (mapM f l).
Proof.
  intros Hf. induction l as [|a l IH]; simpl; [apply orderly_ret|].
  apply orderly_bind; [apply Hf|]. intros b.
  apply orderly_bind; [exact IH|]. intros bs. apply orderly_ret.
Qed.

Lemma orderly_iter strict links fuel : forall parent,
  orderly (iter strict links fuel parent).
Proof.
  induction fuel as [|fuel IH]; intros parent; simpl.
  - orderly_step.
  - apply orderly_bind; [apply orderly_while_loop|]. intros parent'.
    apply orderly_bind; [apply orderly_mapM; exact IH|]. intros es. apply orderly_ret.
Qed.

(** A run of the resolver, in either mode, on any tree: when the console
    and the warning registry are in step before it (the console shows the
    warnings of the registry, each once), they are in step after it, the
    console has only grown, and no warning for one target from one line
    of code stands on it twice. *)
Theorem run_warns_once strict links root w :
  in_step w ->
  match run strict links root w with
  | Return (_, w') =>
      in_step w' /\
      (exists more, console w' = console w ++ more) /\
      NoDup (shown (console w'))
  | _ => True
  end.
Proof.
  intros Hw. pose proof (orderly_iter strict links (depth root) root w Hw) as H.
  unfold run. destruct (iter strict links (depth root) root w) as [[r w']|e|]; try exact I.
  destruct H as [H1 H2]. split; [exact H1|]. split; [exact H2|].
  apply in_step_once. exact H1.
Qed.

Lemma run_warns_once_witness :
  in_step w0 /\
  match run false links_alpha p_twice w0 with
  | Return (_, w') =>
      in_step w' /\
      (exists more, console w' = console w0 ++ more) /\
      NoDup (shown (console w'))
  | _ => True
  end.
Proof.
  assert (H : in_step w0) by (split; [constructor|reflexivity]).
  split; [exact H|]. exact (run_warns_once false links_alpha p_twice w0 H).
Defined.

Lemma bind_Return {A B} (o : outcome A) (k : A -> outcome B) b :
  bind o k = Return b -> exists a, o = Return a /\ k a = Return b.
Proof. destruct o as [a|e|]; simpl; [eauto|discriminate|discriminate]. Qed.

Lemma nav_tree_permute (nav : nav_table) k p cs cs' :
  nav_tree nav ->
  nav !! k = Some (p, cs) ->
  cs' ≡ₚ cs ->
  nav_tree (<[k := (p, cs')]> nav).
Proof.
  intros [Hroot Hparent Hrooted Hlisted Hchildren] Hk Hperm.
  assert (Hlook : forall j,
            <[k := (p, cs')]> nav !! j =
            if decide (j = k) then Some (p, cs') else nav !! j).
  { intros j. destruct (decide (j = k)) as [->|Hne].
    - apply lookup_insert_eq.
    - apply lookup_insert_ne. congruence. }
  assert (Hpres : forall j v, nav !! j = Some v ->
            exists v', <[k := (p, cs')]> nav !! j = Some v' /\ fst v' = fst v /\
                       snd v' ≡ₚ snd v).
  { intros j v Hj. rewrite Hlook. destruct (decide (j = k)) as [->|Hne].
    - rewrite Hk in Hj. injection Hj as <-. eauto.
    - eauto. }
  assert (Hold : forall j v', <[k := (p, cs')]> nav !! j = Some v' ->
            exists v, nav !! j = Some v /\ fst v = fst v' /\ snd v' ≡ₚ snd v).
  { intros j v'. rewrite Hlook. destruct (decide (j = k)) as [->|Hne].
    - intros [= <-]. exists (p, cs). auto.
    - intros Hj. exists v'. auto. }
  assert (Hpres' : forall j v, nav !! j = Some v ->
            exists v', <[k := (p, cs')]> nav !! j = Some v' /\ fst v' = fst v).
  { intros j v Hj. destruct (Hpres j v Hj) as (v' & ? & ? & _). eauto. }
  split.
  - destruct Hroot as [cs0 H0]. destruct (Hpres _ _ H0) as ([p' cs1] & Hl & Hf & _).
    simpl in Hf. subst p'. eauto.
  - intros j Hj0 [v' Hj]. destruct (Hold _ _ Hj) as (v & Hv & Hf & _).
    destruct (Hparent j Hj0 (ex_intro _ v Hv)) as (q & cs1 & Hv' & [vq Hq]).
    rewrite Hv in Hv'. injection Hv' as ->. simpl in Hf.
    destruct v' as [q' cs2]. simpl in Hf. subst q'.
    exists q, cs2. split; [exact Hj|].
    destruct (Hpres _ _ Hq) as (? & -> & _). eauto.
  - intros j [v' Hj]. destruct (Hold _ _ Hj) as (v & Hv & _).
    destruct (Hrooted j (ex_intro _ v Hv)) as [n Hn].
    exists n. eapply climb_preserved; eauto.
  - intros j q cs1 Hj. destruct (Hold _ _ Hj) as ([q0 cs0] & Hv & Hf & _).
    simpl in Hf. subst q0.
    destruct (Hlisted _ _ _ Hv) as (gq & qcs & Hq & Hin).
    destruct (Hpres _ _ Hq) as ([gq' qcs'] & Hl & _ & Hp). simpl in Hp.
    exists gq', qcs'. split; [exact Hl|]. rewrite Hp. exact Hin.
  - intros q gq cs1 Hq. destruct (Hold _ _ Hq) as ([gq0 cs0] & Hv & _ & Hp).
    simpl in Hp. destruct (Hchildren _ _ _ Hv) as [Hnd Hall].
    split; [rewrite Hp; exact Hnd|].
    intros c Hc. rewrite Hp in Hc. destruct (Hall c Hc) as [ccs Hc'].
    destruct (Hpres _ _ Hc') as ([q' ccs'] & Hl & Hf & _). simpl in Hf. subst q'. eauto.
Qed.

(** When [make_navbar] returns, the page is a key of the navigation
    table; a page without children leaves the table as it is, and for a
    page with children the table afterwards holds the children in the
    order [reorder_children] gives, under the same parent, all other
    entries untouched. The table stays a tree when the metadata declare
    no child twice. *)
Theorem make_navbar_writes_back set_iter fuel cfg nm meta navigation links html navigation' :
  make_navbar set_iter fuel cfg nm meta navigation links = Return (html, navigation') ->
  exists parent children,
    navigation !! nm = Some (parent, children) /\
    navigation' =
      match children with
      | [] => navigation
      | _ => <[nm := (parent, reorder_children set_iter children meta)]> navigation
      end /\
    ((forall s, set_iter s ≡ₚ elements s) ->
     (forall declared, meta !! "children" = Some declared -> NoDup declared) ->
     nav_tree navigation -> nav_tree navigation').
Proof.
  unfold make_navbar. intros H.
  apply bind_Return in H. destruct H as ([parent children] & Hnm & H).
  unfold getitem in Hnm. destruct (navigation !! nm) as [v|] eqn:E; [|discriminate].
  injection Hnm as ->.
  exists parent, children. split; [reflexivity|]. simpl in H.
  apply bind_Return in H. destruct H as (siblings & _ & H).
  apply bind_Return in H. destruct H as (ancestors & _ & H).
  apply bind_Return in H. destruct H as (h1 & _ & H).
  apply bind_Return in H. destruct H as (h2 & _ & H).
  apply bind_Return in H. destruct H as (h3 & _ & H).
  injection H as _ <-. split; [destruct children; reflexivity|].
  intros Hiter Hmeta Ht.
  destruct children as [|c children]; [exact Ht|].
  apply (nav_tree_permute _ _ _ (c :: children)); [exact Ht|exact E|].
  unfold reorder_children.
  destruct (meta !! "children") as [declared|] eqn:Hd; [|reflexivity].
  destruct (nt_children _ Ht _ _ _ E) as [Hnd _].
  apply NoDup_Permutation; [|exact Hnd|].
  - rewrite <- (reorder_children_unfold set_iter (c :: children) meta declared Hd).
    apply (reorder_children_NoDup set_iter Hiter _ _ _ Hd). apply Hmeta. reflexivity.
  - intros x.
    rewrite <- (reorder_children_unfold set_iter (c :: children) meta declared Hd).
    apply (reorder_children_elem set_iter Hiter _ _ _ _ Hd).
Qed.

Lemma make_navbar_writes_back_witness :
  exists html navigation',
    make_navbar elements 5 cfg0 "notes" {[ "children" := ["b"] ]} (navigation st_site)
      (make_links (pages st_site) (media st_site)) = Return (html, navigation') /\
    exists parent children,
      navigation st_site !! "notes" = Some (parent, children) /\
      navigation' =
        match children with
        | [] => navigation st_site
        | _ => <["notes" := (parent,
                             reorder_children elements children {[ "children" := ["b"] ]})]>
                 (navigation st_site)
        end /\
      ((forall s : gset string, elements s ≡ₚ elements s) ->
       (forall declared,
           ({[ "children" := ["b"] ]} : gmap string (list string)) !! "children"
           = Some declared -> NoDup declared) ->
       nav_tree (navigation st_site) -> nav_tree navigation').
Proof.
  assert (H : exists r,
             make_navbar elements 5 cfg0 "notes" {[ "children" := ["b"] ]}
               (navigation st_site) (make_links (pages st_site) (media st_site))
             = Return r) by (eexists; vm_compute; reflexivity).
  destruct H as [[html navigation'] H].
  exists html, navigation'. split; [exact H|].
  exact (make_navbar_writes_back _ _ _ _ _ _ _ _ _ H).
Defined.

(** ** The resolver ends on every tree *)

Lemma total_ret {A} (a : A) (P : A -> Prop) : P a -> total_M (ret a) P.
Proof. intros H w. exact H. Qed.

Lemma total_bindM {A B} (m : M A) (k : A -> M B) (P : A -> Prop) (Q : B -> Prop) :
  total_M m P -> (forall a, P a -> total_M (k a) Q) -> total_M (bindM m k) Q.
Proof.
  intros Hm Hk w. unfold bindM. specialize (Hm w).
  destruct (m w) as [[a w']|e|]; simpl in *; [|exact I|exact Hm].
  apply Hk. exact Hm.
Qed.

Lemma total_lift {A} (o : outcome A) (P : A -> Prop) :
  total_with o P -> total_M (lift o) P.
Proof. intros H w. unfold lift. destruct o; simpl in *; auto. Qed.

Lemma total_getitem {V} (d : gmap string V) k :
  total_M (lift (getitem d k)) (fun _ => True).
Proof. apply total_lift. unfold getitem. destruct (d !! k); exact I. Qed.

Lemma total_warn strict url lineno : total_M (warn strict url lineno) (fun _ => True).
Proof. intros w. unfold warn. destruct (bool_decide _); [exact I|]. destruct strict; exact I. Qed.

Lemma total_print line : total_M (print line) (fun _ => True).
Proof. intros w. exact I. Qed.

Lemma total_weaken {A} (m : M A) (P Q : A -> Prop) :
  (forall a, P a -> Q a) -> total_M m P -> total_M m Q.
Proof.
  intros HPQ Hm w. specialize (Hm w). destruct (m w) as [[a w']|e|]; simpl in *; auto.
Qed.

Lemma depth_elems e : depth e = S (list_max (map depth (elems e))).
Proof. destruct e; reflexivity. Qed.

Lemma depth_set_attrib k v e : depth (set_attrib k v e) = depth e.
Proof. destruct e; reflexivity. Qed.

Lemma depth_set_tail t e : depth (set_tail t e) = depth e.
Proof. destruct e; reflexivity. Qed.

Lemma depth_child_bound d e : depth e <= S d <-> child_bound d (elems e).
Proof.
  rewrite depth_elems. unfold child_bound.
  rewrite <- Nat.succ_le_mono, list_max_le, List.Forall_map. reflexivity.
Qed.

Lemma child_bound_self e : child_bound (list_max (map depth (elems e))) (elems e).
Proof. apply depth_child_bound. rewrite depth_elems. lia. Qed.

Lemma delete_effect d (es : list Element) idx el :
  child_bound d es -> es !! idx = Some el ->
  child_bound d (delete idx es) /\ S (length (delete idx es)) = length es.
Proof.
  intros Hb Hel. split; [apply Forall_delete, Hb|].
  rewrite length_delete by eauto.
  apply lookup_lt_Some in Hel. lia.
Qed.

Lemma total_remove_link d parent idx el :
  child_bound d (elems parent) ->
  elems parent !! idx = Some el ->
  total_with (remove_link parent idx el)
    (fun p' => child_bound d (elems p') /\ S (length (elems p')) = length (elems parent)).
Proof.
  intros Hb Hel. unfold remove_link.
  destruct (match tail el with
            | Some t => if truthy t
                        then match text el with
                             | Some x => Return (Some (x +:+ t))
                             | None => Raise TypeError
                             end
                        else Return (text el)
            | None => Return (text el)
            end) as [txt|e|] eqn:Htxt; simpl; [|exact I|].
  2:{ destruct (tail el) as [t|]; [destruct (truthy t)|]; destruct (text el); discriminate. }
  destruct (Nat.eqb idx 0).
  - destruct txt as [x|]; simpl; [|exact I].
    apply (delete_effect d _ idx el); assumption.
  - destruct (elems parent !! (idx - 1)) as [previous|] eqn:Hprev; simpl; [|exact I].
    destruct txt as [x|]; simpl; [|exact I].
    assert (Hins : child_bound d (<[idx - 1 := set_tail
                     (Some ((if truthy_opt (tail previous)
                             then default "" (tail previous) else "") +:+ x)) previous]>
                     (elems parent))).
    { apply Forall_insert; [exact Hb|]. rewrite depth_set_tail.
      exact (Forall_lookup_1 (fun c => depth c <= d) _ _ _ Hb Hprev). }
    assert (Hsome : is_Some (<[idx - 1 := set_tail
                     (Some ((if truthy_opt (tail previous)
                             then default "" (tail previous) else "") +:+ x)) previous]>
                     (elems parent) !! idx)).
    { apply list_lookup_insert_is_Some. eauto. }
    destruct Hsome as [el' Hel'].
    destruct (delete_effect d _ idx el' Hins Hel') as [H1 H2].
    split; [exact H1|]. rewrite H2. apply length_insert.
Qed.

Lemma total_video_sources strict links d idx el sources :
  forall parent removed done,
  elems parent !! idx = Some el \/ removed = true ->
  child_bound d sources -> child_bound d done ->
  total_M (video_sources strict links parent idx removed sources done)
    (fun r => child_bound d (fst (fst r)) /\
              ((snd r = removed /\ snd (fst r) = parent) \/
               (removed = false /\ snd r = true /\
                snd (fst r) = set_elems (delete idx (elems parent)) parent))).
Proof.
  induction sources as [|source rest IH]; intros parent removed done Hel Hs Hd; simpl.
  - apply total_ret. simpl. auto.
  - apply Forall_cons in Hs. destruct Hs as [Hsource Hrest].
    eapply total_bindM; [apply total_getitem|]. intros src _.
    assert (Hkeep : child_bound d (done ++ [source])).
    { apply Forall_app. split; [exact Hd|]. constructor; [exact Hsource|constructor]. }
    destruct (negb (startswith "http" src)); [|apply IH; assumption].
    destruct (links !! src) as [dst|].
    + apply IH; [assumption|assumption|].
      apply Forall_app. split; [exact Hd|].
      constructor; [|constructor]. rewrite depth_set_attrib. exact Hsource.
    + eapply total_bindM; [apply total_warn|]. intros _ _.
      eapply total_bindM; [apply total_print|]. intros _ _.
      destruct removed.
      * apply total_lift. exact I.
      * eapply total_weaken; [|apply IH; [right; reflexivity|assumption|assumption]].
        intros [[srcs p'] rm]. simpl. intros [Hb [[-> ->]|[[=] _]]].
        split; [exact Hb|]. right. auto.
Qed.

Lemma total_body strict links d parent idx :
  child_bound d (elems parent) ->
  total_M (body strict links parent idx) (round_effect d parent idx).
Proof.
  intros Hb. unfold body.
  destruct (elems parent !! idx) as [element|] eqn:Hel; [|apply total_lift; exact I].
  assert (Hdepth : depth element <= d)
    by exact (Forall_lookup_1 (fun c => depth c <= d) _ _ _ Hb Hel).
  assert (Hmoved : forall e', depth e' <= d ->
            round_effect d parent idx
              (set_elems (<[idx := e']> (elems parent)) parent, idx + 1)).
  { intros e' He'. split; simpl.
    - apply Forall_insert; assumption.
    - left. split; [reflexivity|]. apply length_insert. }
  assert (Hsame : round_effect d parent idx (parent, idx + 1)).
  { split; simpl; [exact Hb|]. left. auto. }
  assert (Hgone : round_effect d parent idx
                    (set_elems (delete idx (elems parent)) parent, idx)).
  { destruct (delete_effect d _ idx element Hb Hel) as [H1 H2].
    split; simpl; [exact H1|]. right. auto. }
  destruct (String.eqb (tag element) "a").
  { eapply total_bindM; [apply total_getitem|]. intros href _.
    destruct (negb (startswith "http" href)).
    - destruct (links !! href) as [dst|].
      + apply total_ret. apply Hmoved. rewrite depth_set_attrib. exact Hdepth.
      + eapply total_bindM; [apply total_warn|]. intros _ _.
        eapply total_bindM; [apply total_print|]. intros _ _.
        eapply total_bindM;
          [apply total_lift, (total_remove_link d parent idx element Hb Hel)|].
        intros p' [H1 H2]. apply total_ret. split; simpl; [exact H1|]. right. auto.
    - apply total_ret. apply Hmoved. rewrite depth_set_attrib. exact Hdepth. }
  destruct (String.eqb (tag element) "img").
  { eapply total_bindM; [apply total_getitem|]. intros src _.
    destruct (negb (startswith "http" src)); [|apply total_ret, Hsame].
    destruct (links !! src) as [dst|].
    - apply total_ret. apply Hmoved. rewrite depth_set_attrib. exact Hdepth.
    - eapply total_bindM; [apply total_warn|]. intros _ _.
      eapply total_bindM; [apply total_print|]. intros _ _.
      apply total_ret, Hgone. }
  destruct (String.eqb (tag element) "video"); [|apply total_ret, Hsame].
  eapply total_bindM.
  { apply (total_video_sources strict links (list_max (map depth (elems element)))
             idx element (elems element) parent false []).
    - left. exact Hel.
    - apply child_bound_self.
    - constructor. }
  intros [[sources parent'] removed]. simpl.
  intros [Hsrc [[-> ->]|[_ [-> ->]]]].
  - apply total_ret. apply Hmoved.
    etransitivity; [|exact Hdepth].
    rewrite (depth_elems element).
    apply (proj2 (depth_child_bound _ (set_elems sources element))). exact Hsrc.
  - apply total_ret, Hgone.
Qed.

Lemma total_while_loop strict links d fuel : forall parent idx,
  child_bound d (elems parent) ->
  length (elems parent) - idx <= fuel ->
  total_M (while_loop strict links fuel parent idx)
    (fun p' => child_bound d (elems p')).
Proof.
  induction fuel as [|fuel IH]; intros parent idx Hb Hfuel; simpl;
    destruct (Nat.ltb_spec idx (length (elems parent))) as [Hlt|Hge];
    try (apply total_ret; exact Hb).
  - lia.
  - eapply total_bindM; [apply (total_body strict links d parent idx Hb)|].
    intros [p' idx'] [Hb' Hstep]. simpl in *.
    apply IH; [exact Hb'|]. lia.
Qed.

Lemma total_mapM {A B} (f : A -> M B) (P : A -> Prop) (Q : B -> Prop) l :
  (forall a, P a -> total_M (f a) Q) ->
  Forall P l -> total_M (mapM f l) (Forall Q).
Proof.
  intros Hf. induction 1 as [|a l Ha Hl IH]; simpl.
  - apply total_ret. constructor.
  - eapply total_bindM; [apply Hf, Ha|]. intros b Hb.
    eapply total_bindM; [exact IH|]. intros bs Hbs.
    apply total_ret. constructor; assumption.
Qed.

Lemma total_iter strict links fuel : forall parent,
  depth parent <= fuel ->
  total_M (iter strict links fuel parent) (fun p' => depth p' <= fuel).
Proof.
  induction fuel as [|fuel IH]; intros parent Hd.
  - rewrite depth_elems in Hd. lia.
  - simpl. eapply total_bindM.
    + apply (total_while_loop strict links fuel (length (elems parent)) parent 0).
      * apply depth_child_bound. exact Hd.
      * lia.
    + intros p' Hb. simpl in Hb.
      eapply total_bindM.
      * apply (total_mapM _ (fun c => depth c <= fuel) (fun c => depth c <= fuel)).
        -- intros c Hc. apply IH. exact Hc.
        -- exact Hb.
      * intros es Hes. apply total_ret.
        apply (proj2 (depth_child_bound fuel (set_elems es p'))). exact Hes.
Qed.

(** On every tree, under either filter and from every warning state, the
    run of the resolver ends: in a tree or in an exception. The bounds of
    the model on the rounds of the loops are never what stops it; and the
    tree it returns is no deeper than the one it was given. *)
Theorem run_ends strict links root w :
  match run strict links root w with
  | Return (root', _) => depth root' <= depth root
  | Raise _ => True
  | OutOfFuel => False
  end.
Proof.
  pose proof (total_iter strict links (depth root) root (le_n _) w) as H.
  unfold run. destruct (iter strict links (depth root) root w) as [[r w']|e|]; exact H.
Qed.

(** ** What the walker's tables hold *)

Lemma children_of_cons k it items :
  children_of k (it :: items) =
  if String.eqb (stem (parent (fst it))) k && is_entry it
  then stem (fst it) :: children_of k items
  else children_of k items.
Proof.
  unfold children_of. simpl.
  destruct (String.eqb (stem (parent (fst it))) k); simpl; [|reflexivity].
  rewrite entry_names_cons. reflexivity.
Qed.

Lemma children_of_nil k : children_of k [] = [].
Proof. reflexivity. Qed.

Lemma walk_tables cfg items : forall st st',
  walk cfg items st = Return st' ->
  NoDup (entry_names items) ->
  (forall n, n ∈ entry_names items -> navigation st !! n = None) ->
  (forall k, k ∉ entry_names items -> pages st' !! k = pages st !! k) /\
  (forall it, it ∈ entries items -> pages st' !! stem (fst it) = Some (page_value it)) /\
  (forall k gp cs, navigation st !! k = Some (gp, cs) ->
     navigation st' !! k = Some (gp, cs ++ children_of k items)) /\
  (forall pre it post, items = pre ++ it :: post -> is_entry it = true ->
     navigation st' !! stem (fst it)
     = Some (Some (stem (parent (fst it))), children_of (stem (fst it)) post)).
Proof.
  induction items as [|it0 items IH]; intros st st' Hw Hnd Hfresh.
  - simpl in Hw. injection Hw as <-. split; [auto|]. split.
    + intros it Hit. inversion Hit.
    + split.
      * intros k gp cs Hk. rewrite children_of_nil, app_nil_r. exact Hk.
      * intros pre it post H. destruct pre; discriminate.
  - simpl in Hw.
    destruct (walk_item cfg st it0) as [st1| |] eqn:H1; simpl in Hw; try discriminate.
    rewrite entry_names_cons in Hnd, Hfresh.
    apply walk_item_Return in H1.
    destruct H1 as [(He & gp0 & cs0 & Hp & Hk & Hn & Hpg & Hm)|(He & Hn & Hpg & Hm)];
      rewrite He in Hnd, Hfresh.
    + apply NoDup_cons in Hnd. destruct Hnd as [Hnotin Hnd].
      assert (Hfresh1 : forall n, n ∈ entry_names items -> navigation st1 !! n = None).
      { intros n Hin'. rewrite Hn, nav_add_lookup.
        rewrite decide_False by (intros ->; contradiction).
        rewrite decide_False.
        - apply Hfresh. right. exact Hin'.
        - intros ->. assert (Hnone : navigation st !! stem (parent (fst it0)) = None)
            by (apply Hfresh; right; exact Hin'). congruence. }
      destruct (IH st1 st' Hw Hnd Hfresh1) as (P1 & P2 & N1 & N2).
      assert (Hpk : stem (parent (fst it0)) <> stem (fst it0)) by congruence.
      split; [|split; [|split]].
      * intros k Hk'. rewrite entry_names_cons, He in Hk'.
        apply not_elem_of_cons in Hk'. destruct Hk' as [Hne Hk'].
        rewrite (P1 k Hk'), Hpg. apply lookup_insert_ne. congruence.
      * intros it Hit. unfold entries in Hit. simpl in Hit. rewrite He in Hit.
        apply elem_of_cons in Hit. destruct Hit as [->|Hit].
        -- rewrite (P1 _ Hnotin), Hpg. apply lookup_insert_eq.
        -- apply P2. exact Hit.
      * intros k gp cs Hk'.
        assert (Hkne : k <> stem (fst it0)) by congruence.
        rewrite children_of_cons, He, andb_true_r.
        destruct (String.eqb_spec (stem (parent (fst it0))) k) as [<-|Hne].
        -- rewrite Hp in Hk'. injection Hk' as <- <-.
           rewrite (N1 _ gp0 (cs0 ++ [stem (fst it0)])).
           ++ rewrite <- app_assoc. reflexivity.
           ++ rewrite Hn, nav_add_lookup.
              rewrite decide_False by exact Hpk. rewrite decide_True by reflexivity.
              reflexivity.
        -- apply N1. rewrite Hn, nav_add_lookup.
           rewrite decide_False by exact Hkne.
           rewrite decide_False by congruence. exact Hk'.
      * intros pre it post Hsplit Hent. destruct pre as [|x pre].
        -- simpl in Hsplit. injection Hsplit as <- <-.
           rewrite (N1 _ (Some (stem (parent (fst it0)))) []).
           ++ reflexivity.
           ++ rewrite Hn, nav_add_lookup. rewrite decide_True by reflexivity. reflexivity.
        -- simpl in Hsplit. injection Hsplit as <- ->.
           apply (N2 pre it post eq_refl Hent).
    + assert (Hfresh1 : forall n, n ∈ entry_names items -> navigation st1 !! n = None).
      { rewrite Hn. exact Hfresh. }
      destruct (IH st1 st' Hw Hnd Hfresh1) as (P1 & P2 & N1 & N2).
      split; [|split; [|split]].
      * intros k Hk'. rewrite entry_names_cons, He in Hk'. rewrite (P1 k Hk'), Hpg. reflexivity.
      * intros it Hit. unfold entries in Hit. simpl in Hit. rewrite He in Hit.
        apply P2. exact Hit.
      * intros k gp cs Hk'. rewrite children_of_cons, He, andb_false_r.
        apply N1. rewrite Hn. exact Hk'.
      * intros pre it post Hsplit Hent. destruct pre as [|x pre].
        -- simpl in Hsplit. injection Hsplit as <- <-. congruence.
        -- simpl in Hsplit. injection Hsplit as <- ->.
           apply (N2 pre it post eq_refl Hent).
Qed.

Lemma walk_nav_keys cfg items : forall st st' k,
  walk cfg items st = Return st' ->
  is_Some (navigation st !! k) -> is_Some (navigation st' !! k).
Proof.
  induction items as [|it items IH]; intros st st' k Hw Hk; simpl in Hw.
  - injection Hw as <-. exact Hk.
  - destruct (walk_item cfg st it) as [st1| |] eqn:H1; simpl in Hw; try discriminate.
    apply (IH st1 st' k Hw).
    apply walk_item_Return in H1.
    destruct H1 as [(_ & gp & cs & _ & _ & Hn & _)|(_ & Hn & _)]; rewrite Hn; [|exact Hk].
    rewrite nav_add_lookup. repeat case_decide; eauto.
Qed.

Lemma children_of_app k a b :
  children_of k (a ++ b) = children_of k a ++ children_of k b.
Proof. unfold children_of. rewrite List.filter_app. apply entry_names_app. Qed.

(** No entry comes before the directory it lies in. *)
Lemma children_of_before cfg items : forall st st' k,
  walk cfg items st = Return st' ->
  navigation st' !! k = None ->
  children_of k items = [].
Proof.
  induction items as [|it items IH]; intros st st' k Hw Hk; [reflexivity|].
  simpl in Hw.
  destruct (walk_item cfg st it) as [st1| |] eqn:H1; simpl in Hw; try discriminate.
  rewrite children_of_cons, (IH st1 st' k Hw Hk).
  destruct (String.eqb_spec (stem (parent (fst it))) k) as [<-|Hne]; [|reflexivity].
  destruct (is_entry it) eqn:He; [|reflexivity]. exfalso.
  apply walk_item_Return in H1.
  destruct H1 as [(_ & gp & cs & Hp & _ & Hn & _)|(He' & _)]; [|congruence].
  assert (Hs : is_Some (navigation st' !! stem (parent (fst it)))).
  { apply (walk_nav_keys cfg items st1 st' _ Hw).
    rewrite Hn, nav_add_lookup. repeat case_decide; eauto. }
  rewrite Hk in Hs. destruct Hs as [? [=]].
Qed.

Lemma walk_app_Return cfg a b st st' :
  walk cfg (a ++ b) st = Return st' ->
  exists st1, walk cfg a st = Return st1 /\ walk cfg b st1 = Return st'.
Proof.
  rewrite walk_app. destruct (walk cfg a st) as [st1| |]; simpl; try discriminate.
  eauto.
Qed.

Lemma parse_tables cfg root tree :
  NoDup ("" :: entry_names (scan [root] tree)) ->
  exists st,
    parse_input_directory cfg [root] tree = Return st /\
    nav_tree (navigation st) /\
    dom (navigation st) = {[ "" ]} ∪ list_to_set (entry_names (scan [root] tree)) /\
    (forall it, it ∈ entries (scan [root] tree) ->
       pages st !! stem (fst it) = Some (page_value it) /\
       navigation st !! stem (fst it)
       = Some (Some (stem (parent (fst it))),
               children_of (stem (fst it)) (scan [root] tree))) /\
    (forall k, k ∉ entry_names (scan [root] tree) -> pages st !! k = None) /\
    navigation st !! "" = Some (None, children_of "" (scan [root] tree)) /\
    media st = map (fun it => (fst it, media_dst cfg (fst it)))
                 (media_files (scan [root] tree)).
Proof.
  intros Hnd0. pose proof Hnd0 as Hnd1.
  apply NoDup_cons in Hnd1. destruct Hnd1 as [Hroot Hnd].
  assert (Hfresh : forall n, n ∈ entry_names (scan [root] tree) ->
                             navigation walk_init !! n = None).
  { intros n Hn. simpl. apply lookup_singleton_None. intros <-. contradiction. }
  destruct (walk_unique cfg (scan [root] tree) [[]] walk_init
              (parents_first_scan root tree) known_in_init nav_tree_init Hnd Hfresh)
    as (st & Hw & Ht & Hdn & _ & Hmed).
  destruct (walk_tables cfg _ _ _ Hw Hnd Hfresh) as (P1 & P2 & N1 & N2).
  exists st. split; [exact Hw|]. split; [exact Ht|].
  split; [rewrite Hdn; simpl; rewrite dom_singleton_L; reflexivity|].
  split; [|split; [|split]].
  - intros it Hit. split; [apply P2, Hit|].
    assert (Hit' : In it (scan [root] tree) /\ is_entry it = true).
    { apply filter_In. apply list_elem_of_In. exact Hit. }
    destruct Hit' as [Hin He].
    apply in_split in Hin. destruct Hin as (pre & post & Hsplit).
    rewrite (N2 pre it post Hsplit He). f_equal. f_equal.
    rewrite Hsplit in Hw.
    destruct (walk_app_Return _ _ _ _ _ Hw) as (st1 & Hpre & Hrest).
    simpl in Hrest.
    destruct (walk_item cfg st1 it) as [st2| |] eqn:H1; simpl in Hrest; try discriminate.
    apply walk_item_Return in H1.
    destruct H1 as [(_ & gp & cs & Hp & Hk & _)|(He' & _)]; [|congruence].
    rewrite Hsplit, children_of_app, children_of_cons.
    rewrite (children_of_before cfg pre walk_init st1 _ Hpre Hk).
    destruct (String.eqb_spec (stem (parent (fst it))) (stem (fst it))) as [Heq|_];
      [congruence|reflexivity].
  - intros k Hk. rewrite (P1 k Hk). reflexivity.
  - rewrite (N1 "" None []); reflexivity.
  - exact Hmed.
Qed.

(** On a tree whose entries have names of their own, the tables of the
    walker hold exactly this. The pages table has one key for each entry
    and no other; a markdown page is stored with its own path as source
    and [urlize(stem).html] as output, a directory with its description
    file as source when it holds one and with [index.html] as output when
    it is the root, [urlize(stem).html] otherwise. The navigation table
    gives each entry the stem of the directory it lies in as parent, and
    as children the entries that lie under its name, in scan order; the
    root key lists the entries whose parent has no name. The media list
    holds the visible files that are no markdown, in scan order, each with
    its destination in the media directory. *)
Theorem walker_tables cfg root tree :
  parts_of root = [root] ->
  NoDup ("" :: entry_names (scan [root] tree)) ->
  exists st,
    parse_input_directory cfg [root] tree = Return st /\
    (forall it, it ∈ entries (scan [root] tree) ->
       pages st !! stem (fst it) = Some (page_value it) /\
       navigation st !! stem (fst it)
       = Some (Some (stem (parent (fst it))),
               children_of (stem (fst it)) (scan [root] tree))) /\
    (forall k, k ∉ entry_names (scan [root] tree) -> pages st !! k = None) /\
    navigation st !! "" = Some (None, children_of "" (scan [root] tree)) /\
    media st = map (fun it => (fst it, media_dst cfg (fst it)))
                 (media_files (scan [root] tree)).
Proof.
  intros _ Hnd. destruct (parse_tables cfg root tree Hnd) as (st & Hw & _ & _ & H).
  exists st. split; [exact Hw|exact H].
Qed.

Lemma walker_tables_witness :
  exists st,
    parse_input_directory cfg0 ["vault"] tree_site = Return st /\
    (forall it, it ∈ entries (scan ["vault"] tree_site) ->
       pages st !! stem (fst it) = Some (page_value it) /\
       navigation st !! stem (fst it)
       = Some (Some (stem (parent (fst it))),
               children_of (stem (fst it)) (scan ["vault"] tree_site))) /\
    (forall k, k ∉ entry_names (scan ["vault"] tree_site) -> pages st !! k = None) /\
    navigation st !! "" = Some (None, children_of "" (scan ["vault"] tree_site)) /\
    media st = map (fun it => (fst it, media_dst cfg0 (fst it)))
                 (media_files (scan ["vault"] tree_site)).
Proof.
  apply (walker_tables cfg0 "vault" tree_site); [reflexivity|].
  vm_compute. repeat (constructor; [set_solver|]). constructor.
Defined.

(** ** The link table, key by key *)

Lemma make_links_snoc pgs med m :
  make_links pgs (med ++ [m]) = <[name (fst m) := snd m]> (make_links pgs med).
Proof. unfold make_links. rewrite fold_left_app. reflexivity. Qed.

Lemma make_links_at pgs med k :
  make_links pgs med !! k =
  match last_media k med with
  | Some m => Some (snd m)
  | None => snd <$> pgs !! k
  end.
Proof.
  unfold last_media. induction med as [|m med IH] using rev_ind.
  - unfold make_links. simpl. apply lookup_fmap.
  - rewrite make_links_snoc, rev_app_distr. simpl.
    destruct (String.eqb_spec (name (fst m)) k) as [<-|Hne].
    + apply lookup_insert_eq.
    + rewrite lookup_insert_ne by exact Hne. exact IH.
Qed.

(** What a name resolves to: the destination of the last media file of
    that name when there is one, else the output path of the page of that
    name, else nothing. A media file hides a page of the same name. *)
Theorem make_links_lookup pgs med k :
  make_links pgs med !! k =
  match last_media k med with
  | Some m => Some (snd m)
  | None => snd <$> pgs !! k
  end.
Proof. apply make_links_at. Qed.

Lemma last_media_Some k med m :
  last_media k med = Some m -> m ∈ med /\ name (fst m) = k.
Proof.
  unfold last_media. intros H. apply find_some in H. destruct H as [Hin Hk].
  split.
  - apply list_elem_of_In. apply in_rev. exact Hin.
  - apply String.eqb_eq. exact Hk.
Qed.

Lemma last_media_None k med m :
  last_media k med = None -> m ∈ med -> name (fst m) <> k.
Proof.
  unfold last_media. intros H Hin.
  apply String.eqb_neq. apply (find_none _ _ H).
  apply in_rev. rewrite rev_involutive. apply list_elem_of_In. exact Hin.
Qed.

(** On a tree whose entries have names of their own, the link table built
    from the walker's tables resolves the file name of every visible media
    file to its place in the media directory, and the name of every entry
    that no media file shares to the output path of its page; a name that
    is neither resolves to nothing. *)
Theorem link_table_of_tree cfg root tree :
  parts_of root = [root] ->
  NoDup ("" :: entry_names (scan [root] tree)) ->
  exists st,
    parse_input_directory cfg [root] tree = Return st /\
    (forall m, m ∈ media_files (scan [root] tree) ->
       make_links (pages st) (media st) !! name (fst m)
       = Some (media_dst cfg (fst m))) /\
    (forall it, it ∈ entries (scan [root] tree) ->
       (forall m, m ∈ media_files (scan [root] tree) -> name (fst m) <> stem (fst it)) ->
       make_links (pages st) (media st) !! stem (fst it)
       = Some (snd (page_value it))) /\
    (forall k, k ∉ entry_names (scan [root] tree) ->
       (forall m, m ∈ media_files (scan [root] tree) -> name (fst m) <> k) ->
       make_links (pages st) (media st) !! k = None).
Proof.
  intros _ Hnd. destruct (parse_tables cfg root tree Hnd)
    as (st & Hw & _ & _ & Hent0 & Hnone & _ & Hmed).
  assert (Hent : forall it, it ∈ entries (scan [root] tree) ->
                            pages st !! stem (fst it) = Some (page_value it))
    by (intros it Hit; apply (Hent0 it Hit)).
  exists st. split; [exact Hw|].
  assert (Hmem : forall m, m ∈ media st <->
            exists it, it ∈ media_files (scan [root] tree) /\
                       m = (fst it, media_dst cfg (fst it))).
  { intros m. rewrite Hmed, list_elem_of_fmap. split; intros (it & H1 & H2); eauto. }
  split; [|split].
  - intros m Hm. rewrite make_links_at.
    destruct (last_media (name (fst m)) (media st)) as [m'|] eqn:Hl.
    + apply last_media_Some in Hl. destruct Hl as [Hin Hname].
      apply Hmem in Hin. destruct Hin as (it & _ & ->). simpl in *.
      f_equal. apply media_dst_name. exact Hname.
    + exfalso. apply (last_media_None _ _ (fst m, media_dst cfg (fst m)) Hl); [|reflexivity].
      apply Hmem. eauto.
  - intros it Hit Hno. rewrite make_links_at.
    destruct (last_media (stem (fst it)) (media st)) as [m'|] eqn:Hl.
    + apply last_media_Some in Hl. destruct Hl as [Hin Hname].
      apply Hmem in Hin. destruct Hin as (it' & Hit' & ->). simpl in Hname.
      exfalso. exact (Hno it' Hit' Hname).
    + rewrite (Hent it Hit). reflexivity.
  - intros k Hk Hno. rewrite make_links_at.
    destruct (last_media k (media st)) as [m'|] eqn:Hl.
    + apply last_media_Some in Hl. destruct Hl as [Hin Hname].
      apply Hmem in Hin. destruct Hin as (it' & Hit' & ->). simpl in Hname.
      exfalso. exact (Hno it' Hit' Hname).
    + rewrite (Hnone k Hk). reflexivity.
Qed.

Lemma link_table_of_tree_witness :
  exists st,
    parse_input_directory cfg0 ["vault"] tree_site = Return st /\
    (forall m, m ∈ media_files (scan ["vault"] tree_site) ->
       make_links (pages st) (media st) !! name (fst m)
       = Some (media_dst cfg0 (fst m))) /\
    (forall it, it ∈ entries (scan ["vault"] tree_site) ->
       (forall m, m ∈ media_files (scan ["vault"] tree_site) ->
                  name (fst m) <> stem (fst it)) ->
       make_links (pages st) (media st) !! stem (fst it)
       = Some (snd (page_value it))) /\
    (forall k, k ∉ entry_names (scan ["vault"] tree_site) ->
       (forall m, m ∈ media_files (scan ["vault"] tree_site) -> name (fst m) <> k) ->
       make_links (pages st) (media st) !! k = None).
Proof.
  apply (link_table_of_tree cfg0 "vault" tree_site); [reflexivity|].
  vm_compute. repeat (constructor; [set_solver|]). constructor.
Defined.

(** ** The navigation bar never misses a key *)

Lemma nav_row_Return links r :
  (forall x, x ∈ map fst r -> is_Some (links !! x)) ->
  exists h, nav_row links r = Return h.
Proof.
  induction r as [|[nm active] r IH]; intros Hk; simpl; [eauto|].
  destruct (Hk nm) as [dst Hdst]; [left|].
  destruct IH as [h Hh]; [intros x Hx; apply Hk; right; exact Hx|].
  unfold nav_entry, getitem. rewrite Hdst. simpl. rewrite Hh. simpl. eauto.
Qed.

Lemma nav_ul_Return links r :
  (forall x, x ∈ map fst r -> is_Some (links !! x)) ->
  exists h, nav_ul links r = Return h.
Proof.
  intros Hk. destruct (nav_row_Return links r Hk) as [h Hh].
  unfold nav_ul. rewrite Hh. simpl. eauto.
Qed.

Lemma nav_uls_Return links rs :
  Forall (fun r => forall x, x ∈ map fst r -> is_Some (links !! x)) rs ->
  exists h, nav_uls links rs = Return h.
Proof.
  induction 1 as [|r rs Hr _ IH]; simpl; [eauto|].
  destruct (nav_ul_Return links r Hr) as [h Hh]. destruct IH as [h' Hh'].
  rewrite Hh, Hh'. simpl. eauto.
Qed.

Lemma ancestors_loop_listed cfg nav fuel : forall a acc rows,
  ancestors_loop fuel cfg nav a acc = Return rows ->
  Forall (listed_row nav) acc -> Forall (listed_row nav) rows.
Proof.
  induction fuel as [|fuel IH]; intros [a|] acc rows; simpl;
    try (intros [= <-]; auto; fail).
  - destruct (truthy a && negb (String.eqb a (INPUT_DIRECTORY cfg)));
      [discriminate|intros [= <-]; auto].
  - destruct (truthy a && negb (String.eqb a (INPUT_DIRECTORY cfg)));
      [|intros [= <-]; auto].
    unfold getitem at 1. destruct (nav !! a) as [[gp cs]|]; simpl; [|discriminate].
    destruct gp as [g|]; simpl.
    + destruct (truthy g).
      * unfold getitem. destruct (nav !! g) as [[gg gcs]|] eqn:Hg; simpl; [|discriminate].
        intros H Hacc. apply (IH _ _ _ H). constructor; [|exact Hacc].
        intros x Hx. rewrite map_map in Hx. simpl in Hx. rewrite map_id in Hx. eauto.
      * intros H Hacc. apply (IH _ _ _ H). constructor; [|exact Hacc].
        intros x Hx. inversion Hx.
    + intros H Hacc. apply (IH _ _ _ H). constructor; [|exact Hacc].
      intros x Hx. inversion Hx.
Qed.

Lemma nav_tree_child_key nav g gp cs x :
  nav_tree nav -> nav !! g = Some (gp, cs) -> x ∈ cs ->
  x <> "" /\ is_Some (nav !! x).
Proof.
  intros Ht Hg Hx. destruct (nt_children _ Ht _ _ _ Hg) as [_ Hall].
  destruct (Hall x Hx) as [ccs Hc]. split; [|eauto].
  intros ->. destruct (nt_root _ Ht) as [cs0 H0]. congruence.
Qed.

Lemma make_navbar_returns_at set_iter cfg nm meta (nav : nav_table)
    (links : gmap string path) n :
  (forall s, set_iter s ≡ₚ elements s) ->
  nav_tree nav ->
  is_Some (nav !! nm) ->
  (forall k, k <> "" -> is_Some (nav !! k) -> is_Some (links !! k)) ->
  climb nav n nm = Some "" ->
  forall fuel, n <= fuel ->
    exists html nav', make_navbar set_iter fuel cfg nm meta nav links = Return (html, nav').
Proof.
  intros Hiter Ht [[parent children] Hnm] Hlinks Hn.
  assert (Hkey : forall g gp cs x, nav !! g = Some (gp, cs) -> x ∈ cs ->
                                   is_Some (links !! x)).
  { intros g gp cs x Hg Hx.
    destruct (nav_tree_child_key nav g gp cs x Ht Hg Hx) as [Hne Hs]. auto. }
  assert (Hrow : forall r, listed_row nav r ->
                           forall x, x ∈ map fst r -> is_Some (links !! x)).
  { intros r Hr x Hx. destruct (Hr x Hx) as (g & gp & cs & Hg & Hin). eauto. }
  (* the ancestors *)
  assert (Hanc : forall fuel, n <= fuel ->
            exists rows, navbar_ancestors fuel cfg nm nav = Return rows /\
                         Forall (listed_row nav) rows).
  { destruct (truthy_opt parent) eqn:Htp.
    2:{ intros fuel _. exists []. split; [|constructor].
        unfold navbar_ancestors, getitem. rewrite Hnm. simpl. rewrite Htp. reflexivity. }
    destruct parent as [p|]; [|discriminate]. simpl in Htp.
    destruct n as [|n'].
    { injection Hn as ->. destruct (nt_root _ Ht) as [cs0 H0]. congruence. }
    simpl in Hn. rewrite Hnm in Hn.
    destruct (ancestors_loop_rows cfg nav Ht n' p [] Hn) as (rows & Hrun & _).
    destruct (nt_listed _ Ht _ _ _ Hnm) as (gp & pcs & Hp & _).
    intros fuel Hle. assert (Hle' : n' <= fuel) by lia. exists rows.
    assert (Heq : navbar_ancestors fuel cfg nm nav = Return rows).
    { unfold navbar_ancestors, getitem at 1. rewrite Hnm. simpl.
      rewrite Htp. unfold getitem. rewrite Hp. simpl.
      rewrite Hrun by exact Hle'. rewrite app_nil_r. reflexivity. }
    split; [exact Heq|].
    specialize (Hrun fuel Hle'). rewrite app_nil_r in Hrun.
    apply (ancestors_loop_listed cfg nav fuel (Some p) [] rows Hrun). constructor. }
  intros fuel Hle.
  destruct (Hanc fuel Hle) as (rows & Hrows & Hlisted).
  (* the siblings *)
  assert (Hsib : exists siblings,
            (if truthy_opt parent
             then bind (getitem nav (default "" parent))
                    (fun pentry => Return (snd pentry))
             else Return []) = Return siblings /\
            forall x, x ∈ siblings -> is_Some (links !! x)).
  { destruct (truthy_opt parent) eqn:Htp.
    2:{ exists []. split; [reflexivity|]. intros x Hx. inversion Hx. }
    destruct parent as [p|]; [|discriminate].
    destruct (nt_listed _ Ht _ _ _ Hnm) as (gp & pcs & Hp & _).
    exists pcs. simpl. unfold getitem. rewrite Hp. split; [reflexivity|].
    intros x Hx. eauto. }
  destruct Hsib as (siblings & Hsib & Hsibk).
  (* the children *)
  set (children' := match children with
                    | [] => children
                    | _ => reorder_children set_iter children meta
                    end).
  assert (Hchi : forall x, x ∈ children' -> is_Some (links !! x)).
  { intros x Hx. apply (Hkey nm parent children x Hnm).
    unfold children' in Hx. destruct children as [|c cs]; [exact Hx|].
    unfold reorder_children in Hx.
    destruct (meta !! "children") as [declared|] eqn:Hd; [|exact Hx].
    rewrite <- (reorder_children_unfold set_iter _ meta declared Hd) in Hx.
    apply (reorder_children_elem set_iter Hiter _ _ _ _ Hd). exact Hx. }
  destruct (nav_uls_Return links rows) as [h1 Hh1].
  { eapply Forall_impl; [exact Hlisted|]. exact Hrow. }
  assert (Hh2 : exists h2,
            match siblings with
            | [] => Return ""
            | _ => nav_ul links (map (fun s => (s, String.eqb s nm)) siblings)
            end = Return h2).
  { destruct siblings as [|s ss]; [eauto|].
    apply nav_ul_Return. intros x Hx.
    rewrite map_map in Hx. simpl in Hx. rewrite map_id in Hx. auto. }
  destruct Hh2 as [h2 Hh2].
  assert (Hh3 : exists h3,
            match children' with
            | [] => Return ""
            | _ => nav_ul links (map (fun c => (c, false)) children')
            end = Return h3).
  { destruct children' as [|c cs] eqn:E; [eauto|].
    apply nav_ul_Return. intros x Hx.
    rewrite map_map in Hx. simpl in Hx. rewrite map_id in Hx. auto. }
  destruct Hh3 as [h3 Hh3].
  unfold make_navbar. unfold getitem at 1. rewrite Hnm. simpl.
  rewrite Hsib. simpl. rewrite Hrows. simpl. rewrite Hh1. simpl.
  rewrite Hh2. simpl. fold children'. rewrite Hh3. simpl. eauto.
Qed.

(** With a navigation table that is a tree and a link table that has
    every name of it, [make_navbar] returns for every page of the table,
    whatever its metadata: no lookup of a parent, a sibling, an ancestor
    or a child fails, and the loop over the ancestors ends. *)
Theorem make_navbar_returns set_iter cfg nm meta (nav : nav_table)
    (links : gmap string path) :
  (forall s, set_iter s ≡ₚ elements s) ->
  nav_tree nav ->
  is_Some (nav !! nm) ->
  (forall k, k <> "" -> is_Some (nav !! k) -> is_Some (links !! k)) ->
  exists n, forall fuel, n <= fuel ->
    exists html nav', make_navbar set_iter fuel cfg nm meta nav links = Return (html, nav').
Proof.
  intros Hiter Ht Hnm Hlinks.
  destruct (nt_rooted _ Ht nm Hnm) as [n Hn]. exists n.
  exact (make_navbar_returns_at set_iter cfg nm meta nav links n Hiter Ht Hnm Hlinks Hn).
Qed.

Lemma make_navbar_table set_iter fuel cfg nm meta (nav : nav_table) links html nav' :
  make_navbar set_iter fuel cfg nm meta nav links = Return (html, nav') ->
  exists parent children,
    nav !! nm = Some (parent, children) /\
    nav' =
      match children with
      | [] => nav
      | _ => <[nm := (parent, reorder_children set_iter children meta)]> nav
      end.
Proof.
  unfold make_navbar. intros H.
  apply bind_Return in H. destruct H as ([parent children] & Hnm & H).
  unfold getitem in Hnm. destruct (nav !! nm) as [v|] eqn:E; [|discriminate].
  injection Hnm as ->.
  exists parent, children. split; [reflexivity|]. simpl in H.
  apply bind_Return in H. destruct H as (siblings & _ & H).
  apply bind_Return in H. destruct H as (ancestors & _ & H).
  apply bind_Return in H. destruct H as (h1 & _ & H).
  apply bind_Return in H. destruct H as (h2 & _ & H).
  apply bind_Return in H. destruct H as (h3 & _ & H).
  injection H as _ <-. destruct children; reflexivity.
Qed.

Lemma reorder_children_perm set_iter children meta :
  (forall s, set_iter s ≡ₚ elements s) ->
  (forall declared, meta !! "children" = Some declared -> NoDup declared) ->
  NoDup children ->
  reorder_children set_iter children meta ≡ₚ children.
Proof.
  intros Hiter Hmeta Hnd. unfold reorder_children.
  destruct (meta !! "children") as [declared|] eqn:Hd; [|reflexivity].
  apply NoDup_Permutation; [|exact Hnd|].
  - rewrite <- (reorder_children_unfold set_iter children meta declared Hd).
    apply (reorder_children_NoDup set_iter Hiter _ _ _ Hd). apply Hmeta. reflexivity.
  - intros x.
    rewrite <- (reorder_children_unfold set_iter children meta declared Hd).
    apply (reorder_children_elem set_iter Hiter _ _ _ _ Hd).
Qed.


(** ** The listing of the children *)

Lemma listing_entry_outcome links cm :
  match listing_entry links cm with
  | Return _ => forall k, k ∈ listing_keys cm -> is_Some (links !! k)
  | Raise (KeyError k) => k ∈ listing_keys cm /\ links !! k = None
  | _ => False
  end.
Proof.
  unfold listing_entry, listing_keys, getitem.
  destruct (links !! pm_name cm) as [dst|] eqn:Hn; simpl.
  - destruct (truthy (pm_header cm)); simpl.
    + destruct (links !! pm_header cm) as [hdst|] eqn:Hh; simpl.
      * intros k Hk. apply elem_of_cons in Hk. destruct Hk as [->|Hk]; [eauto|].
        apply list_elem_of_singleton in Hk. subst k. eauto.
      * split; [right; left|exact Hh].
    + intros k Hk. apply list_elem_of_singleton in Hk. subst k. eauto.
  - split; [left|exact Hn].
Qed.

Lemma listing_entries_outcome links cms :
  match listing_entries links cms with
  | Return _ => forall k, k ∈ flat_map listing_keys cms -> is_Some (links !! k)
  | Raise (KeyError k) => k ∈ flat_map listing_keys cms /\ links !! k = None
  | _ => False
  end.
Proof.
  induction cms as [|cm cms IH]; cbn [listing_entries flat_map].
  - intros k Hk. inversion Hk.
  - pose proof (listing_entry_outcome links cm) as H1.
    destruct (listing_entry links cm) as [e|[]|]; cbn [bind]; try contradiction.
    + destruct (listing_entries links cms) as [h|[]|]; cbn [bind]; try contradiction.
      * intros k Hk. apply elem_of_app in Hk. destruct Hk; auto.
      * destruct IH as [Hin Hnone]. split; [|exact Hnone].
        apply elem_of_app. right. exact Hin.
    + destruct H1 as [Hin Hnone]. split; [|exact Hnone].
      apply elem_of_app. left. exact Hin.
Qed.

(** [make_children_listing] looks up the name of every child and every
    header image that is not empty: it returns when the link table has
    them all, and else raises the KeyError of one it has not; it ends in
    nothing else. *)
Theorem children_listing_outcome links children_meta :
  match make_children_listing links children_meta with
  | Return _ =>
      forall k, k ∈ flat_map listing_keys children_meta -> is_Some (links !! k)
  | Raise (KeyError k) =>
      k ∈ flat_map listing_keys children_meta /\ links !! k = None
  | _ => False
  end.
Proof.
  unfold make_children_listing.
  pose proof (listing_entries_outcome links children_meta) as H.
  destruct (listing_entries links children_meta) as [h|[]|]; simpl; exact H.
Qed.

Lemma children_listing_returns links cms :
  (forall k, k ∈ flat_map listing_keys cms -> is_Some (links !! k)) ->
  exists html, make_children_listing links cms = Return html.
Proof.
  intros Hk. unfold make_children_listing.
  pose proof (listing_entries_outcome links cms) as H.
  destruct (listing_entries links cms) as [h|[]|]; simpl; try contradiction; eauto.
  destruct H as [Hin Hnone]. destruct (Hk _ Hin) as [v Hv]. congruence.
Qed.

(** ** The tree below a page *)

Lemma climb_ext nav nav' :
  same_parents nav nav' -> forall n k, climb nav' n k = climb nav n k.
Proof.
  intros Hs. induction n as [|n IH]; intros k; simpl; [reflexivity|].
  specialize (Hs k).
  destruct (nav !! k) as [[p cs]|], (nav' !! k) as [[p' cs']|];
    simpl in Hs; try discriminate; [|reflexivity].
  injection Hs as ->. destruct p; auto.
Qed.

Lemma same_parents_refl nav : same_parents nav nav.
Proof. intros k. reflexivity. Qed.

Lemma same_parents_trans a b c :
  same_parents a b -> same_parents b c -> same_parents a c.
Proof. intros H1 H2 k. rewrite H2. apply H1. Qed.

Lemma same_parents_key nav nav' k :
  same_parents nav nav' -> is_Some (nav' !! k) <-> is_Some (nav !! k).
Proof.
  intros Hs. specialize (Hs k).
  destruct (nav !! k), (nav' !! k); simpl in Hs; try discriminate;
    split; intros [? ?]; try discriminate; eauto.
Qed.

Lemma same_parents_parent nav nav' k p cs :
  same_parents nav nav' -> nav !! k = Some (p, cs) ->
  exists cs', nav' !! k = Some (p, cs').
Proof.
  intros Hs Hk. specialize (Hs k). rewrite Hk in Hs.
  destruct (nav' !! k) as [[p' cs']|]; simpl in Hs; [|discriminate].
  injection Hs as ->. eauto.
Qed.

Lemma same_parents_insert (nav : nav_table) k p cs cs' :
  nav !! k = Some (p, cs) -> same_parents nav (<[k := (p, cs')]> nav).
Proof.
  intros Hk j. destruct (decide (j = k)) as [->|Hne].
  - rewrite lookup_insert_eq, Hk. reflexivity.
  - rewrite lookup_insert_ne by congruence. reflexivity.
Qed.

Lemma below_ext nav nav' a k :
  same_parents nav nav' -> below nav' a k <-> below nav a k.
Proof.
  intros Hs. unfold below. split; intros [m Hm]; exists m.
  - rewrite <- (climb_ext _ _ Hs). exact Hm.
  - rewrite (climb_ext _ _ Hs). exact Hm.
Qed.

Lemma climb_root_unique nav : nav_tree nav ->
  forall n m k, climb nav n k = Some "" -> climb nav m k = Some "" -> n = m.
Proof.
  intros Ht. destruct (nt_root _ Ht) as [cs0 H0].
  induction n as [|n IH]; intros [|m] k; simpl; auto.
  - intros [= ->]. rewrite H0. discriminate.
  - intros Hn [= ->]. rewrite H0 in Hn. discriminate.
  - destruct (nav !! k) as [[[p|] cs]|]; try discriminate.
    intros Hn Hm. f_equal. eapply IH; eauto.
Qed.

Lemma climb_trans nav n m k a b :
  climb nav n k = Some a -> climb nav m a = Some b -> climb nav (n + m) k = Some b.
Proof. intros Hn Hm. rewrite climb_add, Hn. exact Hm. Qed.

Lemma below_cases nav a k :
  below nav a k <->
  k = a \/ exists c cs, nav !! c = Some (Some a, cs) /\ below nav c k.
Proof.
  split.
  - intros [m Hm]. revert k Hm. induction m as [|m IH]; intros k; simpl.
    + intros [= ->]. left. reflexivity.
    + destruct (nav !! k) as [[[p|] cs]|] eqn:Hk; try discriminate.
      intros Hm. right. destruct (IH _ Hm) as [->|(c & ccs & Hc & [j Hj])].
      * exists k, cs. split; [exact Hk|]. exists 0. reflexivity.
      * exists c, ccs. split; [exact Hc|]. exists (S j). simpl. rewrite Hk. exact Hj.
  - intros [->|(c & cs & Hc & [j Hj])].
    + exists 0. reflexivity.
    + exists (j + 1). apply (climb_trans _ _ _ _ c); [exact Hj|].
      simpl. rewrite Hc. reflexivity.
Qed.

Lemma child_is_key nav c a cs :
  nav_tree nav -> nav !! c = Some (Some a, cs) -> c <> "" /\ is_Some (nav !! a).
Proof.
  intros Ht Hc. destruct (nt_root _ Ht) as [cs0 H0].
  assert (Hne : c <> "") by (intros ->; congruence).
  split; [exact Hne|].
  destruct (nt_parent _ Ht c Hne (ex_intro _ _ Hc)) as (p & cs' & Hc' & Hp).
  rewrite Hc in Hc'. injection Hc' as -> _. exact Hp.
Qed.

Lemma subtrees_disjoint nav a c1 cs1 c2 cs2 k :
  nav_tree nav ->
  nav !! c1 = Some (Some a, cs1) -> nav !! c2 = Some (Some a, cs2) ->
  below nav c1 k -> below nav c2 k -> c1 = c2.
Proof.
  intros Ht H1 H2 [m1 Hm1] [m2 Hm2].
  destruct (child_is_key _ _ _ _ Ht H1) as [_ Ha].
  destruct (nt_rooted _ Ht a Ha) as [d Hd].
  assert (D1 : climb nav (m1 + S d) k = Some "").
  { apply (climb_trans _ _ _ _ c1); [exact Hm1|]. simpl. rewrite H1. exact Hd. }
  assert (D2 : climb nav (m2 + S d) k = Some "").
  { apply (climb_trans _ _ _ _ c2); [exact Hm2|]. simpl. rewrite H2. exact Hd. }
  pose proof (climb_root_unique _ Ht _ _ _ D1 D2) as E.
  assert (m1 = m2) by lia. subst m2. congruence.
Qed.

Lemma not_below_child nav a c cs :
  nav_tree nav -> nav !! c = Some (Some a, cs) -> ~ below nav c a.
Proof.
  intros Ht Hc [m Hm].
  destruct (child_is_key _ _ _ _ Ht Hc) as [_ Ha].
  destruct (nt_rooted _ Ht a Ha) as [d Hd].
  assert (D : climb nav (m + S d) a = Some "").
  { apply (climb_trans _ _ _ _ c); [exact Hm|]. simpl. rewrite Hc. exact Hd. }
  pose proof (climb_root_unique _ Ht _ _ _ D Hd). lia.
Qed.

Lemma depth_bound_list nav (l : list string) : nav_tree nav ->
  exists N, 0 < N /\ forall k, k ∈ l -> forall n, climb nav n k = Some "" -> n < N.
Proof.
  intros Ht. induction l as [|k l (N & HN & IH)].
  - exists 1. split; [lia|]. intros k Hk. inversion Hk.
  - destruct (nav !! k) as [v|] eqn:Hk.
    + destruct (nt_rooted _ Ht k (ex_intro _ _ Hk)) as [d Hd].
      exists (N `max` S d). split; [lia|].
      intros j Hj n Hn. apply elem_of_cons in Hj. destruct Hj as [->|Hj].
      * rewrite (climb_root_unique _ Ht _ _ _ Hn Hd). lia.
      * specialize (IH j Hj n Hn). lia.
    + exists N. split; [exact HN|].
      intros j Hj n Hn. apply elem_of_cons in Hj. destruct Hj as [->|Hj].
      * destruct n as [|n]; [lia|]. simpl in Hn. rewrite Hk in Hn. discriminate.
      * exact (IH j Hj n Hn).
Qed.

Lemma depth_bound nav : nav_tree nav ->
  exists N, forall k n, climb nav n k = Some "" -> n < N.
Proof.
  intros Ht. destruct (depth_bound_list nav (elements (dom nav)) Ht) as (N & HN & H).
  exists N. intros k [|n] Hn; [exact HN|].
  apply (H k); [|exact Hn].
  apply elem_of_elements, elem_of_dom. simpl in Hn.
  destruct (nav !! k); [eauto|discriminate].
Qed.

(** ** Generating the pages below a page *)

Lemma item0_returns vs : vs <> [] -> exists v rest, vs = v :: rest /\ item0 vs = Return v.
Proof. destruct vs as [|v rest]; [congruence|]. intros _. eauto. Qed.

Lemma meta_first_returns links meta key dflt :
  meta_ok links meta -> exists s, meta_first meta key dflt = Return s.
Proof.
  intros (Hne & _). unfold meta_first.
  destruct (meta !! key) as [vs|] eqn:Hk; [|eauto].
  destruct (item0_returns vs (Hne _ _ Hk)) as (v & rest & _ & ->). eauto.
Qed.

Lemma meta_header_known links meta header :
  meta_ok links meta -> meta_first meta "header" "" = Return header ->
  truthy header = true -> is_Some (links !! header).
Proof.
  intros (_ & Hh & _). unfold meta_first.
  destruct (meta !! "header") as [[|h rest]|] eqn:Hk; simpl.
  - discriminate.
  - intros [= ->] _. exact (Hh _ _ eq_refl).
  - intros [= <-]. discriminate.
Qed.

Lemma header_img_returns links meta :
  meta_ok links meta -> exists h, header_img links meta = Return h.
Proof.
  intros (Hne & Hh & _). unfold header_img.
  destruct (meta !! "header") as [hs|] eqn:Hk; [|eauto].
  destruct (item0_returns hs (Hne _ _ Hk)) as (h & rest & -> & ->). simpl.
  destruct (Hh _ _ eq_refl) as [hdst Hd]. unfold getitem. rewrite Hd. simpl.
  destruct (meta !! "header-caption") as [cs|] eqn:Hc; simpl; [|eauto].
  destruct (item0_returns cs (Hne _ _ Hc)) as (c & rest' & -> & ->). simpl. eauto.
Qed.

Lemma meta_ok_empty links : meta_ok links ∅.
Proof.
  split; [|split]; intros *; rewrite lookup_empty; discriminate.
Qed.

Section Generation.

Variable order : list string -> list string -> gset string -> list string.
Hypothesis order_elements : forall a b s, order a b s ≡ₚ elements s.
Variable fs : file_system.
Hypothesis fs_writes : forall tr p html, fs tr (WriteFile p html) = None.
Variable cfg : Config.
Variable site : Site.
Variable convert : path -> outcome (string * gmap string (list string)).
Variable format : Fields -> outcome string.
Variable pgs : gmap string (option path * path).
Variable links : gmap string path.

Hypothesis convert_ok : forall k p out,
  pgs !! k = Some (Some p, out) ->
  exists html meta, convert p = Return (html, meta) /\ meta_ok links meta.
Hypothesis format_ok : forall f, exists s, format f = Return s.

Local Abbreviation gen := (generate_page order fs cfg site convert format pgs links).

Lemma wrote_refl g : wrote site pgs g g [] [].
Proof.
  split; [exists []|]; simpl; rewrite app_nil_r; auto using Forall2_nil.
Qed.

Lemma wrote_trans g1 g2 g3 o1 p1 o2 p2 :
  wrote site pgs g1 g2 o1 p1 -> wrote site pgs g2 g3 o2 p2 ->
  wrote site pgs g1 g3 (o1 ++ o2) (p1 ++ p2).
Proof.
  intros [(n1 & Hw1 & Hm1) Hs1] [(n2 & Hw2 & Hm2) Hs2]. split.
  - exists (n1 ++ n2). rewrite Hw2, Hw1, <- app_assoc. split; [reflexivity|].
    apply Forall2_app; assumption.
  - rewrite Hs2, Hs1, <- app_assoc, map_app. reflexivity.
Qed.

Lemma children_loop fuel N r :
  (forall nm g d,
      nav_tree (g_navigation g) -> covered pgs links (g_navigation g) ->
      (forall k n, climb (g_navigation g) n k = Some "" -> n < N) ->
      nm <> "" -> climb (g_navigation g) d nm = Some "" -> N <= d + r ->
      exists res, gen fuel nm g = Return res /\ generated site pgs links nm g res) ->
  forall cs g nm d,
    nav_tree (g_navigation g) -> covered pgs links (g_navigation g) ->
    (forall k n, climb (g_navigation g) n k = Some "" -> n < N) ->
    climb (g_navigation g) d nm = Some "" -> N <= S d + r ->
    (forall c, c ∈ cs -> exists ccs, g_navigation g !! c = Some (Some nm, ccs)) ->
    NoDup cs ->
    exists pms g',
      for_each (gen fuel) cs g = Return (pms, g') /\
      (forall k, k ∈ flat_map listing_keys pms -> is_Some (links !! k)) /\
      nav_tree (g_navigation g') /\
      same_parents (g_navigation g) (g_navigation g') /\
      exists order printed,
        wrote site pgs g g' order printed /\ printed ≡ₚ order /\ NoDup order /\
        forall k, k ∈ order <-> exists c, c ∈ cs /\ below (g_navigation g) c k.
Proof.
  intros IH. induction cs as [|c cs IHcs]; intros g nm d Ht Hcov HN Hd Hr Hcs Hnd.
  - exists [], g. split; [reflexivity|]. split; [intros k Hk; inversion Hk|].
    split; [exact Ht|]. split; [apply same_parents_refl|].
    exists [], []. split; [apply wrote_refl|]. split; [reflexivity|].
    split; [constructor|].
    intros k. split; [intros Hk; inversion Hk|intros (c & Hc & _); inversion Hc].
  - destruct (Hcs c) as [ccs Hc]; [left|].
    destruct (child_is_key _ _ _ _ Ht Hc) as [Hc0 _].
    assert (Hdc : climb (g_navigation g) (S d) c = Some "")
      by (simpl; rewrite Hc; exact Hd).
    destruct (IH c g (S d) Ht Hcov HN Hc0 Hdc Hr)
      as ([pm g1] & Hrun & Hpm & Hkeys & Ht1 & Hs1 & o1 & p1 & Hw1 & Hp1 & Hnd1 & Ho1).
    cbn [fst snd] in *.
    apply NoDup_cons in Hnd. destruct Hnd as [Hcnot Hnd].
    destruct (IHcs g1 nm d)
      as (pms & g' & Hrun' & Hkeys' & Ht' & Hs' & o2 & p2 & Hw2 & Hp2 & Hnd2 & Ho2).
    + exact Ht1.
    + intros k Hk0 Hk. apply Hcov; [exact Hk0|].
      apply (same_parents_key _ _ k Hs1). exact Hk.
    + intros k n Hn. rewrite (climb_ext _ _ Hs1) in Hn. eauto.
    + rewrite (climb_ext _ _ Hs1). exact Hd.
    + exact Hr.
    + intros c' Hc'. destruct (Hcs c') as [ccs' Hcc]; [right; exact Hc'|].
      apply (same_parents_parent _ _ _ _ _ Hs1 Hcc).
    + exact Hnd.
    + exists (pm :: pms), g'. cbn [for_each]. rewrite Hrun. cbn [bind fst snd].
      rewrite Hrun'. cbn [bind fst snd].
      split; [reflexivity|].
      split.
      { intros k Hk. cbn [flat_map] in Hk. apply elem_of_app in Hk.
        destruct Hk; auto. }
      split; [exact Ht'|].
      split; [exact (same_parents_trans _ _ _ Hs1 Hs')|].
      exists (o1 ++ o2), (p1 ++ p2).
      split; [exact (wrote_trans _ _ _ _ _ _ _ Hw1 Hw2)|].
      split; [rewrite Hp1, Hp2; reflexivity|].
      assert (Hin2 : forall k, k ∈ o2 <->
                exists c', c' ∈ cs /\ below (g_navigation g) c' k).
      { intros k. rewrite Ho2. split; intros (c' & Hc' & Hb); exists c';
          (split; [exact Hc'|]); apply (below_ext _ _ c' k Hs1); exact Hb. }
      split.
      { apply NoDup_app. split; [exact Hnd1|]. split; [|exact Hnd2].
        intros k Hk1 Hk2. apply Ho1 in Hk1. apply Hin2 in Hk2.
        destruct Hk2 as (c' & Hc' & Hb).
        destruct (Hcs c') as [ccs' Hcc]; [right; exact Hc'|].
        apply Hcnot.
        rewrite (subtrees_disjoint _ _ _ _ _ _ _ Ht Hc Hcc Hk1 Hb). exact Hc'. }
      intros k. rewrite elem_of_app, Ho1, Hin2. split.
      * intros [Hb|(c' & Hc' & Hb)]; [exists c; split; [left|exact Hb]|].
        exists c'. split; [right; exact Hc'|exact Hb].
      * intros (c' & Hc' & Hb). apply elem_of_cons in Hc'.
        destruct Hc' as [->|Hc']; [left; exact Hb|right; eauto].
Qed.

Lemma generate_page_level N : forall r fuel nm g d,
  nav_tree (g_navigation g) -> covered pgs links (g_navigation g) ->
  (forall k n, climb (g_navigation g) n k = Some "" -> n < N) ->
  nm <> "" -> climb (g_navigation g) d nm = Some "" ->
  N <= d + r -> N + r <= fuel ->
  exists res, gen fuel nm g = Return res /\ generated site pgs links nm g res.
Proof.
  induction r as [|r IHr]; intros fuel nm g d Ht Hcov HN Hnm Hd Hr Hfuel.
  { specialize (HN _ _ Hd). lia. }
  destruct fuel as [|fuel']; [lia|].
  assert (Hkey : is_Some (g_navigation g !! nm)).
  { destruct d as [|d']; simpl in Hd; [congruence|].
    destruct (g_navigation g !! nm); [eauto|discriminate]. }
  destruct (Hcov nm Hnm Hkey) as [[[mp out] Hpage] [dst Hdst]].
  assert (Hmeta : exists content meta,
            match mp with Some p => convert p | None => Return ("", ∅) end
            = Return (content, meta) /\ meta_ok links meta).
  { destruct mp as [p|]; [exact (convert_ok _ _ _ Hpage)|].
    exists "", ∅. split; [reflexivity|apply meta_ok_empty]. }
  destruct Hmeta as (content & meta & Hconv & Hmok).
  destruct (header_img_returns links meta Hmok) as [himg Himg].
  destruct (meta_first_returns links meta "title"
              (if String.eqb (name dst) "index.html" then "home" else nm) Hmok)
    as [title Htitle].
  destruct (meta_first_returns links meta "description" "" Hmok) as [descr Hdescr].
  destruct (meta_first_returns links meta "header" "" Hmok) as [header Hheader].
  (* the navigation bar *)
  assert (Hlinks : forall k, k <> "" -> is_Some (g_navigation g !! k) ->
                             is_Some (links !! k)) by (intros; apply Hcov; auto).
  assert (Hdfuel : d <= S fuel') by (specialize (HN _ _ Hd); lia).
  set (it1 := order (children_at (g_navigation g) nm) (declared_children meta)).
  destruct (make_navbar_returns_at it1 cfg nm meta (g_navigation g) links d
              (order_elements _ _) Ht Hkey Hlinks Hd (S fuel') Hdfuel)
    as (nav_html & nav1 & Hnb).
  destruct (make_navbar_table _ _ _ _ _ _ _ _ _ Hnb)
    as (parent & children & Hentry & Hnav1).
  destruct (nt_children _ Ht _ _ _ Hentry) as [Hcnd Hcall].
  destruct Hmok as (Hmne & Hmh & Hmc).
  assert (Hmok : meta_ok links meta) by (split; [|split]; assumption).
  assert (H1 : exists children1,
            nav1 !! nm = Some (parent, children1) /\ children1 ≡ₚ children /\
            nav_tree nav1 /\ same_parents (g_navigation g) nav1).
  { destruct children as [|c children'].
    - exists []. subst nav1. split; [exact Hentry|]. split; [reflexivity|].
      split; [exact Ht|apply same_parents_refl].
    - exists (reorder_children it1 (c :: children') meta). subst nav1.
      assert (Hp : reorder_children it1 (c :: children') meta ≡ₚ c :: children')
        by (apply reorder_children_perm; [apply order_elements|assumption..]).
      split; [apply lookup_insert_eq|]. split; [exact Hp|].
      split; [exact (nav_tree_permute _ _ _ _ _ Ht Hentry Hp)|].
      exact (same_parents_insert _ _ _ _ _ Hentry). }
  destruct H1 as (children1 & Hentry1 & Hperm1 & Ht1 & Hs1).
  set (it2 := order children1 (declared_children meta)).
  assert (Hperm2 : reorder_children it2 children1 meta ≡ₚ children1).
  { apply reorder_children_perm; [apply order_elements|exact Hmc|].
    rewrite Hperm1. exact Hcnd. }
  set (g1 := g_set_navigation nav1 (g_print ("Generating " +:+ nm) g)).
  destruct (children_loop fuel' N r) with (cs := reorder_children it2 children1 meta)
      (g := g1) (nm := nm) (d := d)
    as (pms & g2 & Hrun & Hkeys & Ht2 & Hs2 & oc & pc & Hw & Hpc & Hndc & Hoc).
  { intros nm' g' d' ? ? ? ? ? ?. apply (IHr fuel' nm' g' d'); auto. lia. }
  { exact Ht1. }
  { intros k Hk0 Hk. apply Hcov; [exact Hk0|].
    apply (same_parents_key _ _ k Hs1). exact Hk. }
  { intros k n Hn. simpl in Hn. rewrite (climb_ext _ _ Hs1) in Hn. eauto. }
  { simpl. rewrite (climb_ext _ _ Hs1). exact Hd. }
  { lia. }
  { intros c Hc. rewrite Hperm2 in Hc.
    destruct (nt_children _ Ht1 _ _ _ Hentry1) as [_ Hall]. exact (Hall c Hc). }
  { rewrite Hperm2, Hperm1. exact Hcnd. }
  destruct (children_listing_returns links pms Hkeys) as [listing Hlisting].
  assert (Hloop : exists chtml,
            match reorder_children it2 children1 meta with
            | [] => Return ("", g1)
            | _ :: _ =>
                bind (for_each (gen fuel') (reorder_children it2 children1 meta) g1)
                  (fun r0 => bind (make_children_listing links (fst r0))
                               (fun html => Return (html, snd r0)))
            end = Return (chtml, g2)).
  { destruct (reorder_children it2 children1 meta) as [|c cs].
    - simpl in Hrun. injection Hrun as _ <-. eauto.
    - rewrite Hrun. cbn [bind fst snd]. rewrite Hlisting. cbn [bind]. eauto. }
  destruct Hloop as [chtml Hloop].
  destruct (format_ok {| F_SITE_NAME := SITE_NAME site;
                         F_SITE_URL := SITE_URL site;
                         PAGE_TITLE := title;
                         PAGE_DESCRIPTION := descr;
                         NAV_HTML := nav_html;
                         HEADER_IMG_HTML := himg;
                         CONTENT_HTML := content;
                         CHILDREN_HTML := chtml |}) as [res Hres].
  set (g3 := {| g_navigation := g_navigation g2;
                g_events := g_events g2 ++
                            [WriteFile (joinpath (parts_of (OUTPUT_DIRECTORY site)) out) res];
                g_stdout := g_stdout g2 |}).
  assert (Hwrite : write_html fs site res out g2 = Return g3).
  { unfold write_html, fs_do. rewrite fs_writes. reflexivity. }
  exists ({| pm_name := nm; pm_title := title;
             pm_description := descr; pm_header := header |}, g3).
  split.
  { cbn [generate_page]. unfold getitem at 1. rewrite Hpage. cbn [bind fst snd].
    unfold getitem at 1. rewrite Hdst. cbn [bind]. rewrite Hconv. cbn [bind fst snd].
    rewrite Himg. cbn [bind]. rewrite Htitle. cbn [bind].
    cbn [g_print g_navigation]. fold it1. rewrite Hnb. cbn [bind fst snd].
    fold g1. change (g_navigation g1) with nav1.
    unfold getitem at 1. rewrite Hentry1. cbn [bind fst snd]. fold it2.
    rewrite Hloop. cbn [bind fst snd]. rewrite Hdescr. cbn [bind].
    rewrite Hres. cbn [bind]. rewrite Hwrite. cbn [bind]. rewrite Hheader. reflexivity. }
  split; [reflexivity|]. cbn [fst snd].
  split.
  { intros k Hk. unfold listing_keys in Hk. cbn [pm_name pm_header] in Hk.
    apply elem_of_cons in Hk. destruct Hk as [->|Hk]; [eauto|].
    destruct (truthy header) eqn:Hth; [|inversion Hk].
    apply list_elem_of_singleton in Hk. subst k.
    exact (meta_header_known links meta header Hmok Hheader Hth). }
  split; [exact Ht2|].
  split; [exact (same_parents_trans _ _ _ Hs1 Hs2)|].
  exists (oc ++ [nm]), (nm :: pc).
  assert (Hinc : forall k, k ∈ oc <->
            exists c, c ∈ children /\ below (g_navigation g) c k).
  { intros k. rewrite Hoc. split; intros (c & Hc & Hb); exists c.
    - rewrite Hperm2, Hperm1 in Hc. split; [exact Hc|].
      apply (below_ext _ _ c k Hs1). exact Hb.
    - rewrite Hperm2, Hperm1. split; [exact Hc|].
      apply (below_ext _ _ c k Hs1). exact Hb. }
  split.
  { destruct Hw as [(news & Hw1 & Hw2) Hw3]. split.
    - exists (news ++ [WriteFile (joinpath (parts_of (OUTPUT_DIRECTORY site)) out) res]).
      cbn [g3 g_events]. rewrite Hw1. cbn [g1 g_set_navigation g_print g_events].
      rewrite <- app_assoc. split; [reflexivity|].
      apply Forall2_app; [exact Hw2|]. constructor; [|constructor].
      exists res. unfold output_file. rewrite Hpage. reflexivity.
    - cbn [g3 g_stdout]. rewrite Hw3. cbn [g1 g_set_navigation g_print g_stdout].
      rewrite <- app_assoc. reflexivity. }
  split; [rewrite Hpc; apply Permutation_cons_append|].
  split.
  { apply NoDup_app. split; [exact Hndc|]. split; [|apply NoDup_singleton].
    intros k Hk Hk'. apply list_elem_of_singleton in Hk'. subst k.
    apply Hinc in Hk. destruct Hk as (c & Hc & Hb).
    destruct (Hcall c Hc) as [ccs Hcc].
    exact (not_below_child _ _ _ _ Ht Hcc Hb). }
  intros k. rewrite elem_of_app, Hinc, list_elem_of_singleton, below_cases. split.
  - intros [(c & Hc & Hb)| ->]; [right|left; reflexivity].
    destruct (Hcall c Hc) as [ccs Hcc]. eauto.
  - intros [->|(c & ccs & Hcc & Hb)]; [right; reflexivity|left].
    exists c. split; [|exact Hb].
    destruct (nt_listed _ Ht _ _ _ Hcc) as (gp & pcs & Hp & Hin).
    rewrite Hentry in Hp. injection Hp as _ <-. exact Hin.
Qed.

End Generation.

Lemma generate_page_returns order fs cfg site convert format
    (pgs : gmap string (option path * path)) (links : gmap string path) nm g :
  (forall a b s, order a b s ≡ₚ elements s) ->
  (forall tr p html, fs tr (WriteFile p html) = None) ->
  (forall k p out, pgs !! k = Some (Some p, out) ->
     exists html meta, convert p = Return (html, meta) /\ meta_ok links meta) ->
  (forall f, exists s, format f = Return s) ->
  nav_tree (g_navigation g) ->
  covered pgs links (g_navigation g) ->
  nm <> "" ->
  is_Some (g_navigation g !! nm) ->
  exists n, forall fuel, n <= fuel ->
    exists res,
      generate_page order fs cfg site convert format pgs links fuel nm g = Return res /\
      generated site pgs links nm g res.
Proof.
  intros Hiter Hfs Hconv Hfmt Ht Hcov Hnm Hkey.
  destruct (depth_bound _ Ht) as [N HN].
  destruct (nt_rooted _ Ht nm Hkey) as [d Hd].
  exists (N + N). intros fuel Hfuel.
  apply (generate_page_level order Hiter fs Hfs cfg site convert format pgs links
           Hconv Hfmt N N fuel nm g d Ht Hcov HN Hnm Hd); [lia|exact Hfuel].
Qed.

(** [generate_page], called for a page of a navigation table that is a
    tree, with a page and a link for every name of the table, a converter
    that gives every source usable metadata, a template that formats and
    a file system that takes every write, returns, whatever the order in
    which each call of [reorder_children] iterates over its set. The file
    system has then seen one write for the page and for every page below
    it, each to the output file of its page under the output directory,
    and no other operation; each of these pages was announced once; the
    navigation table is still a tree, with the same keys under the same
    parents. *)
Theorem generate_page_covers order fs cfg site convert format
    (pgs : gmap string (option path * path)) (links : gmap string path) nm g :
  (forall a b s, order a b s ≡ₚ elements s) ->
  (forall tr p html, fs tr (WriteFile p html) = None) ->
  (forall k p out, pgs !! k = Some (Some p, out) ->
     exists html meta, convert p = Return (html, meta) /\ meta_ok links meta) ->
  (forall f, exists s, format f = Return s) ->
  nav_tree (g_navigation g) ->
  covered pgs links (g_navigation g) ->
  nm <> "" ->
  is_Some (g_navigation g !! nm) ->
  exists n, forall fuel, n <= fuel ->
    exists pm g',
      generate_page order fs cfg site convert format pgs links fuel nm g
      = Return (pm, g') /\
      pm_name pm = nm /\
      nav_tree (g_navigation g') /\
      same_parents (g_navigation g) (g_navigation g') /\
      exists pages_written printed,
        wrote site pgs g g' pages_written printed /\
        printed ≡ₚ pages_written /\
        NoDup pages_written /\
        forall k, k ∈ pages_written <-> below (g_navigation g) nm k.
Proof.
  intros Hiter Hfs Hconv Hfmt Ht Hcov Hnm Hkey.
  destruct (generate_page_returns order fs cfg site convert format pgs links nm g
              Hiter Hfs Hconv Hfmt Ht Hcov Hnm Hkey) as [n Hn].
  exists n. intros fuel Hfuel.
  destruct (Hn fuel Hfuel) as ([pm g'] & Hrun & Hpm & _ & Ht' & Hs & Hw).
  exists pm, g'. auto.
Qed.

Lemma tables_covered cfg root tree st :
  NoDup ("" :: entry_names (scan [root] tree)) ->
  parse_input_directory cfg [root] tree = Return st ->
  covered (pages st) (make_links (pages st) (media st)) (navigation st).
Proof.
  intros Hnd Hst.
  destruct (parse_tables cfg root tree Hnd) as (st' & Hst' & _ & Hdom & Hent & _).
  rewrite Hst in Hst'. injection Hst' as <-.
  intros k Hk0 Hk. apply elem_of_dom in Hk. rewrite Hdom in Hk.
  apply elem_of_union in Hk. destruct Hk as [Hk|Hk].
  { apply elem_of_singleton in Hk. congruence. }
  apply elem_of_list_to_set in Hk. unfold entry_names in Hk.
  apply list_elem_of_fmap in Hk. destruct Hk as (it & -> & Hit).
  destruct (Hent it Hit) as [Hp _].
  split; [eauto|]. rewrite make_links_at.
  destruct (last_media _ _); [eauto|]. rewrite Hp. simpl. eauto.
Qed.

Lemma generate_page_covers_witness :
  exists st,
    parse_input_directory cfg0 ["vault"] tree_site = Return st /\
    exists n, forall fuel, n <= fuel ->
      exists pm g',
        generate_page set_iter_split fs_ok cfg0 site0 convert0 format0 (pages st)
          (make_links (pages st) (media st)) fuel "vault" (g_start st)
        = Return (pm, g') /\
        pm_name pm = "vault" /\
        nav_tree (g_navigation g') /\
        same_parents (g_navigation (g_start st)) (g_navigation g') /\
        exists pages_written printed,
          wrote site0 (pages st) (g_start st) g' pages_written printed /\
          printed ≡ₚ pages_written /\
          NoDup pages_written /\
          forall k, k ∈ pages_written <-> below (g_navigation (g_start st)) "vault" k.
Proof.
  assert (Hnd : NoDup ("" :: entry_names (scan ["vault"] tree_site))).
  { vm_compute. repeat (constructor; [set_solver|]). constructor. }
  destruct (parse_tables cfg0 "vault" tree_site Hnd) as (st & Hst & Ht & Hdom & _).
  exists st. split; [exact Hst|].
  apply (generate_page_covers set_iter_split fs_ok cfg0 site0 convert0 format0).
  - intros a b s. unfold set_iter_split. destruct (Nat.even (length a)).
    + reflexivity.
    + apply reverse_Permutation.
  - reflexivity.
  - intros k p out _. exists "", ∅. split; [reflexivity|apply meta_ok_empty].
  - intros f. eexists. reflexivity.
  - exact Ht.
  - exact (tables_covered cfg0 "vault" tree_site st Hnd Hst).
  - discriminate.
  - apply elem_of_dom. simpl. rewrite Hdom.
    apply elem_of_union. right. apply elem_of_list_to_set.
    vm_compute. set_solver.
Defined.

(** ** The whole run *)

Lemma elem_of_entries it items :
  it ∈ entries items <-> it ∈ items /\ is_entry it = true.
Proof.
  unfold entries. rewrite !list_elem_of_In. apply filter_In.
Qed.

Lemma glob_rec_parent t : forall q (it : path * node),
  it ∈ glob_rec q t ->
  (exists nm, fst it = q ++ [nm]) \/
  (exists (d : path * node) nm,
      d ∈ glob_rec q t /\ is_dir d = true /\ fst it = fst d ++ [nm]).
Proof.
  induction t as [|es IH] using node_ind'; intros q it; simpl.
  { intros H. inversion H. }
  intros H. apply elem_of_app in H. destruct H as [H|H].
  - apply list_elem_of_fmap in H. destruct H as (e & -> & _). left. eauto.
  - apply list_elem_of_In, in_flat_map in H. destruct H as (e & He & H).
    apply list_elem_of_In in He, H.
    rewrite Forall_forall in IH.
    destruct (IH e He _ _ H) as [[nm Hnm]|(d & nm & Hd & Hdir & Hnm)]; right.
    + exists (q ++ [fst e], snd e), nm. split; [|split].
      * apply elem_of_app. left. apply list_elem_of_fmap. eauto.
      * unfold is_dir. simpl. destruct (snd e); [inversion H|reflexivity].
      * exact Hnm.
    + exists d, nm. split; [|auto].
      apply elem_of_app. right. apply list_elem_of_In, in_flat_map.
      exists e. split; apply list_elem_of_In; assumption.
Qed.

Lemma scan_parent root tree (it : path * node) :
  it ∈ scan [root] tree ->
  fst it = [root] \/
  exists (d : path * node) nm,
    d ∈ scan [root] tree /\ is_dir d = true /\ fst it = fst d ++ [nm].
Proof.
  unfold scan. intros H. apply elem_of_cons in H. destruct H as [->|H]; [left; reflexivity|].
  right. destruct (glob_rec_parent _ _ _ H) as [[nm Hnm]|(d & nm & Hd & Hdir & Hnm)].
  - exists ([root], tree), nm. split; [left|]. split; [|exact Hnm].
    unfold is_dir. simpl. destruct tree; [inversion H|reflexivity].
  - exists d, nm. split; [right; exact Hd|auto].
Qed.

Lemma hidden_parent q nm : hidden (q ++ [nm]) = false -> hidden q = false.
Proof.
  unfold hidden. rewrite existsb_app. apply orb_false_elim.
Qed.

Lemma entries_below_root cfg root tree st :
  NoDup ("" :: entry_names (scan [root] tree)) ->
  parse_input_directory cfg [root] tree = Return st ->
  forall n (it : path * node), length (fst it) <= n -> it ∈ entries (scan [root] tree) ->
    below (navigation st) (stem [root]) (stem (fst it)).
Proof.
  intros Hnd Hst.
  destruct (parse_tables cfg root tree Hnd) as (st' & Hst' & _ & _ & Hent & _).
  rewrite Hst in Hst'. injection Hst' as <-.
  induction n as [|n IH]; intros it Hlen Hit.
  - apply elem_of_entries in Hit. destruct Hit as [Hin _].
    destruct (scan_parent _ _ _ Hin) as [E|(d & nm & _ & _ & E)];
      rewrite E in Hlen; [simpl in Hlen|rewrite length_app in Hlen; simpl in Hlen]; lia.
  - pose proof Hit as Hit'. apply elem_of_entries in Hit'. destruct Hit' as [Hin He].
    destruct (scan_parent _ _ _ Hin) as [E|(d & nm & Hd & Hdir & E)].
    + exists 0. simpl. rewrite E. reflexivity.
    + assert (Hde : d ∈ entries (scan [root] tree)).
      { apply elem_of_entries. split; [exact Hd|].
        unfold is_entry, visible in *. rewrite Hdir.
        apply andb_true_iff in He. destruct He as [Hv _].
        apply negb_true_iff in Hv. rewrite E in Hv.
        rewrite (hidden_parent _ _ Hv). reflexivity. }
      destruct (IH d) as [m Hm]; [rewrite E, length_app in Hlen; simpl in Hlen; lia|exact Hde|].
      exists (S m). simpl. destruct (Hent it Hit) as [_ ->].
      rewrite E, parent_snoc. exact Hm.
Qed.

Lemma page_keys_head items : forall k keys,
  exists rest, page_keys items (k :: keys) = k :: rest.
Proof.
  assert (Hd : forall x k keys, exists keys', dict_key x (k :: keys) = k :: keys').
  { intros x k keys. unfold dict_key. destruct (bool_decide _); simpl; eauto. }
  induction items as [|it items IH]; intros k keys; simpl; [eauto|].
  destruct (hidden (fst it)); [apply IH|].
  destruct (snd it).
  - destruct (String.eqb _ ".md"); [|apply IH].
    destruct (String.eqb _ _); [apply IH|].
    destruct (Hd (stem (fst it)) k keys) as [keys' ->]. apply IH.
  - destruct (Hd (stem (fst it)) k keys) as [keys' ->]. apply IH.
Qed.

Lemma parse_pages_dom cfg root tree st :
  NoDup ("" :: entry_names (scan [root] tree)) ->
  parse_input_directory cfg [root] tree = Return st ->
  dom (pages st) = list_to_set (entry_names (scan [root] tree)).
Proof.
  intros Hnd Hst. apply NoDup_cons in Hnd. destruct Hnd as [Hroot Hnd].
  destruct (walk_unique cfg (scan [root] tree) [[]] walk_init)
    as (st' & Hw & _ & _ & Hdp & _).
  - apply parents_first_scan.
  - apply known_in_init.
  - apply nav_tree_init.
  - exact Hnd.
  - intros n Hn. simpl. apply lookup_singleton_None. intros <-. contradiction.
  - unfold parse_input_directory in Hst. rewrite Hst in Hw. injection Hw as <-.
    rewrite Hdp. simpl. rewrite dom_empty_L. apply (left_id_L ∅ (∪)).
Qed.

Lemma copy_media_returns fs site med : forall g,
  (forall tr src dst, fs tr (CopyFile src dst) = None) ->
  copy_media fs site med g =
  Return {| g_navigation := g_navigation g;
            g_events := g_events g ++
              map (fun m => CopyFile (fst m)
                              (joinpath (parts_of (OUTPUT_DIRECTORY site)) (snd m))) med;
            g_stdout := g_stdout g |}.
Proof.
  induction med as [|m med IH]; intros g Hfs; simpl.
  - rewrite app_nil_r. destruct g; reflexivity.
  - unfold fs_do. rewrite Hfs. cbn [bind]. rewrite IH by exact Hfs.
    cbn [g_navigation g_events g_stdout]. rewrite <- app_assoc. reflexivity.
Qed.

Lemma Forall2_impl_elem {A B} (P Q : A -> B -> Prop) l k :
  Forall2 P l k -> (forall a b, a ∈ l -> P a b -> Q a b) -> Forall2 Q l k.
Proof.
  induction 1 as [|a b l k Hab _ IH]; intros HPQ; constructor.
  - apply HPQ; [left|exact Hab].
  - apply IH. intros a' b' Ha'. apply HPQ. right. exact Ha'.
Qed.

(** The run of [main] up to the last page: the walker's tables, the root
    page, and what the generation of the pages leaves. *)
Lemma main_pages order fs cfg site markdown (template : string) format root es :
  (forall a b s, order a b s ≡ₚ elements s) ->
  (forall tr p html, fs tr (WriteFile p html) = None) ->
  hidden [root] = false ->
  NoDup ("" :: entry_names (scan [root] (Dir es))) ->
  (forall st k p out,
     parse_input_directory cfg [root] (Dir es) = Return st ->
     pages st !! k = Some (Some p, out) ->
     exists html meta,
       markdown (make_links (pages st) (media st)) p = Return (html, meta) /\
       meta_ok (make_links (pages st) (media st)) meta) ->
  (forall f, exists s, format template f = Return s) ->
  exists n, forall fuel, n <= fuel ->
    exists st root_page rest pm g' pages_written printed,
      parse_input_directory cfg [root] (Dir es) = Return st /\
      root_pages (pages st) (page_keys (scan [root] (Dir es)) []) = root_page :: rest /\
      generate_page order fs cfg site (markdown (make_links (pages st) (media st)))
        (format template) (pages st) (make_links (pages st) (media st)) fuel root_page
        {| g_navigation := navigation st; g_events := []; g_stdout := preamble st |}
      = Return (pm, g') /\
      pages_written ≡ₚ entries (scan [root] (Dir es)) /\
      Forall2 (fun it ev =>
                 exists html,
                   ev = WriteFile (joinpath (parts_of (OUTPUT_DIRECTORY site))
                                            (snd (page_value it))) html)
              pages_written (g_events g') /\
      printed ≡ₚ entry_names (scan [root] (Dir es)) /\
      g_stdout g' =
        ["Parsing input directory...";
         "Found " +:+ str_nat (length (entries (scan [root] (Dir es)))) +:+
         " pages to generate," +:+
         " and " +:+ str_nat (length (media_files (scan [root] (Dir es)))) +:+
         " non-markdown files to copy";
         "";
         "Generating pages..."] ++
        map (fun k => "Generating " +:+ k) printed /\
      media st = map (fun it => (fst it, media_dst cfg (fst it)))
                     (media_files (scan [root] (Dir es))).
Proof.
  intros Hiter Hfs Hvis Hnd Hmd Hfmt.
  destruct (parse_tables cfg root (Dir es) Hnd)
    as (st & Hst & Ht & Hdom & Hent & Hnone & Hroot & Hmed).
  pose proof (tables_covered cfg root (Dir es) st Hnd Hst) as Hcov.
  pose proof (parse_pages_dom cfg root (Dir es) st Hnd Hst) as Hpd.
  pose proof Hnd as Hnd'. apply NoDup_cons in Hnd'. destruct Hnd' as [Hno Hnde].
  assert (Hrit : (([root], Dir es) : path * node) ∈ entries (scan [root] (Dir es))).
  { apply elem_of_entries. split; [left|].
    unfold is_entry, visible, is_dir. cbn [fst snd]. rewrite Hvis. reflexivity. }
  destruct (Hent _ Hrit) as [Hrpage Hrnav]. cbn [fst] in Hrpage, Hrnav.
  assert (Hrname : stem [root] ∈ entry_names (scan [root] (Dir es))).
  { unfold entry_names. apply list_elem_of_fmap. exists ([root], Dir es). auto. }
  assert (Hkeys : exists rest,
            root_pages (pages st) (page_keys (scan [root] (Dir es)) []) = stem [root] :: rest).
  { unfold scan. cbn [page_keys fst snd]. rewrite Hvis.
    unfold dict_key. rewrite bool_decide_eq_false_2 by (intros H; inversion H).
    rewrite app_nil_l.
    destruct (page_keys_head (glob_rec [root] (Dir es)) (stem [root]) []) as [rest ->].
    unfold root_pages. cbn [List.filter]. rewrite Hrpage.
    unfold page_value. cbn [fst snd length Nat.eqb].
    replace (String.eqb (stem ["index.html"]) "index") with true by reflexivity.
    eauto. }
  destruct Hkeys as [rest Hkeys].
  set (links := make_links (pages st) (media st)) in *.
  set (g0 := {| g_navigation := navigation st;
                g_events := [];
                g_stdout := preamble st |}).
  destruct (generate_page_returns order fs cfg site (markdown links) (format template)
              (pages st) links (stem [root]) g0) as [n Hn].
  - exact Hiter.
  - exact Hfs.
  - intros k p out Hk. exact (Hmd st k p out Hst Hk).
  - exact Hfmt.
  - exact Ht.
  - exact Hcov.
  - intros E. rewrite E in Hrname. contradiction.
  - simpl. rewrite Hrnav. eauto.
  - exists n. intros fuel Hfuel.
    destruct (Hn fuel Hfuel)
      as ([pm g'] & Hrun & _ & _ & _ & _ & names & printed & Hw & Hpr & Hndo & Hord).
    cbn [fst snd] in Hw. destruct Hw as [(news & Hw1 & Hw2) Hw3].
    assert (Horder : names ≡ₚ entry_names (scan [root] (Dir es))).
    { apply NoDup_Permutation; [exact Hndo|exact Hnde|]. intros k. rewrite Hord.
      split.
      - intros [[|m] Hm].
        + injection Hm as ->. exact Hrname.
        + simpl in Hm.
          destruct (navigation st !! k) as [[[p|] cs]|] eqn:Hk; try discriminate.
          assert (Hkd : k ∈ dom (navigation st)) by (apply elem_of_dom; eauto).
          rewrite Hdom in Hkd. apply elem_of_union in Hkd.
          destruct Hkd as [Hk0|Hkn]; [|apply elem_of_list_to_set in Hkn; exact Hkn].
          apply elem_of_singleton in Hk0. subst k.
          destruct (nt_root _ Ht) as [cs0 H0]. simpl in H0. congruence.
      - unfold entry_names. intros Hk. apply list_elem_of_fmap in Hk.
        destruct Hk as (it & -> & Hit).
        exact (entries_below_root cfg root (Dir es) st Hnd Hst _ it (Nat.le_refl _) Hit). }
    unfold entry_names in Horder.
    apply Permutation_map_inv in Horder. destruct Horder as (its & Hnames & Hits).
    exists st, (stem [root]), rest, pm, g', its, printed.
    split; [exact Hst|]. split; [exact Hkeys|]. split; [exact Hrun|].
    split; [symmetry; exact Hits|].
    split; [|split; [|split]].
    + rewrite Hw1. cbn [g0 g_events app]. rewrite Hnames in Hw2.
      pose proof (proj1 (Forall2_fmap_l (fun it : path * node => stem (fst it))
                           (writes_page site (pages st)) its news) Hw2) as Hw2'.
      eapply Forall2_impl_elem; [exact Hw2'|].
      intros it ev Hit [html ->]. exists html. f_equal.
      assert (Hit' : it ∈ entries (scan [root] (Dir es)))
        by (rewrite Hits; exact Hit).
      destruct (Hent it Hit') as [Hp _]. unfold output_file. cbn. rewrite Hp.
      reflexivity.
    + rewrite Hpr, Hnames. apply Permutation_map. symmetry. exact Hits.
    + rewrite Hw3. cbn [g0 g_stdout]. unfold preamble.
      assert (Hsize : size (pages st) = length (entries (scan [root] (Dir es)))).
      { rewrite <- size_dom, Hpd, size_list_to_set by exact Hnde.
        unfold entry_names. apply length_map. }
      rewrite Hsize, Hmed, length_map. reflexivity.
    + exact Hmed.
Qed.

(** [main], on an input directory given by a path of one part, not
    hidden, in which no two entries share a name, with a Markdown parser
    that gives every source usable metadata, a template that is read and
    formats, and a file system that takes every operation, returns,
    whatever the order in which the sets are iterated. The file system
    has then seen, in this order: one write for each entry of the
    directory, to the output path of that entry under the output
    directory; the making of the media directory under the output
    directory; one copy for each media file, in scan order, to its
    destination under the output directory; and the copy of the static
    directory onto the output directory. Of its own, [main] has printed
    the counts of the entries and of the media files, then one line for
    each page, then the closing lines. *)
Theorem main_generates_site order fs cfg site markdown template format root es :
  parts_of root = [root] ->
  (forall a b s, order a b s ≡ₚ elements s) ->
  (forall tr ev, fs tr ev = None) ->
  hidden [root] = false ->
  NoDup ("" :: entry_names (scan [root] (Dir es))) ->
  (forall st k p out,
     parse_input_directory cfg [root] (Dir es) = Return st ->
     pages st !! k = Some (Some p, out) ->
     exists html meta,
       markdown (make_links (pages st) (media st)) p = Return (html, meta) /\
       meta_ok (make_links (pages st) (media st)) meta) ->
  (forall f, exists s, format template f = Return s) ->
  exists n, forall fuel, n <= fuel ->
    exists g pages_written writes printed,
      main order fs cfg site markdown (Return template) format fuel [root] (Dir es)
      = Return g /\
      pages_written ≡ₚ entries (scan [root] (Dir es)) /\
      Forall2 (fun it ev =>
                 exists html,
                   ev = WriteFile (joinpath (parts_of (OUTPUT_DIRECTORY site))
                                            (snd (page_value it))) html)
              pages_written writes /\
      g_events g =
        writes ++
        [MakeDir (joinpath (parts_of (OUTPUT_DIRECTORY site))
                           (parts_of (MEDIA_DIRECTORY cfg)))] ++
        map (fun it => CopyFile (fst it)
                         (joinpath (parts_of (OUTPUT_DIRECTORY site))
                                   (media_dst cfg (fst it))))
            (media_files (scan [root] (Dir es))) ++
        [CopyTree (STATIC_DIRECTORY site) (OUTPUT_DIRECTORY site)] /\
      printed ≡ₚ entry_names (scan [root] (Dir es)) /\
      g_stdout g =
        ["Parsing input directory...";
         "Found " +:+ str_nat (length (entries (scan [root] (Dir es)))) +:+
         " pages to generate," +:+
         " and " +:+ str_nat (length (media_files (scan [root] (Dir es)))) +:+
         " non-markdown files to copy";
         "";
         "Generating pages..."] ++
        map (fun k => "Generating " +:+ k) printed ++
        [""; "Copying media files"; ""; "Copying static files"; "Done."].
Proof.
  intros _ Hiter Hfs Hvis Hnd Hmd Hfmt.
  destruct (main_pages order fs cfg site markdown template format root es
              Hiter (fun tr p html => Hfs tr _) Hvis Hnd Hmd Hfmt) as [n Hn].
  exists n. intros fuel Hfuel.
  destruct (Hn fuel Hfuel)
    as (st & root_page & rest & pm & g' & its & printed &
        Hst & Hkeys & Hrun & Hits & Hw & Hpr & Hout & Hmed).
  set (mk := MakeDir (joinpath (parts_of (OUTPUT_DIRECTORY site))
                               (parts_of (MEDIA_DIRECTORY cfg)))).
  set (copies := map (fun m => CopyFile (fst m)
                                 (joinpath (parts_of (OUTPUT_DIRECTORY site)) (snd m)))
                     (media st)).
  set (ct := CopyTree (STATIC_DIRECTORY site) (OUTPUT_DIRECTORY site)).
  exists (g_print "Done."
            {| g_navigation := g_navigation g';
               g_events := ((g_events g' ++ [mk]) ++ copies) ++ [ct];
               g_stdout := g_stdout g' ++
                 [""; "Copying media files"; ""; "Copying static files"] |}),
    its, (g_events g'), printed.
  split; [|split; [|split; [|split; [|split]]]].
  - unfold main. rewrite Hst. cbn [bind]. rewrite Hkeys. cbn [bind].
    rewrite Hrun. cbn [bind snd].
    unfold fs_do at 1. rewrite Hfs. cbn [bind].
    rewrite copy_media_returns by (intros; apply Hfs). cbn [bind].
    unfold fs_do. rewrite Hfs. cbn [g_print g_events g_navigation g_stdout].
    rewrite <- !app_assoc. reflexivity.
  - exact Hits.
  - exact Hw.
  - cbn [g_print g_events]. unfold copies. rewrite Hmed, map_map. cbn [fst snd].
    rewrite <- !app_assoc. reflexivity.
  - exact Hpr.
  - cbn [g_print g_stdout]. rewrite Hout. rewrite <- !app_assoc. reflexivity.
Qed.

Lemma main_generates_site_witness :
  exists n, forall fuel, n <= fuel ->
    exists g pages_written writes printed,
      main set_iter_split fs_ok cfg0 site0 (fun _ => convert0) (Return "{CONTENT_HTML}")
        (fun _ => format0) fuel ["vault"] tree_site
      = Return g /\
      pages_written ≡ₚ entries (scan ["vault"] tree_site) /\
      Forall2 (fun it ev =>
                 exists html,
                   ev = WriteFile (joinpath (parts_of (OUTPUT_DIRECTORY site0))
                                            (snd (page_value it))) html)
              pages_written writes /\
      g_events g =
        writes ++
        [MakeDir (joinpath (parts_of (OUTPUT_DIRECTORY site0))
                           (parts_of (MEDIA_DIRECTORY cfg0)))] ++
        map (fun it => CopyFile (fst it)
                         (joinpath (parts_of (OUTPUT_DIRECTORY site0))
                                   (media_dst cfg0 (fst it))))
            (media_files (scan ["vault"] tree_site)) ++
        [CopyTree (STATIC_DIRECTORY site0) (OUTPUT_DIRECTORY site0)] /\
      printed ≡ₚ entry_names (scan ["vault"] tree_site) /\
      g_stdout g =
        ["Parsing input directory...";
         "Found " +:+ str_nat (length (entries (scan ["vault"] tree_site))) +:+
         " pages to generate," +:+
         " and " +:+ str_nat (length (media_files (scan ["vault"] tree_site))) +:+
         " non-markdown files to copy";
         "";
         "Generating pages..."] ++
        map (fun k => "Generating " +:+ k) printed ++
        [""; "Copying media files"; ""; "Copying static files"; "Done."].
Proof.
  apply (main_generates_site set_iter_split fs_ok cfg0 site0 (fun _ => convert0)
           "{CONTENT_HTML}" (fun _ => format0) "vault").
  - reflexivity.
  - intros a b s. unfold set_iter_split. destruct (Nat.even (length a)).
    + reflexivity.
    + apply reverse_Permutation.
  - reflexivity.
  - reflexivity.
  - vm_compute. repeat (constructor; [set_solver|]). constructor.
  - intros st k p out _ _. exists "", ∅. split; [reflexivity|apply meta_ok_empty].
  - intros f. eexists. reflexivity.
Defined.

(** A run of [main] that the file system stops. On an input directory
    given by a path of one part, not hidden, in which no two entries
    share a name, with a Markdown parser that gives every source usable
    metadata, a template that formats and a file system that takes every
    write: when the media directory cannot be made (it is there from an
    earlier run), [main] ends in the exception of the [mkdir]; and when
    the template cannot be read, [main] ends in the exception of the
    [open]. *)
Theorem main_stopped_by_file_system order fs cfg site markdown template format
    root es e :
  parts_of root = [root] ->
  (forall a b s, order a b s ≡ₚ elements s) ->
  (forall tr p html, fs tr (WriteFile p html) = None) ->
  (forall tr p, fs tr (MakeDir p) = Some e) ->
  hidden [root] = false ->
  NoDup ("" :: entry_names (scan [root] (Dir es))) ->
  (forall st k p out,
     parse_input_directory cfg [root] (Dir es) = Return st ->
     pages st !! k = Some (Some p, out) ->
     exists html meta,
       markdown (make_links (pages st) (media st)) p = Return (html, meta) /\
       meta_ok (make_links (pages st) (media st)) meta) ->
  (forall f, exists s, format template f = Return s) ->
  (exists n, forall fuel, n <= fuel ->
     main order fs cfg site markdown (Return template) format fuel [root] (Dir es)
     = Raise e) /\
  (forall fuel e',
     main order fs cfg site markdown (Raise e') format fuel [root] (Dir es)
     = Raise e').
Proof.
  intros _ Hiter Hfs Hmk Hvis Hnd Hmd Hfmt. split.
  - destruct (main_pages order fs cfg site markdown template format root es
                Hiter Hfs Hvis Hnd Hmd Hfmt) as [n Hn].
    exists n. intros fuel Hfuel.
    destruct (Hn fuel Hfuel)
      as (st & root_page & rest & pm & g' & its & printed &
          Hst & Hkeys & Hrun & _).
    unfold main. rewrite Hst. cbn [bind]. rewrite Hkeys. cbn [bind].
    rewrite Hrun. cbn [bind snd]. unfold fs_do at 1. rewrite Hmk. reflexivity.
  - intros fuel e'.
    destruct (parse_tables cfg root (Dir es) Hnd) as (st & Hst & _).
    unfold main. rewrite Hst. reflexivity.
Qed.

Lemma main_stopped_by_file_system_witness :
  (exists n, forall fuel, n <= fuel ->
     main set_iter_split fs_second_run cfg0 site0 (fun _ => convert0)
       (Return "{CONTENT_HTML}") (fun _ => format0) fuel ["vault"] tree_site
     = Raise (OSError "FileExistsError")) /\
  (forall fuel e',
     main set_iter_split fs_second_run cfg0 site0 (fun _ => convert0)
       (Raise e') (fun _ => format0) fuel ["vault"] tree_site
     = Raise e').
Proof.
  apply (main_stopped_by_file_system set_iter_split fs_second_run cfg0 site0
           (fun _ => convert0) "{CONTENT_HTML}" (fun _ => format0) "vault").
  - reflexivity.
  - intros a b s. unfold set_iter_split. destruct (Nat.even (length a)).
    + reflexivity.
    + apply reverse_Permutation.
  - reflexivity.
  - reflexivity.
  - reflexivity.
  - vm_compute. repeat (constructor; [set_solver|]). constructor.
  - intros st k p out _ _. exists "", ∅. split; [reflexivity|apply meta_ok_empty].
  - intros f. eexists. reflexivity.
Defined.

(** ** A document whose targets all resolve *)

Lemma set_elems_same e : set_elems (elems e) e = e.
Proof. destruct e; reflexivity. Qed.

Lemma video_sources_known strict links parent idx sources : forall done w,
  forallb (target_known links "src") sources = true ->
  video_sources strict links parent idx false sources done w
  = Return ((done ++ map (translate links "src") sources, parent, false), w).
Proof.
  induction sources as [|s sources IH]; intros done w H; simpl.
  - rewrite app_nil_r. reflexivity.
  - simpl in H. apply andb_true_iff in H. destruct H as [Hs H].
    unfold target_known in Hs. unfold translate at 1.
    unfold bindM, lift, getitem.
    destruct (attrib s !! "src") as [src|]; [|discriminate]. simpl.
    destruct (startswith "http" src); simpl.
    + rewrite (IH _ _ H), <- app_assoc. reflexivity.
    + destruct (links !! src) as [dst|]; [|discriminate].
      rewrite (IH _ _ H), <- app_assoc. reflexivity.
Qed.

Lemma forallb_weaken {A} (f g : A -> bool) l :
  (forall x, f x = true -> g x = true) -> forallb f l = true -> forallb g l = true.
Proof.
  intros Hfg. rewrite !forallb_forall. auto.
Qed.

Lemma body_known strict links parent idx c w :
  elems parent !! idx = Some c ->
  resolves links c = true ->
  body strict links parent idx w
  = Return ((set_elems (<[idx := resolve_child links c]> (elems parent)) parent,
             idx + 1), w).
Proof.
  intros Hc Hr. unfold body. rewrite Hc.
  unfold resolves in Hr. unfold resolve_child.
  destruct (String.eqb (tag c) "a").
  { unfold target_known in Hr. unfold translate, bindM, lift, getitem.
    destruct (attrib c !! "href") as [href|]; [|discriminate]. simpl.
    destruct (startswith "http" href); simpl; [reflexivity|].
    destruct (links !! href) as [dst|]; [reflexivity|discriminate]. }
  destruct (String.eqb (tag c) "img").
  { unfold target_known in Hr. unfold translate, bindM, lift, getitem.
    destruct (attrib c !! "src") as [src|]; [|discriminate]. simpl.
    destruct (startswith "http" src); simpl.
    - rewrite list_insert_id by exact Hc. rewrite set_elems_same. reflexivity.
    - destruct (links !! src) as [dst|]; [reflexivity|discriminate]. }
  destruct (String.eqb (tag c) "video").
  { unfold bindM.
    rewrite (video_sources_known strict links parent idx (elems c) [] w).
    - reflexivity.
    - revert Hr. apply forallb_weaken. intros s Hs.
      apply andb_true_iff in Hs. apply Hs. }
  rewrite list_insert_id by exact Hc. rewrite set_elems_same. reflexivity.
Qed.

Lemma resolve_step {A} (f : A -> A) (l : list A) idx c :
  l !! idx = Some c ->
  take (idx + 1) (<[idx := f c]> l) ++ map f (drop (idx + 1) (<[idx := f c]> l))
  = take idx l ++ map f (drop idx l).
Proof.
  intros Hc. replace (idx + 1) with (S idx) by lia.
  assert (Hlt : idx < length l) by (apply lookup_lt_is_Some_1; eauto).
  rewrite (take_S_r _ _ (f c)) by (apply list_lookup_insert_eq; exact Hlt).
  rewrite take_insert_ge by lia. rewrite drop_insert_lt by lia.
  rewrite (drop_S l c idx Hc). simpl. rewrite <- app_assoc. reflexivity.
Qed.

Lemma while_loop_known strict links w : forall fuel parent idx,
  length (elems parent) - idx <= fuel ->
  (forall i c, idx <= i -> elems parent !! i = Some c -> resolves links c = true) ->
  while_loop strict links fuel parent idx w
  = Return (set_elems (take idx (elems parent) ++
                       map (resolve_child links) (drop idx (elems parent))) parent, w).
Proof.
  assert (Hend : forall parent idx, length (elems parent) <= idx ->
            set_elems (take idx (elems parent) ++
                       map (resolve_child links) (drop idx (elems parent))) parent
            = parent).
  { intros parent idx Hlen. rewrite take_ge, drop_ge by exact Hlen. simpl.
    rewrite app_nil_r. apply set_elems_same. }
  induction fuel as [|fuel IH]; intros parent idx Hfuel Hall.
  - simpl. destruct (Nat.ltb_spec idx (length (elems parent))); [lia|].
    unfold ret. rewrite Hend by lia. reflexivity.
  - cbn [while_loop].
    destruct (Nat.ltb_spec idx (length (elems parent))) as [Hlt|Hge].
    + destruct (lookup_lt_is_Some_2 _ _ Hlt) as [c Hc].
      unfold bindM at 1.
      rewrite (body_known strict links parent idx c w Hc (Hall idx c (Nat.le_refl _) Hc)).
      cbn [bind fst snd].
      rewrite IH.
      * destruct parent as [t a x tl es]. cbn [set_elems elems tag attrib text tail] in *.
        rewrite (resolve_step (resolve_child links) es idx c Hc). reflexivity.
      * destruct parent as [t a x tl es]. cbn [set_elems elems] in *.
        rewrite length_insert. lia.
      * intros i c' Hi Hc'. destruct parent as [t a x tl es]. cbn [set_elems elems] in *.
        rewrite list_lookup_insert_ne in Hc' by lia.
        apply (Hall i c'); [lia|exact Hc'].
    + unfold ret. rewrite Hend by lia. reflexivity.
Qed.

Lemma resolve_children_known strict links parent w :
  (forall c, c ∈ elems parent -> resolves links c = true) ->
  resolve_children strict links parent w
  = Return (set_elems (map (resolve_child links) (elems parent)) parent, w).
Proof.
  intros Hall. unfold resolve_children.
  rewrite while_loop_known.
  - rewrite take_0, drop_0. reflexivity.
  - lia.
  - intros i c _ Hc. apply Hall. eapply list_elem_of_lookup_2. exact Hc.
Qed.

Lemma all_resolve_unfold links e :
  all_resolve links e
  = forallb (fun c => resolves links c && all_resolve links c) (elems e).
Proof. destruct e; reflexivity. Qed.

Lemma resolved_set_attrib links k v e :
  resolved links (set_attrib k v e) = set_attrib k v (resolved links e).
Proof. destruct e; reflexivity. Qed.

Lemma resolved_translate links attr e :
  resolved links (translate links attr e) = translate links attr (resolved links e).
Proof.
  unfold translate. replace (attrib (resolved links e)) with (attrib e)
    by (destruct e; reflexivity).
  destruct (attrib e !! attr) as [url|]; [|reflexivity].
  destruct (startswith "http" url); [reflexivity|].
  destruct (links !! url); [apply resolved_set_attrib|reflexivity].
Qed.

Lemma translate_keeps links attr e :
  tag (translate links attr e) = tag e /\
  elems (translate links attr e) = elems e.
Proof.
  unfold translate. destruct (attrib e !! attr) as [url|]; [|auto].
  destruct (startswith "http" url); [auto|].
  destruct (links !! url); [destruct e|]; auto.
Qed.

Lemma resolve_child_other links c :
  is_linking c = false -> resolve_child links c = c.
Proof.
  unfold is_linking, resolve_child. intros H.
  apply orb_false_elim in H. destruct H as [H Hv].
  apply orb_false_elim in H. destruct H as [Ha Hi].
  rewrite Ha, Hi, Hv. reflexivity.
Qed.

Lemma resolves_other links c : is_linking c = false -> resolves links c = true.
Proof.
  unfold is_linking, resolves. intros H.
  apply orb_false_elim in H. destruct H as [H Hv].
  apply orb_false_elim in H. destruct H as [Ha Hi].
  rewrite Ha, Hi, Hv. reflexivity.
Qed.

Lemma is_linking_tag c c' : tag c' = tag c -> is_linking c' = is_linking c.
Proof. unfold is_linking. intros ->. reflexivity. Qed.

Lemma depth_elems_eq e e' : elems e' = elems e -> depth e' = depth e.
Proof. rewrite !depth_elems. intros ->. reflexivity. Qed.

Lemma all_resolve_elems links e e' :
  elems e' = elems e -> all_resolve links e' = all_resolve links e.
Proof. rewrite !all_resolve_unfold. intros ->. reflexivity. Qed.

(** What [resolve_child] keeps: the depth, and, for a child that
    resolves, that all below it resolves. *)
Lemma resolve_child_keeps links c :
  resolves links c = true ->
  depth (resolve_child links c) = depth c /\
  all_resolve links (resolve_child links c) = all_resolve links c /\
  resolved links (resolve_child links c) = resolve_child links (resolved links c).
Proof.
  intros Hr. unfold resolves in Hr. unfold resolve_child.
  replace (tag (resolved links c)) with (tag c) by (destruct c; reflexivity).
  replace (attrib (resolved links c)) with (attrib c) by (destruct c; reflexivity).
  assert (Htr : forall attr,
            depth (translate links attr c) = depth c /\
            all_resolve links (translate links attr c) = all_resolve links c /\
            resolved links (translate links attr c)
            = translate links attr (resolved links c)).
  { intros attr. destruct (translate_keeps links attr c) as [_ He].
    split; [exact (depth_elems_eq _ _ He)|].
    split; [exact (all_resolve_elems _ _ _ He)|apply resolved_translate]. }
  destruct (String.eqb (tag c) "a").
  { destruct (attrib c !! "href") as [href|]; [|auto].
    destruct (startswith "http" href); [|apply Htr].
    split; [apply depth_set_attrib|].
    split; [apply all_resolve_elems; reflexivity|apply resolved_set_attrib]. }
  destruct (String.eqb (tag c) "img"); [apply Htr|].
  destruct (String.eqb (tag c) "video"); [|auto].
  assert (Hs : forall s, s ∈ elems c ->
            is_linking s = false /\ is_linking (translate links "src" s) = false).
  { intros s Hin. rewrite forallb_forall in Hr.
    specialize (Hr s (proj1 (list_elem_of_In _ _) Hin)).
    apply andb_true_iff in Hr. destruct Hr as [_ Hr]. apply negb_true_iff in Hr.
    split; [exact Hr|].
    rewrite (is_linking_tag s); [exact Hr|apply translate_keeps]. }
  split; [|split].
  - rewrite !depth_elems. destruct c as [t a x tl es]. cbn [set_elems elems] in *.
    rewrite map_map. f_equal. f_equal. apply map_ext. intros s.
    apply depth_elems_eq, translate_keeps.
  - rewrite !all_resolve_unfold. cbn [set_elems elems].
    clear Hr Htr. revert Hs. generalize (elems c). intros l.
    induction l as [|s l IH]; intros Hs; [reflexivity|]. cbn [map forallb].
    destruct (Hs s) as [Hs1 Hs2]; [left|].
    rewrite (resolves_other _ _ Hs1), (resolves_other _ _ Hs2).
    rewrite (all_resolve_elems links s (translate links "src" s))
      by apply translate_keeps.
    f_equal. apply IH. intros s' Hs'. apply Hs. right. exact Hs'.
  - destruct c as [t a x tl es]. cbn [set_elems elems resolved] in *.
    unfold set_elems. cbn [tag attrib text tail elems].
    f_equal. rewrite !map_map. apply map_ext_in. intros s Hin.
    apply list_elem_of_In in Hin. destruct (Hs s Hin) as [Hs1 Hs2].
    rewrite resolved_translate.
    rewrite resolve_child_other.
    2:{ rewrite (is_linking_tag s); [exact Hs1|].
        transitivity (tag (resolved links s));
          [apply translate_keeps|destruct s; reflexivity]. }
    rewrite (resolve_child_other links (resolved links s)); [reflexivity|].
    rewrite (is_linking_tag s); [exact Hs1|destruct s; reflexivity].
Qed.

Lemma mapM_known {A B} (f : A -> M B) (g : A -> B) l w :
  (forall a, a ∈ l -> f a w = Return (g a, w)) ->
  mapM f l w = Return (map g l, w).
Proof.
  induction l as [|a l IH]; intros H; cbn [mapM map]; [reflexivity|].
  unfold bindM at 1. rewrite (H a) by left. cbn [bind fst snd].
  unfold bindM at 1. rewrite IH by (intros a' Ha'; apply H; right; exact Ha').
  reflexivity.
Qed.

Lemma iter_known strict links w : forall fuel e,
  depth e <= fuel ->
  all_resolve links e = true ->
  iter strict links fuel e w = Return (resolved links e, w).
Proof.
  induction fuel as [|fuel IH]; intros e Hd Hall.
  { rewrite depth_elems in Hd. lia. }
  rewrite all_resolve_unfold, forallb_forall in Hall.
  assert (Hc : forall c, c ∈ elems e ->
            resolves links c = true /\ all_resolve links c = true).
  { intros c Hin. apply andb_true_iff, Hall, list_elem_of_In, Hin. }
  cbn [iter]. unfold bindM at 1.
  rewrite resolve_children_known by (intros c Hin; apply (Hc c Hin)).
  cbn [bind fst snd]. unfold bindM at 1.
  rewrite (mapM_known _ (resolved links)).
  - cbn [bind fst snd]. unfold ret. f_equal. f_equal.
    destruct e as [t a x tl es]. cbn [set_elems elems resolved] in *.
    unfold set_elems. cbn [tag attrib text tail elems].
    f_equal. rewrite map_map. apply map_ext_in. intros c Hin.
    apply list_elem_of_In in Hin. destruct (Hc c Hin) as [Hr _].
    apply (resolve_child_keeps links c Hr).
  - intros c' Hin'. cbn [elems set_elems] in Hin'.
    destruct e as [t a x tl es]. cbn [set_elems elems] in *.
    apply list_elem_of_fmap in Hin'. destruct Hin' as (c & -> & Hin).
    destruct (Hc c Hin) as [Hr Ha].
    destruct (resolve_child_keeps links c Hr) as (Hdc & Hac & _).
    apply IH; [|rewrite Hac; exact Ha].
    rewrite Hdc. rewrite depth_elems in Hd. cbn [elems] in Hd.
    assert (depth c <= list_max (map depth es)); [|lia].
    apply list_elem_of_In, (in_map depth) in Hin.
    pose proof (proj1 (list_max_le (map depth es) (list_max (map depth es)))
                  (Nat.le_refl _)) as Hmax.
    rewrite Forall_forall in Hmax. apply Hmax, list_elem_of_In. exact Hin.
Qed.

(** On a document whose targets all resolve, the processor returns in
    either mode, shows and records nothing, and gives the document with
    each local target replaced by its final path and each outgoing anchor
    marked: no element is removed or moved, no text changed. *)
Theorem run_resolves_document strict links root w :
  all_resolve links root = true ->
  run strict links root w = Return (resolved links root, w).
Proof.
  intros H. unfold run. apply iter_known; [lia|exact H].
Qed.

Lemma run_resolves_document_witness :
  all_resolve links_media p_resolvable = true /\
  run true links_media p_resolvable w0
  = Return (resolved links_media p_resolvable, w0).
Proof.
  split; [reflexivity|].
  apply (run_resolves_document true links_media p_resolvable w0). reflexivity.
Defined.

Lemma make_navbar_returns_witness :
  exists st,
    parse_input_directory cfg0 ["vault"] tree_site = Return st /\
    exists n, forall fuel, n <= fuel ->
      exists html nav',
        make_navbar elements fuel cfg0 "b" {[ "children" := ["x"] ]} (navigation st)
          (make_links (pages st) (media st)) = Return (html, nav').
Proof.
  assert (Hnd : NoDup ("" :: entry_names (scan ["vault"] tree_site))).
  { vm_compute. repeat (constructor; [set_solver|]). constructor. }
  destruct (parse_tables cfg0 "vault" tree_site Hnd) as (st & Hst & Ht & Hdom & _).
  exists st. split; [exact Hst|].
  apply (make_navbar_returns elements cfg0 "b" {[ "children" := ["x"] ]} (navigation st)
           (make_links (pages st) (media st))).
  - reflexivity.
  - exact Ht.
  - apply elem_of_dom. rewrite Hdom.
    apply elem_of_union. right. apply elem_of_list_to_set.
    vm_compute. set_solver.
  - intros k Hk0 Hk.
    apply (tables_covered cfg0 "vault" tree_site st Hnd Hst k Hk0 Hk).
Defined.

(** ** The lenient run on a sound document *)

Lemma safe_ret {A} (a : A) (P : A -> Prop) : P a -> safe_M (ret a) P.
Proof. intros H w. exact H. Qed.

Lemma safe_bindM {A B} (m : M A) (k : A -> M B) (P : A -> Prop) (Q : B -> Prop) :
  safe_M m P -> (forall a, P a -> safe_M (k a) Q) -> safe_M (bindM m k) Q.
Proof.
  intros Hm Hk w. unfold bindM. specialize (Hm w).
  destruct (m w) as [[a w']|e|]; simpl in *; [|exact Hm|exact I].
  apply Hk. exact Hm.
Qed.

Lemma safe_lift {A} (o : outcome A) (P : A -> Prop) :
  safe_with o P -> safe_M (lift o) P.
Proof. intros H w. unfold lift. destruct o; simpl in *; auto. Qed.

Lemma safe_warn url lineno : safe_M (warn false url lineno) (fun _ => True).
Proof. intros w. unfold warn. destruct (bool_decide _); exact I. Qed.

Lemma safe_print line : safe_M (print line) (fun _ => True).
Proof. intros w. exact I. Qed.

Lemma safe_weaken {A} (m : M A) (P Q : A -> Prop) :
  (forall a, P a -> Q a) -> safe_M m P -> safe_M m Q.
Proof.
  intros HPQ Hm w. specialize (Hm w). destruct (m w) as [[a w']|e|]; simpl in *; auto.
Qed.

Lemma safe_getitem (e : Element) attr :
  has_attr attr e = true ->
  safe_M (lift (getitem (attrib e) attr)) (fun v => attrib e !! attr = Some v).
Proof.
  unfold has_attr. intros H. apply safe_lift. unfold getitem.
  destruct (attrib e !! attr); [reflexivity|discriminate].
Qed.

Lemma sound_unfold links e :
  sound links e = forallb (fun c => sound_child links c && sound links c) (elems e).
Proof. destruct e; reflexivity. Qed.

Lemma sound_elems links e e' : elems e' = elems e -> sound links e' = sound links e.
Proof. rewrite !sound_unfold. intros ->. reflexivity. Qed.

Lemma sound_children links e :
  sound links e = true <->
  Forall (fun c => sound_child links c = true /\ sound links c = true) (elems e).
Proof.
  rewrite sound_unfold, forallb_forall, Forall_forall.
  split; intros H c Hc.
  - apply andb_true_iff, H, list_elem_of_In, Hc.
  - apply andb_true_iff, H, list_elem_of_In, Hc.
Qed.

Lemma sound_child_set_src links v s :
  sound_child links s = true -> sound_child links (set_attrib "src" v s) = true.
Proof.
  unfold sound_child, has_attr, unresolved. destruct s as [t a x tl es].
  cbn [set_attrib tag attrib text elems has_text].
  destruct (String.eqb t "a").
  { rewrite lookup_insert_ne by discriminate. auto. }
  destruct (String.eqb t "img").
  { rewrite lookup_insert_eq. reflexivity. }
  auto.
Qed.

Lemma safe_video_sources links idx : forall sources parent (removed : bool) done,
  forallb (has_attr "src") sources = true ->
  length (List.filter (unresolved links "src") sources) <= (if removed then 0 else 1) ->
  safe_M (video_sources false links parent idx removed sources done)
    (fun r =>
       (exists outs, fst (fst r) = done ++ outs /\
          Forall2 (fun s o => o = s \/ exists v, o = set_attrib "src" v s) sources outs) /\
       ((snd r = removed /\ snd (fst r) = parent) \/
        (removed = false /\ snd r = true /\
         snd (fst r) = set_elems (delete idx (elems parent)) parent))).
Proof.
  induction sources as [|s rest IH]; intros parent removed done Hsrc Hcount;
    cbn [video_sources].
  - apply safe_ret. cbn [fst snd]. split; [|left; auto].
    exists []. rewrite app_nil_r. split; [reflexivity|constructor].
  - cbn [forallb] in Hsrc. apply andb_true_iff in Hsrc. destruct Hsrc as [Hs Hrest].
    cbn [List.filter] in Hcount.
    eapply safe_bindM; [apply (safe_getitem s "src" Hs)|]. intros src Hsrc.
    cbn beta. unfold unresolved in Hcount at 1. rewrite Hsrc in Hcount.
    assert (Hstep : forall o parent' (removed' : bool)
                (Q : list Element * Element * bool -> Prop),
              (o = s \/ exists v, o = set_attrib "src" v s) ->
              length (List.filter (unresolved links "src") rest)
              <= (if removed' then 0 else 1) ->
              (forall r,
                  ((exists outs, fst (fst r) = (done ++ [o]) ++ outs /\
                      Forall2 (fun s o => o = s \/ exists v, o = set_attrib "src" v s)
                        rest outs) /\
                   ((snd r = removed' /\ snd (fst r) = parent') \/
                    (removed' = false /\ snd r = true /\
                     snd (fst r) = set_elems (delete idx (elems parent')) parent'))) ->
                  Q r) ->
              safe_M (video_sources false links parent' idx removed' rest (done ++ [o])) Q).
    { intros o parent' removed' Q Ho Hc HQ.
      eapply safe_weaken; [|apply (IH parent' removed' (done ++ [o]) Hrest Hc)].
      exact HQ. }
    assert (Hcons : forall (r : list Element * Element * bool) o,
              (o = s \/ exists v, o = set_attrib "src" v s) ->
              (exists outs, fst (fst r) = (done ++ [o]) ++ outs /\
                 Forall2 (fun s o => o = s \/ exists v, o = set_attrib "src" v s)
                   rest outs) ->
              exists outs, fst (fst r) = done ++ outs /\
                 Forall2 (fun s o => o = s \/ exists v, o = set_attrib "src" v s)
                   (s :: rest) outs).
    { intros r o Ho (outs & E & HF). exists (o :: outs).
      rewrite E, <- app_assoc. split; [reflexivity|]. constructor; assumption. }
    destruct (startswith "http" src); cbn [negb andb] in *.
    + apply Hstep; [left; reflexivity|exact Hcount|].
      intros r [Houts Hp]. split; [exact (Hcons r s (or_introl eq_refl) Houts)|exact Hp].
    + destruct (links !! src) as [dst|].
      * apply Hstep; [right; eauto|exact Hcount|].
        intros r [Houts Hp]. split; [|exact Hp].
        apply (Hcons r (set_attrib "src" (path_str dst) s)); [right; eauto|exact Houts].
      * cbn [length] in Hcount.
        destruct removed; [lia|].
        eapply safe_bindM; [apply safe_warn|]. intros _ _.
        eapply safe_bindM; [apply safe_print|]. intros _ _.
        apply Hstep; [left; reflexivity|lia|].
        intros r [Houts Hp]. split; [exact (Hcons r s (or_introl eq_refl) Houts)|].
        right. destruct Hp as [[-> ->]|[[=] _]]. auto.
Qed.

Lemma inv_head links es idx c :
  es !! idx = Some c -> loop_inv links es idx ->
  sound_child links c = true /\ sound links c = true.
Proof.
  intros Hc [_ H]. rewrite (drop_S es c idx Hc) in H.
  apply Forall_cons in H. apply H.
Qed.

Lemma inv_step links es idx c c' :
  es !! idx = Some c -> sound links c' = true ->
  loop_inv links es idx -> loop_inv links (<[idx := c']> es) (idx + 1).
Proof.
  intros Hc Hc' [H1 H2]. replace (idx + 1) with (S idx) by lia.
  assert (Hlt : idx < length es) by (apply lookup_lt_is_Some_1; eauto).
  split.
  - rewrite (take_S_r _ _ c') by (apply list_lookup_insert_eq; exact Hlt).
    rewrite take_insert_ge by lia. apply Forall_app. split; [exact H1|].
    constructor; [exact Hc'|constructor].
  - rewrite drop_insert_lt by lia. rewrite (drop_S es c idx Hc) in H2.
    apply Forall_cons in H2. apply H2.
Qed.

Lemma inv_next links es idx c :
  es !! idx = Some c -> loop_inv links es idx -> loop_inv links es (idx + 1).
Proof.
  intros Hc H. rewrite <- (list_insert_id es idx c Hc).
  apply (inv_step links es idx c c Hc); [|exact H].
  apply (inv_head links es idx c Hc H).
Qed.

Lemma inv_delete links es idx c :
  es !! idx = Some c -> loop_inv links es idx -> loop_inv links (delete idx es) idx.
Proof.
  intros Hc [H1 H2].
  assert (Hlt : idx < length es) by (apply lookup_lt_is_Some_1; eauto).
  assert (Hlen : length (take idx es) = idx) by (rewrite length_take; lia).
  rewrite delete_take_drop. split.
  - rewrite take_app_length' by (symmetry; exact Hlen). exact H1.
  - rewrite drop_app_length' by (symmetry; exact Hlen).
    rewrite (drop_S es c idx Hc) in H2. apply Forall_cons in H2. apply H2.
Qed.

Lemma inv_touch links es idx j c c' :
  j < idx -> es !! j = Some c -> sound links c' = sound links c ->
  loop_inv links es idx -> loop_inv links (<[j := c']> es) idx.
Proof.
  intros Hj Hc Hs [H1 H2]. split.
  - rewrite take_insert_lt by exact Hj. apply Forall_insert; [exact H1|].
    rewrite Hs.
    assert (Hjt : take idx es !! j = Some c) by (rewrite lookup_take_lt; assumption).
    exact (Forall_lookup_1 (fun c => sound links c = true) _ _ _ H1 Hjt).
  - rewrite drop_insert_lt by exact Hj. exact H2.
Qed.

Lemma safe_remove_link links parent idx el :
  elems parent !! idx = Some el ->
  has_text el = true ->
  loop_inv links (elems parent) idx ->
  safe_with (remove_link parent idx el) (fun p' => loop_inv links (elems p') idx).
Proof.
  intros Hel Htext Hinv. unfold remove_link, has_text in *.
  destruct (text el) as [x|]; [|discriminate].
  assert (Htxt : exists y,
            match tail el with
            | Some t => if truthy t then Return (Some (x +:+ t)) else Return (Some x)
            | None => Return (Some x)
            end = Return (Some y)).
  { destruct (tail el) as [t|]; [destruct (truthy t)|]; eauto. }
  destruct Htxt as [y ->]. cbn [bind].
  destruct (Nat.eqb_spec idx 0) as [->|Hne]; cbn [bind set_text set_elems elems].
  - apply (inv_delete links _ 0 el Hel Hinv).
  - assert (Hlt : idx < length (elems parent)) by (apply lookup_lt_is_Some_1; eauto).
    destruct (lookup_lt_is_Some_2 (elems parent) (idx - 1)) as [previous Hprev]; [lia|].
    rewrite Hprev. cbn [bind set_elems elems].
    assert (Hel' : exists el', <[idx - 1 := set_tail
                     (Some ((if truthy_opt (tail previous)
                             then default "" (tail previous) else "") +:+ y)) previous]>
                     (elems parent) !! idx = Some el').
    { apply list_lookup_insert_is_Some. eauto. }
    destruct Hel' as [el' Hel'].
    apply (inv_delete links _ idx el' Hel').
    apply (inv_touch links _ idx (idx - 1) previous); [lia|exact Hprev| |exact Hinv].
    apply sound_elems. reflexivity.
Qed.

Lemma safe_body links parent idx :
  is_Some (elems parent !! idx) ->
  loop_inv links (elems parent) idx ->
  safe_M (body false links parent idx)
    (fun r => loop_inv links (elems (fst r)) (snd r)).
Proof.
  intros [c Hc] Hinv. unfold body. rewrite Hc.
  destruct (inv_head links _ idx c Hc Hinv) as [Hsc Hs].
  assert (Hmoved : forall c', sound links c' = true ->
            loop_inv links
              (elems (fst (set_elems (<[idx := c']> (elems parent)) parent, idx + 1)))
              (snd (set_elems (<[idx := c']> (elems parent)) parent, idx + 1))).
  { intros c' Hc'. cbn [fst snd set_elems elems].
    apply (inv_step links _ idx c c' Hc Hc' Hinv). }
  assert (Hsame : loop_inv links (elems (fst (parent, idx + 1))) (snd (parent, idx + 1))).
  { cbn [fst snd]. apply (inv_next links _ idx c Hc Hinv). }
  assert (Hgone : loop_inv links
                    (elems (fst (set_elems (delete idx (elems parent)) parent, idx)))
                    (snd (set_elems (delete idx (elems parent)) parent, idx))).
  { cbn [fst snd set_elems elems]. apply (inv_delete links _ idx c Hc Hinv). }
  unfold sound_child in Hsc.
  destruct (String.eqb (tag c) "a").
  { apply andb_true_iff in Hsc. destruct Hsc as [Hhref Hun].
    eapply safe_bindM; [apply (safe_getitem c "href" Hhref)|]. intros href Hh.
    cbn beta in Hh. unfold unresolved in Hun. rewrite Hh in Hun.
    destruct (negb (startswith "http" href)).
    - destruct (links !! href) as [dst|].
      + apply safe_ret. apply Hmoved. rewrite <- Hs. apply sound_elems. reflexivity.
      + cbn [andb negb orb] in Hun.
        eapply safe_bindM; [apply safe_warn|]. intros _ _.
        eapply safe_bindM; [apply safe_print|]. intros _ _.
        eapply safe_bindM;
          [apply safe_lift, (safe_remove_link links parent idx c Hc Hun Hinv)|].
        intros p' Hp'. apply safe_ret. exact Hp'.
    - apply safe_ret. apply Hmoved. rewrite <- Hs. apply sound_elems. reflexivity. }
  destruct (String.eqb (tag c) "img").
  { eapply safe_bindM; [apply (safe_getitem c "src" Hsc)|]. intros src _.
    destruct (negb (startswith "http" src)); [|apply safe_ret, Hsame].
    destruct (links !! src) as [dst|].
    - apply safe_ret. apply Hmoved. rewrite <- Hs. apply sound_elems. reflexivity.
    - eapply safe_bindM; [apply safe_warn|]. intros _ _.
      eapply safe_bindM; [apply safe_print|]. intros _ _.
      apply safe_ret, Hgone. }
  destruct (String.eqb (tag c) "video"); [|apply safe_ret, Hsame].
  apply andb_true_iff in Hsc. destruct Hsc as [Hsrc Hcount].
  apply Nat.leb_le in Hcount.
  eapply safe_bindM; [apply (safe_video_sources links idx (elems c) parent false [] Hsrc Hcount)|].
  intros [[sources parent'] removed]. cbn [fst snd].
  intros [(outs & -> & Houts) [[-> ->]|[_ [-> ->]]]].
  - apply safe_ret. apply Hmoved. apply sound_children. cbn [set_elems elems app].
    apply sound_children in Hs. revert Hs. clear -Houts.
    induction Houts as [|s o ss os Ho _ IH]; intros Hs; [constructor|].
    apply Forall_cons in Hs. destruct Hs as [[H1 H2] Hs].
    constructor; [|apply IH, Hs].
    destruct Ho as [->|[v ->]]; [auto|].
    split; [apply sound_child_set_src, H1|].
    rewrite <- H2. apply sound_elems. reflexivity.
  - apply safe_ret, Hgone.
Qed.

Lemma safe_while_loop links fuel : forall parent idx,
  loop_inv links (elems parent) idx ->
  safe_M (while_loop false links fuel parent idx)
    (fun p' => Forall (fun c => sound links c = true) (elems p')).
Proof.
  assert (Hend : forall parent idx, length (elems parent) <= idx ->
            loop_inv links (elems parent) idx ->
            Forall (fun c => sound links c = true) (elems parent)).
  { intros parent idx Hlen [H _]. rewrite take_ge in H by exact Hlen. exact H. }
  induction fuel as [|fuel IH]; intros parent idx Hinv; cbn [while_loop];
    destruct (Nat.ltb_spec idx (length (elems parent))) as [Hlt|Hge];
    try (apply safe_ret; apply (Hend parent idx); assumption).
  - intros w. exact I.
  - eapply safe_bindM;
      [apply (safe_body links parent idx (lookup_lt_is_Some_2 _ _ Hlt) Hinv)|].
    intros [p' idx'] Hinv'. cbn [fst snd] in *. apply IH. exact Hinv'.
Qed.

Lemma safe_mapM {A B} (f : A -> M B) (P : A -> Prop) l :
  (forall a, P a -> safe_M (f a) (fun _ => True)) ->
  Forall P l -> safe_M (mapM f l) (fun _ => True).
Proof.
  intros Hf. induction 1 as [|a l Ha Hl IH]; cbn [mapM].
  - apply safe_ret. exact I.
  - eapply safe_bindM; [apply Hf, Ha|]. intros b _.
    eapply safe_bindM; [exact IH|]. intros bs _.
    apply safe_ret. exact I.
Qed.

Lemma safe_iter links fuel : forall parent,
  sound links parent = true ->
  safe_M (iter false links fuel parent) (fun _ => True).
Proof.
  induction fuel as [|fuel IH]; intros parent Hs; cbn [iter].
  - intros w. exact I.
  - eapply safe_bindM.
    + apply (safe_while_loop links (length (elems parent)) parent 0).
      split; [rewrite take_0; constructor|].
      rewrite drop_0. apply sound_children. exact Hs.
    + intros p' Hp'. cbn beta in Hp'.
      eapply safe_bindM.
      * apply (safe_mapM _ (fun c => sound links c = true)); [|exact Hp'].
        intros c Hc. apply IH. exact Hc.
      * intros es _. apply safe_ret. exact I.
Qed.

(** In lenient mode the processor returns on every sound document,
    whatever the link table resolves: each anchor has its href, and a
    text of its own when its target is local and unknown; each image has
    its src; the children of each video have their src, at most one of
    them local and unknown. Unresolved elements are dropped with their
    warning; no KeyError, TypeError, IndexError or ValueError ends the
    run, and the bound on the loops is not met. *)
Theorem lenient_run_returns links root w :
  sound links root = true ->
  exists root' w', run false links root w = Return (root', w').
Proof.
  intros Hs.
  pose proof (safe_iter links (depth root) root Hs w) as Hsafe.
  pose proof (total_iter false links (depth root) root (le_n _) w) as Htotal.
  unfold run.
  destruct (iter false links (depth root) root w) as [[r w']|e|];
    [eauto|contradiction|contradiction].
Qed.

Lemma lenient_run_returns_witness :
  sound links_alpha p_sample = true /\
  exists root' w', run false links_alpha p_sample w0 = Return (root', w').
Proof.
  split; [reflexivity|].
  apply (lenient_run_returns links_alpha p_sample w0). reflexivity.
Defined.

(** ** How the walker ends *)

Lemma collision_raises cfg root tree pre it post :
  scan [root] tree = pre ++ it :: post ->
  is_entry it = true ->
  NoDup ("" :: entry_names pre) ->
  stem (fst it) ∈ "" :: entry_names pre ->
  parse_input_directory cfg [root] tree = Raise (SameNameError (stem (fst it))).
Proof.
  intros Hscan He Hnd Hin.
  apply NoDup_cons in Hnd. destruct Hnd as [Hroot Hnd].
  pose proof (parents_first_scan root tree) as HPF.
  rewrite Hscan in HPF. apply parents_first_app in HPF. destruct HPF as [HPF _].
  destruct (walk_unique cfg pre [[]] walk_init HPF known_in_init nav_tree_init Hnd)
    as (st & Hw & _ & Hdom & _).
  { intros n Hn. simpl. apply lookup_singleton_None. intros <-. contradiction. }
  unfold parse_input_directory. rewrite Hscan, walk_app, Hw. simpl.
  rewrite walk_item_cases, He.
  rewrite register_taken; [reflexivity| |].
  - simpl. eapply walk_parent_known; eauto.
    unfold is_entry in He. destruct (visible it); [reflexivity|discriminate].
  - simpl. apply elem_of_dom. rewrite Hdom. simpl. rewrite dom_singleton_L.
    apply elem_of_cons in Hin. destruct Hin as [->|Hin].
    + apply elem_of_union. left. apply elem_of_singleton. reflexivity.
    + apply elem_of_union. right. apply elem_of_list_to_set. exact Hin.
Qed.

(** On an input directory given by a path of one part, whatever it
    holds, the walker ends in its tables or in [SameNameError]: the
    lookup of the parent in line 89 never fails there. It returns exactly
    when no two entries share a name and none has the empty name; and
    the error carries the name of the first entry, in scan order, whose
    name is empty or was met before. *)
Theorem walker_outcome cfg root tree :
  parts_of root = [root] ->
  match parse_input_directory cfg [root] tree with
  | Return _ => NoDup ("" :: entry_names (scan [root] tree))
  | Raise (SameNameError n) =>
      exists pre it post,
        scan [root] tree = pre ++ it :: post /\
        is_entry it = true /\
        n = stem (fst it) /\
        NoDup ("" :: entry_names pre) /\
        n ∈ "" :: entry_names pre
  | _ => False
  end.
Proof.
  intros _.
  destruct (decide (NoDup ("" :: entry_names (scan [root] tree)))) as [Hnd|Hdup].
  - destruct (parse_tables cfg root tree Hnd) as (st & -> & _). exact Hnd.
  - destruct (first_collision _ Hdup) as (pre & it & post & Hscan & He & Hnd & Hin).
    rewrite (collision_raises cfg root tree pre it post Hscan He Hnd Hin).
    exists pre, it, post. auto.
Qed.

Lemma walker_outcome_witness :
  match parse_input_directory cfg0 ["vault"] tree_two_notes with
  | Return _ => NoDup ("" :: entry_names (scan ["vault"] tree_two_notes))
  | Raise (SameNameError n) =>
      exists pre it post,
        scan ["vault"] tree_two_notes = pre ++ it :: post /\
        is_entry it = true /\
        n = stem (fst it) /\
        NoDup ("" :: entry_names pre) /\
        n ∈ "" :: entry_names pre
  | _ => False
  end.
Proof. exact (walker_outcome cfg0 "vault" tree_two_notes eq_refl). Defined.

(** An input path whose parent directory has a name, such as a/vault or
    /srv/vault, on which no part is hidden and which is a directory: the
    first item of the scan is the directory itself, the navigation table
    holds the root key alone, and the lookup of the parent in line 89
    raises [KeyError] with the parent's stem. *)
Theorem named_parent_raises_KeyError cfg (input_path : path) es :
  hidden input_path = false ->
  stem (parent input_path) <> "" ->
  parse_input_directory cfg input_path (Dir es)
  = Raise (KeyError (stem (parent input_path))).
Proof.
  intros Hvis Hparent.
  unfold parse_input_directory, scan. cbn [walk]. unfold walk_item.
  cbn [fst snd]. rewrite Hvis. unfold register. cbn [set_page navigation walk_init].
  rewrite lookup_singleton_ne by (intros E; apply Hparent; symmetry; exact E).
  reflexivity.
Qed.

Lemma named_parent_raises_KeyError_witness :
  parts_of "/srv/vault" = ["/"; "srv"; "vault"] /\
  parse_input_directory cfg0 (parts_of "/srv/vault") tree_site = Raise (KeyError "srv").
Proof.
  split; [reflexivity|].
  apply (named_parent_raises_KeyError cfg0 (parts_of "/srv/vault")).
  - reflexivity.
  - discriminate.
Defined.
